(** * Webhook relay: the registry and delivery-capture store

    A shallow embedding of [src/store.js] (the file-backed
    [FileWebhookStore], its flush discipline and its start-up code) and
    the properties the specification states about it. *)

From Stdlib Require Import QArith Qround Ascii String.
From stdpp Require Import gmap strings list sorting.
From Stdlib.Strings Require Import Byte.

Local Open Scope string_scope.
Local Open Scope list_scope.

(** ** JavaScript numbers

    [logLimit] and the [limit] argument of [listRecentEntries] are
    JavaScript numbers: the outcome of [Number(...)] on an environment
    variable or on a caller's argument.  A number is [NaN], an infinity or
    a finite value, taken here as a rational. *)

Inductive number :=
| NaN
| PosInf
| NegInf
| Fin (q : Q).

Definition of_nat (n : nat) : number := Fin (inject_Z (Z.of_nat n)).

(** [ToIntegerOrInfinity] on a finite value: the fraction is dropped,
    rounding towards zero. *)
Definition truncate (q : Q) : Z :=
  if Qle_bool 0 q then Qfloor q else Qceiling q.

(** [a.length > x] for an array length [len]. *)
Definition length_gt (len : nat) (x : number) : bool :=
  match x with
  | NaN => false
  | PosInf => false
  | NegInf => true
  | Fin q => negb (Qle_bool (inject_Z (Z.of_nat len)) q)
  end.

(** [a.slice(0, x)]: the end index is [ToIntegerOrInfinity(x)]; a negative
    end counts from the end of the array, and the result is clipped to the
    array. *)
Definition slice0 {A} (a : list A) (x : number) : list A :=
  match x with
  | NaN => []
  | PosInf => a
  | NegInf => []
  | Fin q =>
      let e := truncate q in
      if (e <? 0)%Z then take (Z.to_nat (Z.of_nat (length a) + e)) a
      else take (Z.to_nat e) a
  end.

(** [x || d] on numbers: [NaN] and zero are falsy. *)
Definition or_else (x d : number) : number :=
  match x with
  | NaN => d
  | Fin q => if Qeq_bool q 0 then d else x
  | _ => x
  end.

Definition Math_min (x y : number) : number :=
  match x, y with
  | NaN, _ | _, NaN => NaN
  | NegInf, _ | _, NegInf => NegInf
  | PosInf, z | z, PosInf => z
  | Fin p, Fin q => if Qle_bool p q then x else y
  end.

Definition Math_max (x y : number) : number :=
  match x, y with
  | NaN, _ | _, NaN => NaN
  | PosInf, _ | _, PosInf => PosInf
  | NegInf, z | z, NegInf => z
  | Fin p, Fin q => if Qle_bool p q then y else x
  end.

(** ** Identifiers: [generateId] *)

(** The system's entropy source, read front to back by
    [crypto.randomBytes]. *)
Record entropy := { stream : nat -> byte; drawn : nat }.

Definition randomBytes (size : nat) (src : entropy) : list byte * entropy :=
  (map (stream src) (seq (drawn src) size),
   {| stream := stream src; drawn := drawn src + size |}).

Definition alphabet : list ascii :=
  list_ascii_of_string
    "ABCDEFGHIJKLMNOPQRSTUVWXYZabcdefghijklmnopqrstuvwxyz0123456789-_".

Definition digit (n : N) : ascii :=
  nth (N.to_nat (N.land n 63)) alphabet "A"%char.

(** [buf.toString('base64url')]: three bytes give four digits; a trailing
    group of one or two bytes gives two or three, and no padding is
    written. *)
Fixpoint base64url (bs : list byte) : string :=
  match bs with
  | [] => ""
  | [a] =>
      let a := Byte.to_N a in
      String (digit (N.shiftr a 2))
        (String (digit (N.shiftl (N.land a 3) 4)) "")
  | [a; b] =>
      let a := Byte.to_N a in
      let b := Byte.to_N b in
      String (digit (N.shiftr a 2))
        (String (digit (N.lor (N.shiftl (N.land a 3) 4) (N.shiftr b 4)))
           (String (digit (N.shiftl (N.land b 15) 2)) ""))
  | a :: b :: c :: rest =>
      let a := Byte.to_N a in
      let b := Byte.to_N b in
      let c := Byte.to_N c in
      String (digit (N.shiftr a 2))
        (String (digit (N.lor (N.shiftl (N.land a 3) 4) (N.shiftr b 4)))
           (String (digit (N.lor (N.shiftl (N.land b 15) 2) (N.shiftr c 6)))
              (String (digit c) (base64url rest))))
  end.

(** [s.slice(0, n)] on a string, for a length [n]. *)
Definition str_slice0 (s : string) (n : nat) : string := substring 0 n s.

(** [generateId(length)].  The retry is a recursive call on the same
    argument, so the recursion is cut by a budget of attempts; [None] means
    the budget ran out. *)
Fixpoint generateId (attempts : nat) (len : nat) (src : entropy)
  : option (string * entropy) :=
  match attempts with
  | O => None
  | S attempts' =>
      let '(bytes, src') := randomBytes (len * 2) src in
      let id := str_slice0 (base64url bytes) len in
      if (len <=? String.length id)%nat then Some (id, src')
      else generateId attempts' len src'
  end.

Definition well_shaped (id : string) : Prop :=
  Forall (fun c => In c alphabet) (list_ascii_of_string id).

(** ** Objects used as maps

    [this.state.hooks] is a plain object keyed by slug.  Its own
    properties are kept here in enumeration order, the order in which
    [Object.values] visits them: array-index keys first, in ascending
    numeric order, then every other key in order of creation. *)

Definition digit_value (c : ascii) : option N :=
  let n := N_of_ascii c in
  if ((48 <=? n) && (n <=? 57))%N then Some (n - 48)%N else None.

Fixpoint decimal (acc : N) (s : string) : option N :=
  match s with
  | EmptyString => Some acc
  | String c s' =>
      match digit_value c with
      | Some d => decimal (10 * acc + d)%N s'
      | None => None
      end
  end.

(** The array index a key denotes, if it is the canonical decimal text of
    an integer below 2^32 - 1. *)
Definition array_index (k : string) : option N :=
  match k with
  | EmptyString => None
  | String "0"%char EmptyString => Some 0%N
  | String "0"%char _ => None
  | _ =>
      match decimal 0 k with
      | Some n => if (n <? 4294967295)%N then Some n else None
      | None => None
      end
  end.

Definition object (V : Type) : Type := list (string * V).

(** The own property [k], if there is one. *)
Fixpoint own {V} (o : object V) (k : string) : option V :=
  match o with
  | [] => None
  | (k', v) :: o' => if String.eqb k' k then Some v else own o' k
  end.

(** Whether a new key [k] is enumerated before the existing key [k']. *)
Definition goes_before (k k' : string) : bool :=
  match array_index k, array_index k' with
  | Some i, Some i' => (i <? i')%N
  | Some _, None => true
  | None, _ => false
  end.

Fixpoint add_key {V} (o : object V) (k : string) (v : V) : object V :=
  match o with
  | [] => [(k, v)]
  | (k', v') :: o' =>
      if goes_before k k' then (k, v) :: o else (k', v') :: add_key o' k v
  end.

Fixpoint replace {V} (o : object V) (k : string) (v : V) : object V :=
  match o with
  | [] => []
  | (k', v') :: o' =>
      if String.eqb k' k then (k', v) :: o' else (k', v') :: replace o' k v
  end.

(** [o[k] = v]: an existing own property keeps its place. *)
Definition assign {V} (o : object V) (k : string) (v : V) : object V :=
  match own o k with
  | Some _ => replace o k v
  | None => add_key o k v
  end.

(** [delete o[k]]. *)
Definition remove {V} (o : object V) (k : string) : object V :=
  List.filter (fun kv => negb (String.eqb (fst kv) k)) o.

Definition Object_values {V} (o : object V) : list V := map snd o.

(** What every plain object inherits from [Object.prototype].  Each of
    these members is a function, except [__proto__], which reads as
    [Object.prototype] itself; all of them are truthy. *)
Definition Object_prototype : list string :=
  [ "constructor"; "__defineGetter__"; "__defineSetter__";
    "hasOwnProperty"; "__lookupGetter__"; "__lookupSetter__";
    "isPrototypeOf"; "propertyIsEnumerable"; "toString"; "valueOf";
    "__proto__"; "toLocaleString" ].

Definition inherited (k : string) : bool :=
  existsb (String.eqb k) Object_prototype.

(** What the expression [o[k]] evaluates to. *)
Inductive member (V : Type) :=
| Own (v : V)
| Inherited
| Undefined.
Arguments Own {V} v.
Arguments Inherited {V}.
Arguments Undefined {V}.

Definition get {V} (o : object V) (k : string) : member V :=
  match own o k with
  | Some v => Own v
  | None => if inherited k then Inherited else Undefined
  end.

(** ** Data model *)

(** A JavaScript value as [JSON.parse] builds it.  An array is an object
    too and can be given named properties, which [JSON.stringify] does not
    write. *)
#[warnings="-register-all"]
Inductive value :=
| Null
| Bool (b : bool)
| Num (n : number)
| Str (s : string)
| Arr (items : list value) (props : list (string * value))
| Obj (fields : list (string * value)).

(** The value that the text [JSON.stringify(v)] denotes, with or without
    indentation, which is what [JSON.parse] makes of that text: named
    properties of arrays are not written, and a number that is not finite
    is written as [null].  Negative zero, which is written as [0], is not
    told from zero here. *)
Fixpoint stringify (v : value) : value :=
  match v with
  | Num (Fin q) => v
  | Num _ => Null
  | Arr items _ => Arr (map stringify items) []
  | Obj fields => Obj (map (fun kv => (fst kv, stringify (snd kv))) fields)
  | _ => v
  end.

(** Timestamps are the ISO-8601 texts of [Date.prototype.toISOString];
    each stands here for the millisecond count it denotes, which is what
    [new Date(t).getTime()] gives back. *)
Definition timestamp : Type := Z.

Module Entry.
Record t := mk {
  id : string;
  timestamp : timestamp;
  body : string;
  bodyPreview : string;
  isJson : bool;
  formatted : option string;
  byteSize : nat;
}.
End Entry.

Module Hook.
(** [M] is the representation of the metadata object: its content, or a
    reference to it where aliasing matters. *)
Record t (M : Type) := mk {
  id : string;
  slug : string;
  description : string;
  metadata : M;
  createdAt : timestamp;
  lastHit : option timestamp;
  hits : Z;
  logs : list Entry.t;
}.
Arguments mk {M}.
Arguments id {M}.
Arguments slug {M}.
Arguments description {M}.
Arguments metadata {M}.
Arguments createdAt {M}.
Arguments lastHit {M}.
Arguments hits {M}.
Arguments logs {M}.

(** The object literal of [createHook]. *)
Definition fresh {M} (id slug description : string) (metadata : M)
    (now : timestamp) : t M :=
  mk id slug description metadata now None 0 [].

(** The body of [recordHit] once the hook is found. *)
Definition hit {M} (logLimit : number) (entry : Entry.t) (hook : t M) : t M :=
  let logs1 := entry :: logs hook in
  mk (id hook) (slug hook) (description hook) (metadata hook)
     (createdAt hook)
     (Some (Entry.timestamp entry))
     (hits hook + 1)
     (if length_gt (length logs1) logLimit then slice0 logs1 logLimit
      else logs1).

(** The body of [clearLogs] once the hook is found. *)
Definition clear {M} (hook : t M) : t M :=
  mk (id hook) (slug hook) (description hook) (metadata hook)
     (createdAt hook) None 0 [].
End Hook.

Module Summary.
Record t (M : Type) := mk {
  slug : string;
  description : string;
  metadata : M;
  createdAt : timestamp;
  lastHit : option timestamp;
  hits : Z;
}.
Arguments mk {M}.
Arguments slug {M}.
Arguments description {M}.
Arguments metadata {M}.
Arguments createdAt {M}.
Arguments lastHit {M}.
Arguments hits {M}.

Definition of_hook {M} (hook : Hook.t M) : t M :=
  mk (Hook.slug hook) (Hook.description hook) (Hook.metadata hook)
     (Hook.createdAt hook) (Hook.lastHit hook) (Hook.hits hook).
End Summary.

Module Recent.
Record t := mk {
  slug : string;
  timestamp : timestamp;
  body : string;
  bodyPreview : string;
  isJson : bool;
  formatted : option string;
  byteSize : nat;
  reference : string;
}.

Definition of_log (slug : string) (log : Entry.t) : t :=
  mk slug (Entry.timestamp log) (Entry.body log) (Entry.bodyPreview log)
     (Entry.isJson log) (Entry.formatted log) (Entry.byteSize log)
     (Entry.id log).
End Recent.

(** ** The file-backed store *)

Inductive exn :=
| StatusError (statusCode : Z) (message : string)
    (* an [Error] that was given a [statusCode] *)
| SystemError (code : string)
    (* a file-system error with its [code] *)
| SyntaxError
    (* what [JSON.parse] throws *)
| TypeError.
    (* what a call of a value that is no function throws *)

Definition quote : string := String (ascii_of_nat 34) EmptyString.

Definition conflict (slug : string) : exn :=
  StatusError 409
    ("A webhook with slug " ++ quote ++ slug ++ quote ++ " already exists.").

Definition unknown (slug : string) : exn :=
  StatusError 404 ("Unknown webhook slug " ++ quote ++ slug ++ quote ++ ".").

(** A run of [persist()] started by [schedulePersist], from its call to
    the [finally] handler chained on it. *)
Inductive flush (S : Type) :=
| AwaitMkdir                 (* suspended on [fs.mkdir] *)
| AwaitWrite (text : S)      (* suspended on [fs.writeFile] of [text] *)
| Settled.                   (* over; [catch]/[finally] not yet run *)
Arguments AwaitMkdir {S}.
Arguments AwaitWrite {S} text.
Arguments Settled {S}.

(** The registry [this.state.hooks].  The text [JSON.stringify] makes of
    the state determines the registry and is identified with it. *)
Abbreviation registry := (object (Hook.t value)).

Record world := {
  hooks : registry;             (* [this.state.hooks] *)
  logLimit : number;            (* [this.logLimit] *)
  writePromise : bool;          (* whether [this.writePromise] is set *)
  pendingFlush : bool;          (* [this.pendingFlush] *)
  flushes : list (flush registry);   (* the runs of [persist()] *)
  disk : option registry;       (* the registry the backing file holds *)
  random : entropy;
}.

(** [new FileWebhookStore(filePath, { logLimit })] over a file holding
    [disk]. *)
Definition new_store (logLimit : option number) (disk : option registry)
    (random : entropy) : world :=
  {| hooks := [];
     logLimit := default (of_nat 50) logLimit;
     writePromise := false;
     pendingFlush := false;
     flushes := [];
     disk := disk;
     random := random |}.

Definition with_hooks (r : registry) (w : world) : world :=
  {| hooks := r; logLimit := logLimit w; writePromise := writePromise w;
     pendingFlush := pendingFlush w; flushes := flushes w; disk := disk w;
     random := random w |}.

Definition with_random (src : entropy) (w : world) : world :=
  {| hooks := hooks w; logLimit := logLimit w;
     writePromise := writePromise w; pendingFlush := pendingFlush w;
     flushes := flushes w; disk := disk w; random := src |}.

Definition with_flush (promise pending : bool) (fs : list (flush registry))
    (w : world) : world :=
  {| hooks := hooks w; logLimit := logLimit w; writePromise := promise;
     pendingFlush := pending; flushes := fs; disk := disk w;
     random := random w |}.

Definition with_disk (d : option registry) (w : world) : world :=
  {| hooks := hooks w; logLimit := logLimit w;
     writePromise := writePromise w; pendingFlush := pendingFlush w;
     flushes := flushes w; disk := d; random := random w |}.

(** [schedulePersist()].  Starting [persist()] runs it up to its first
    [await]: [normalizeState] returns a well-formed state as it is, and
    [fs.mkdir] is issued. *)
Definition schedulePersist (w : world) : world :=
  if writePromise w then with_flush true true (flushes w) w
  else with_flush true (pendingFlush w) (flushes w ++ [AwaitMkdir]) w.

(** How a call on the store ends. *)
Inductive outcome (A : Type) :=
| Return (a : A) (w : world)
    (* it returns [a], or the promise it returns fulfils with [a] *)
| Throw (e : exn) (w : world)
    (* it throws [e], or its promise rejects with [e] *)
| Builtin
    (* the lookup gave a member inherited from [Object.prototype], and the
       call went on to read or write that built-in object as if it were a
       hook record; what the runtime is like afterwards is not modelled *)
| Hang.
    (* [generateId] used up its attempts *)
Arguments Return {A} a w.
Arguments Throw {A} e w.
Arguments Builtin {A}.
Arguments Hang {A}.

(** The attempts [createHook] grants [generateId]. *)
Definition attempts : nat := 3.

(** [JSON.parse(JSON.stringify(hook))] for a hook record.  The texts, the
    counter, the timestamps and the log entries are written and read back
    as they are; [metadata] is whatever value the caller of [createHook]
    passed, and comes back as [stringify] gives it. *)
Definition JSON_copy (hook : Hook.t value) : Hook.t value :=
  Hook.mk (Hook.id hook) (Hook.slug hook) (Hook.description hook)
    (stringify (Hook.metadata hook)) (Hook.createdAt hook)
    (Hook.lastHit hook) (Hook.hits hook) (Hook.logs hook).

(** [getHook(slug)] returns [JSON.parse(JSON.stringify(hook))]. *)
Definition getHook (slug : string) (w : world)
  : outcome (option (Hook.t value)) :=
  match get (hooks w) slug with
  | Undefined => Return None w
  | Own hook => Return (Some (JSON_copy hook)) w
  | Inherited => Builtin
  end.

Definition createHook (slug description : string) (metadata : value)
    (now : timestamp) (w : world) : outcome (Hook.t value) :=
  match get (hooks w) slug with
  | Own _ | Inherited => Throw (conflict slug) w
  | Undefined =>
      match generateId attempts 10 (random w) with
      | None => Hang
      | Some (id, src) =>
          let hook := Hook.fresh id slug description metadata now in
          Return hook
            (schedulePersist
               (with_hooks (assign (hooks w) slug hook) (with_random src w)))
      end
  end.

Definition deleteHook (slug : string) (w : world) : outcome bool :=
  match get (hooks w) slug with
  | Undefined => Return false w
  | Own _ | Inherited =>
      Return true (schedulePersist (with_hooks (remove (hooks w) slug) w))
  end.

Definition recordHit (slug : string) (entry : Entry.t) (w : world)
  : outcome Entry.t :=
  match get (hooks w) slug with
  | Undefined => Throw (unknown slug) w
  | Inherited => Builtin
  | Own hook =>
      let hook := Hook.hit (logLimit w) entry hook in
      Return entry (schedulePersist (with_hooks (replace (hooks w) slug hook) w))
  end.

Definition clearLogs (slug : string) (w : world) : outcome (Hook.t value) :=
  match get (hooks w) slug with
  | Undefined => Throw (unknown slug) w
  | Inherited => Builtin
  | Own hook =>
      let hook := Hook.clear hook in
      Return hook (schedulePersist (with_hooks (replace (hooks w) slug hook) w))
  end.

Definition listHooks (w : world) : list (Summary.t value) :=
  map Summary.of_hook (Object_values (hooks w)).

(** *** [listRecentEntries] *)

(** [Array.prototype.sort] is stable; with the comparator
    [(a, b) => time(b) - time(a)] an entry ends up behind exactly those
    later entries that have a strictly later timestamp. *)
Fixpoint insert_sorted (x : Recent.t) (l : list Recent.t) : list Recent.t :=
  match l with
  | [] => [x]
  | y :: l' =>
      if (Recent.timestamp y <=? Recent.timestamp x)%Z then x :: l
      else y :: insert_sorted x l'
  end.

Definition sort (l : list Recent.t) : list Recent.t :=
  foldr insert_sorted [] l.

(** The [limit] argument: left out, or a value that [Number] converts. *)
Inductive argument :=
| Omitted
| Passed (n : number).   (* [n] is [Number(limit)] *)

Definition safeLimit (limit : argument) : number :=
  let limit := match limit with Omitted => of_nat 20 | Passed n => n end in
  Math_max (of_nat 1) (Math_min (or_else limit (of_nat 20)) (of_nat 100)).

Definition entries (r : registry) : list Recent.t :=
  flat_map (fun hook => map (Recent.of_log (Hook.slug hook)) (Hook.logs hook))
    (Object_values r).

Definition listRecentEntries (limit : argument) (w : world) : list Recent.t :=
  slice0 (sort (entries (hooks w))) (safeLimit limit).

(** *** The event loop

    Calls on the store and completions of the disk operations of a flush
    interleave; each runs to its next [await] without interruption. *)

Inductive call :=
| CreateHook (slug description : string) (metadata : value) (now : timestamp)
| DeleteHook (slug : string)
| RecordHit (slug : string) (entry : Entry.t)
| ClearLogs (slug : string).

Definition after {A} (o : outcome A) : option world :=
  match o with
  | Return _ w | Throw _ w => Some w
  | Builtin | Hang => None
  end.

Definition invoke (c : call) (w : world) : option world :=
  match c with
  | CreateHook slug description metadata now =>
      after (createHook slug description metadata now w)
  | DeleteHook slug => after (deleteHook slug w)
  | RecordHit slug entry => after (recordHit slug entry w)
  | ClearLogs slug => after (clearLogs slug w)
  end.

(** How [fs.writeFile] ends: the file holds the text, or the call fails
    and leaves the file with whatever it then holds. *)
Inductive written :=
| Saved
| Failed (remains : option registry).

Inductive event :=
| Call (c : call)
| MkdirDone (i : nat) (ok : bool)   (* [fs.mkdir] of flush [i] is over *)
| WriteDone (i : nat) (r : written) (* [fs.writeFile] of flush [i] is over *)
| Finally (i : nat).                (* the [finally] handler of flush [i] *)

Definition step (e : event) (w : world) : option world :=
  match e with
  | Call c => invoke c w
  | MkdirDone i ok =>
      match flushes w !! i with
      | Some AwaitMkdir =>
          let f := if ok then AwaitWrite (hooks w) else Settled in
          Some (with_flush (writePromise w) (pendingFlush w)
                  (<[i := f]> (flushes w)) w)
      | _ => None
      end
  | WriteDone i r =>
      match flushes w !! i with
      | Some (AwaitWrite text) =>
          let d := match r with Saved => Some text | Failed remains => remains end in
          Some (with_disk d
                  (with_flush (writePromise w) (pendingFlush w)
                     (<[i := Settled]> (flushes w)) w))
      | _ => None
      end
  | Finally i =>
      match flushes w !! i with
      | Some Settled =>
          let w := with_flush false (pendingFlush w) (delete i (flushes w)) w in
          Some (if pendingFlush w
                then schedulePersist
                       (with_flush (writePromise w) false (flushes w) w)
                else w)
      | _ => None
      end
  end.

Fixpoint run (es : list event) (w : world) : option world :=
  match es with
  | [] => Some w
  | e :: es' =>
      match step e w with
      | Some w' => run es' w'
      | None => None
      end
  end.

(** No flush is running and none is asked for. *)
Definition idle (w : world) : Prop :=
  writePromise w = false /\ pendingFlush w = false /\ flushes w = [].

(** The flushes whose disk operations are still under way. *)
Definition in_flight (w : world) : nat :=
  length (List.filter (fun f => match f with Settled => false | _ => true end)
            (flushes w)).

(** A disk operation that completes without error, or a [finally]
    handler. *)
Definition smooth (e : event) : bool :=
  match e with
  | MkdirDone _ true | WriteDone _ Saved | Finally _ => true
  | _ => false
  end.

(** The completion the event loop delivers next when no disk operation
    fails. *)
Definition next (w : world) : option event :=
  match flushes w with
  | [] => None
  | AwaitMkdir :: _ => Some (MkdirDone 0 true)
  | AwaitWrite _ :: _ => Some (WriteDone 0 Saved)
  | Settled :: _ => Some (Finally 0)
  end.

Fixpoint settle (fuel : nat) (w : world) : list event :=
  match fuel with
  | O => []
  | S fuel' =>
      match next w with
      | Some e =>
          match step e w with
          | Some w' => e :: settle fuel' w'
          | None => []
          end
      | None => []
      end
  end.

(** The record after the deliveries [es], oldest first. *)
Definition hit_all {M} (x : number) (es : list Entry.t) (hook : Hook.t M)
  : Hook.t M :=
  foldl (fun h e => Hook.hit x e h) hook es.

(** The constructor followed by [init()], over a backing file that holds
    the registry [r]: the state is what [JSON.parse] reads from the file.
    [init] below covers the other contents a file can have. *)
Definition open_store (logLimit : option number) (r : registry)
    (random : entropy) : world :=
  with_hooks r (new_store logLimit (Some r) random).

(** *** Sample data *)

Definition zeros : entropy := {| stream := fun _ => x00%byte; drawn := 0 |}.

Definition delivery (n : Z) : Entry.t :=
  Entry.mk "lq3k2a" n "{}" "{}" true (Some "{}") 2.

(** A record as a file written under a larger [logLimit] holds it. *)
Definition kept_hook : Hook.t value :=
  Hook.mk "Zm9vYmFyMT" "a" "" (Obj []) 0%Z (Some 3%Z) 3%Z
    [delivery 3; delivery 2; delivery 1].

(** A store opened with [logLimit = 1] over that file. *)
Definition reopened : world :=
  open_store (Some (of_nat 1)) [("a", kept_hook)] zeros.

(** A store opened with the default [logLimit] over an empty registry. *)
Definition blank : world := open_store None [] zeros.

(** The number of entries the feed is cut to, put in words: 20 when the
    limit is left out, is zero or is not a number; otherwise the limit
    brought into the range from 1 to 100, with its fraction dropped. *)
Definition effective_limit (limit : argument) : nat :=
  match limit with
  | Omitted | Passed NaN => 20
  | Passed PosInf => 100
  | Passed NegInf => 1
  | Passed (Fin q) =>
      if Qeq_bool q 0 then 20
      else if Qle_bool q 1 then 1
      else if Qle_bool 100 q then 100
      else Z.to_nat (Qfloor q)
  end.

(** Newest first. *)
Definition newer_first (a b : Recent.t) : Prop :=
  (Recent.timestamp b <= Recent.timestamp a)%Z.

(** The limit brought into the range from 1 to 100, which is what the
    specification says of every limit. *)
Definition clamp (q : Q) : Q :=
  if Qle_bool q 1 then 1%Q else if Qle_bool 100 q then 100%Q else q.

(** *** The flush discipline, stated *)

(** At most one flush exists, and [writePromise] is set exactly while it
    does. *)
Definition coalesced (w : world) : Prop :=
  idle w \/ exists f, flushes w = [f] /\ writePromise w = true.

(** The registry in memory is on disk, or is bound to be written: by the
    running flush, which has not yet taken its text or has taken it from
    the registry as it is now, or by the flush that [pendingFlush] asks
    for. *)
Definition covered (w : world) : Prop :=
  match flushes w with
  | [] => disk w = Some (hooks w)
  | [AwaitMkdir] => True
  | [AwaitWrite text] => text = hooks w \/ pendingFlush w = true
  | [Settled] => disk w = Some (hooks w) \/ pendingFlush w = true
  | _ => False
  end.

(** The completions still to come before the store is idle, when no disk
    operation fails and no call arrives. *)
Definition remaining (w : world) : nat :=
  (if pendingFlush w then 3 else 0) +
  match flushes w with
  | [] => 0
  | AwaitMkdir :: _ => 3
  | AwaitWrite _ :: _ => 2
  | Settled :: _ => 1
  end.

(** [w0] differs from [w] in the registry and the entropy at most. *)
Definition same_flush (w0 w : world) : Prop :=
  writePromise w0 = writePromise w /\ pendingFlush w0 = pendingFlush w /\
  flushes w0 = flushes w /\ disk w0 = disk w.

(** The record that [createHook("email1")] makes at time 7 when the
    entropy source gives zeros. *)
Definition fresh_hook : Hook.t value :=
  Hook.fresh "AAAAAAAAAA" "email1" "" (Obj []) 7%Z.

(** [blank] just after [createHook("email1")]: the first flush is under
    way. *)
Definition flushing : world :=
  default blank (run [Call (CreateHook "email1" "" (Obj []) 7%Z)] blank).

(** ** Start-up: [init] and [normalizeState]

    [init] runs before the state is known to be a registry, so [this.state]
    is here whatever value [JSON.parse] produced. *)

(** [!v] is [negb (truthy v)]. *)
Definition truthy (v : value) : bool :=
  match v with
  | Null => false
  | Bool b => b
  | Num NaN => false
  | Num (Fin q) => negb (Qeq_bool q 0)
  | Num _ => true
  | Str s => negb (String.eqb s "")
  | Arr _ _ | Obj _ => true
  end.

(** [typeof v === 'object'], which holds of [null] and of arrays too. *)
Definition is_object (v : value) : bool :=
  match v with
  | Null | Arr _ _ | Obj _ => true
  | _ => false
  end.

(** [v.hooks] for an object [v]; no prototype has a member of that name. *)
Definition hooks_of (v : value) : option value :=
  match v with
  | Obj fields => own fields "hooks"
  | Arr _ props => own props "hooks"
  | _ => None
  end.

(** [v.hooks = h] for an object [v]. *)
Definition set_hooks (v h : value) : value :=
  match v with
  | Obj fields => Obj (assign fields "hooks" h)
  | Arr items props => Arr items (assign props "hooks" h)
  | _ => v
  end.

(** The object literal [{ hooks: {} }]. *)
Definition empty_state : value := Obj [("hooks", Obj [])].

Definition normalizeState (rawState : value) : value :=
  if negb (truthy rawState) || negb (is_object rawState) then empty_state
  else
    match hooks_of rawState with
    | Some h =>
        if negb (truthy h) || negb (is_object h)
        then set_hooks rawState (Obj [])
        else rawState
    | None => set_hooks rawState (Obj [])
    end.

(** What the backing file holds, as [JSON.parse(raw || '{"hooks":{}}')]
    sees it. *)
Inductive document :=
| Blank               (* the empty text: the default text is parsed *)
| Text (v : value)    (* a text that [JSON.parse] accepts, giving [v] *)
| Garbage.            (* any other text: [JSON.parse] throws *)

(** How [fs.readFile] ends. *)
Inductive reading :=
| Fails (code : string)
| Content (d : document).

(** How the file-system calls of one [init] end, each kind of call the
    same way every time; [Some code] is a failure with that error code. *)
Record fsys := {
  readFile : reading;
  mkdir : option string;
  writeFile : option string;
}.

(** The calls that change the disk, in the order they are made. *)
Inductive fs_call :=
| Mkdir (recursive : bool)
| WriteFile (text : value).

(** How a start-up function ends: the error it throws if any, the state
    it leaves in [this.state], and the calls it made. *)
Definition started : Type := option exn * value * list fs_call.

(** [persist()], awaited to its end. *)
Definition persist (fs : fsys) (state : value) : started :=
  let state := normalizeState state in
  match mkdir fs with
  | Some code => (Some (SystemError code), state, [Mkdir true])
  | None =>
      let calls := [Mkdir true; WriteFile (stringify state)] in
      match writeFile fs with
      | Some code => (Some (SystemError code), state, calls)
      | None => (None, state, calls)
      end
  end.

Definition init (fs : fsys) (state : value) : started :=
  match readFile fs with
  | Content Garbage => (Some SyntaxError, state, [])
  | Content Blank => (None, normalizeState empty_state, [])
  | Content (Text v) => (None, normalizeState v, [])
  | Fails code =>
      if String.eqb code "ENOENT" then
        match mkdir fs with
        | Some code' => (Some (SystemError code'), state, [Mkdir true])
        | None =>
            let '(e, state, calls) := persist fs (normalizeState state) in
            (e, state, Mkdir true :: calls)
        end
      else (Some (SystemError code), state, [])
  end.

(** A state of the shape the store works on: an object whose [hooks] is
    an object. *)
Definition shaped (state : value) : Prop :=
  truthy state = true /\ is_object state = true /\
  exists h, hooks_of state = Some h /\ truthy h = true /\ is_object h = true.

(** The condition under which [normalizeState] replaces [hooks]. *)
Definition lacks_hooks (v : value) : bool :=
  match hooks_of v with
  | Some h => negb (truthy h) || negb (is_object h)
  | None => true
  end.

(** ** The MongoDB-backed store

    [MongoWebhookStore] keeps one document per hook in a collection.  The
    calls on the collection are given the meaning the database documents
    for them, and a document is read back with the values it was stored
    with; [logLimit] is an integer here, the only kind of number the
    server takes for [$slice]. *)

Module Mongo.

(** A document: the hook record and the [_id] the server gave it. *)
Record doc := { oid : N; fields : Hook.t value }.

Record world := {
  collection : list doc;
  logLimit : Z;
  random : entropy;
  wraps : bool;    (* whether this driver wraps results as [{ value }] *)
}.

Inductive outcome (A : Type) :=
| Return (a : A) (w : world)
| Throw (e : exn) (w : world)
| Hang.
Arguments Return {A} a w.
Arguments Throw {A} e w.
Arguments Hang {A}.

Definition with_collection (c : list doc) (w : world) : world :=
  {| collection := c; logLimit := logLimit w; random := random w;
     wraps := wraps w |}.

Definition with_random (src : entropy) (w : world) : world :=
  {| collection := collection w; logLimit := logLimit w; random := src;
     wraps := wraps w |}.

Definition has_slug (slug : string) (d : doc) : bool :=
  String.eqb (Hook.slug (fields d)) slug.

(** [collection.findOne({ slug })]. *)
Definition findOne (slug : string) (c : list doc) : option doc :=
  List.find (has_slug slug) c.

(** [collection.findOneAndUpdate({ slug }, update, { returnDocument:
    'after' })]: the first match is updated in place and returned. *)
Fixpoint findOneAndUpdate (slug : string)
    (update : Hook.t value -> Hook.t value) (c : list doc)
  : option doc * list doc :=
  match c with
  | [] => (None, [])
  | d :: c' =>
      if has_slug slug d then
        let d' := {| oid := oid d; fields := update (fields d) |} in
        (Some d', d' :: c')
      else
        let '(r, c'') := findOneAndUpdate slug update c' in (r, d :: c'')
  end.

(** What the driver hands back for a found or missing document. *)
Inductive result :=
| Nothing
| Direct (d : doc)
| Wrapper (value : option doc).

Definition respond (w : world) (r : option doc) : result :=
  if wraps w then Wrapper r
  else match r with Some d => Direct d | None => Nothing end.

Definition extractValue (r : result) : option doc :=
  match r with
  | Nothing => None
  | Wrapper value => value
  | Direct d => Some d
  end.

(** [x || {}] *)
Definition or_object (x : value) : value := if truthy x then x else Obj [].

(** What [sanitizeHook] makes of a document that is not [null]: the
    record without its [_id], with [metadata || {}] for its metadata.
    [logs] is an array in every record here, and an array is truthy, so
    that [logs || []] is [logs]. *)
Definition sanitized (d : doc) : Hook.t value :=
  let rest := fields d in
  Hook.mk (Hook.id rest) (Hook.slug rest) (Hook.description rest)
    (or_object (Hook.metadata rest)) (Hook.createdAt rest)
    (Hook.lastHit rest) (Hook.hits rest) (Hook.logs rest).

(** [sanitizeHook(doc)] *)
Definition sanitizeHook (d : option doc) : option (Hook.t value) :=
  sanitized <$> d.

(** [$push: { logs: { $each, $position: 0, $slice: n } }]: the new
    elements go in front, then the array is cut to its first [n] elements,
    or to its last [-n] when [n] is negative. *)
Definition push_front_slice {A} (each : list A) (n : Z) (a : list A) : list A :=
  let a := each ++ a in
  if (n <? 0)%Z then drop (length a - Z.to_nat (- n)) a
  else take (Z.to_nat n) a.

(** The update document of [recordHit]. *)
Definition hit (logLimit : Z) (entry : Entry.t) (hook : Hook.t value)
  : Hook.t value :=
  Hook.mk (Hook.id hook) (Hook.slug hook) (Hook.description hook)
    (Hook.metadata hook) (Hook.createdAt hook)
    (Some (Entry.timestamp entry))
    (Hook.hits hook + 1)
    (push_front_slice [entry] logLimit (Hook.logs hook)).

Definition getHook (slug : string) (w : world)
  : outcome (option (Hook.t value)) :=
  Return (sanitizeHook (findOne slug (collection w))) w.

(** [createHook]: the unique index on [slug] makes [insertOne] fail with
    code 11000 when the slug is taken; otherwise it stores the record and
    gives it an [_id], and [sanitizeHook(hook)] is returned. *)
Definition createHook (slug description : string) (metadata : value)
    (now : timestamp) (w : world) : outcome (Hook.t value) :=
  match generateId attempts 10 (random w) with
  | None => Hang
  | Some (id, src) =>
      let hook := Hook.fresh id slug description metadata now in
      let w := with_random src w in
      match findOne slug (collection w) with
      | Some _ => Throw (conflict slug) w
      | None =>
          let d := {| oid := N.of_nat (length (collection w)); fields := hook |} in
          Return (sanitized d) (with_collection (collection w ++ [d]) w)
      end
  end.

(** [deleteHook]: [deleteOne] removes the first match. *)
Fixpoint deleteOne (slug : string) (c : list doc) : nat * list doc :=
  match c with
  | [] => (0, [])
  | d :: c' =>
      if has_slug slug d then (1, c')
      else let '(n, c'') := deleteOne slug c' in (n, d :: c'')
  end.

Definition deleteHook (slug : string) (w : world) : outcome bool :=
  let '(deletedCount, c) := deleteOne slug (collection w) in
  Return (0 <? deletedCount)%nat (with_collection c w).

Definition recordHit (slug : string) (entry : Entry.t) (w : world)
  : outcome Entry.t :=
  let '(r, c) := findOneAndUpdate slug (hit (logLimit w) entry) (collection w) in
  let w := with_collection c w in
  match extractValue (respond w r) with
  | None => Throw (unknown slug) w
  | Some _ => Return entry w
  end.

Definition clearLogs (slug : string) (w : world) : outcome (Hook.t value) :=
  let '(r, c) := findOneAndUpdate slug Hook.clear (collection w) in
  let w := with_collection c w in
  match extractValue (respond w r) with
  | None => Throw (unknown slug) w
  | Some d => Return (sanitized d) w
  end.

Fixpoint recordHits (slug : string) (es : list Entry.t) (w : world)
  : option world :=
  match es with
  | [] => Some w
  | e :: es' =>
      match recordHit slug e w with
      | Return _ w' => recordHits slug es' w'
      | _ => None
      end
  end.

End Mongo.

(** ** Object identity

    The same operations with the objects they create and hand out: a hook
    record and its metadata are objects on a heap, and
    [this.state.hooks] maps a slug to a reference.  The heap has a cell
    for each object that an operation hands out a reference to; the array
    [logs] and its entries are reached through their record only and are
    part of the content of its cell, so that a write to them is a write
    to that cell.  Fewer cells make for less sharing: two references
    that are equal here are references to one object in the program.
    Persistence is left out: it only reads the registry, to serialize
    it. *)

Module Refs.

Definition loc : Type := positive.

Record world := {
  records : gmap loc (Hook.t loc);   (* hook objects *)
  metadatas : gmap loc value;        (* metadata objects, by content *)
  hooks : object loc;                (* [this.state.hooks] *)
  logLimit : number;
  random : entropy;
}.

Inductive outcome (A : Type) :=
| Return (a : A) (w : world)
| Throw (e : exn) (w : world)
| Builtin      (* as in the store above: an inherited member was taken *)
| Hang         (* [generateId] used up its attempts *)
| Dangling.    (* a reference to no object, which no program produces *)
Arguments Return {A} a w.
Arguments Throw {A} e w.
Arguments Builtin {A}.
Arguments Hang {A}.
Arguments Dangling {A}.

Definition with_records (rs : gmap loc (Hook.t loc)) (w : world) : world :=
  {| records := rs; metadatas := metadatas w; hooks := hooks w;
     logLimit := logLimit w; random := random w |}.

Definition with_metadatas (ms : gmap loc value) (w : world) : world :=
  {| records := records w; metadatas := ms; hooks := hooks w;
     logLimit := logLimit w; random := random w |}.

Definition with_hooks (t : object loc) (w : world) : world :=
  {| records := records w; metadatas := metadatas w; hooks := t;
     logLimit := logLimit w; random := random w |}.

Definition with_random (src : entropy) (w : world) : world :=
  {| records := records w; metadatas := metadatas w; hooks := hooks w;
     logLimit := logLimit w; random := src |}.

(** The record [hook] with [m] for its metadata. *)
Definition rebind {M N} (m : N) (hook : Hook.t M) : Hook.t N :=
  Hook.mk (Hook.id hook) (Hook.slug hook) (Hook.description hook) m
    (Hook.createdAt hook) (Hook.lastHit hook) (Hook.hits hook)
    (Hook.logs hook).

(** The record behind a reference, metadata included. *)
Definition deref (w : world) (l : loc) : option (Hook.t value) :=
  match records w !! l with
  | Some hook =>
      match metadatas w !! Hook.metadata hook with
      | Some m => Some (rebind m hook)
      | None => None
      end
  | None => None
  end.

(** [getHook(slug)]: [JSON.parse(JSON.stringify(hook))] builds a new
    record object and a new metadata object, with the content that
    [JSON.stringify] writes. *)
Definition getHook (slug : string) (w : world) : outcome (option loc) :=
  match get (hooks w) slug with
  | Undefined => Return None w
  | Inherited => Builtin
  | Own l =>
      match records w !! l with
      | None => Dangling
      | Some hook =>
          match metadatas w !! Hook.metadata hook with
          | None => Dangling
          | Some m =>
              let m' := fresh (dom (metadatas w)) in
              let l' := fresh (dom (records w)) in
              Return (Some l')
                (with_records (<[l' := rebind m' hook]> (records w))
                   (with_metadatas (<[m' := stringify m]> (metadatas w)) w))
          end
      end
  end.

(** [createHook({ slug, description, metadata })].  An omitted [metadata]
    defaults to a new empty object, made before the body runs; a passed
    one is stored as it is, by reference. *)
Definition createHook (slug description : string) (metadata : option loc)
    (now : timestamp) (w : world) : outcome loc :=
  let '(m, w) :=
    match metadata with
    | Some m => (m, w)
    | None =>
        let m := fresh (dom (metadatas w)) in
        (m, with_metadatas (<[m := Obj []]> (metadatas w)) w)
    end in
  match get (hooks w) slug with
  | Own _ | Inherited => Throw (conflict slug) w
  | Undefined =>
      match generateId attempts 10 (random w) with
      | None => Hang
      | Some (id, src) =>
          let l := fresh (dom (records w)) in
          let hook := Hook.fresh id slug description m now in
          Return l
            (with_hooks (assign (hooks w) slug l)
               (with_records (<[l := hook]> (records w)) (with_random src w)))
      end
  end.

Definition deleteHook (slug : string) (w : world) : outcome bool :=
  match get (hooks w) slug with
  | Undefined => Return false w
  | Own _ | Inherited => Return true (with_hooks (remove (hooks w) slug) w)
  end.

(** [recordHit] and [clearLogs] assign to the fields of the record object
    in place. *)
Definition recordHit (slug : string) (entry : Entry.t) (w : world)
  : outcome Entry.t :=
  match get (hooks w) slug with
  | Undefined => Throw (unknown slug) w
  | Inherited => Builtin
  | Own l =>
      match records w !! l with
      | None => Dangling
      | Some hook =>
          Return entry
            (with_records
               (<[l := Hook.hit (logLimit w) entry hook]> (records w)) w)
      end
  end.

Definition clearLogs (slug : string) (w : world) : outcome loc :=
  match get (hooks w) slug with
  | Undefined => Throw (unknown slug) w
  | Inherited => Builtin
  | Own l =>
      match records w !! l with
      | None => Dangling
      | Some hook =>
          Return l (with_records (<[l := Hook.clear hook]> (records w)) w)
      end
  end.

(** [listHooks()]: each summary is a new object, whose [metadata] is the
    record's own metadata object. *)
Definition listHooks (w : world) : list (Summary.t loc) :=
  omap (fun l => Summary.of_hook <$> records w !! l) (Object_values (hooks w)).

(** What a caller can do with a reference it holds: assign to the fields
    of the record object, leaving it as [hook], or change the metadata
    object into [m]. *)
Inductive write :=
| SetRecord (l : loc) (hook : Hook.t loc)
| SetMetadata (l : loc) (m : value).

Definition perform (x : write) (w : world) : world :=
  match x with
  | SetRecord l hook => with_records (<[l := hook]> (records w)) w
  | SetMetadata l m => with_metadatas (<[l := m]> (metadatas w)) w
  end.

(** A write to the record object [l] or to the metadata object [m]. *)
Definition within (l m : loc) (x : write) : Prop :=
  match x with
  | SetRecord l' _ => l' = l
  | SetMetadata m' _ => m' = m
  end.

(** What a later read of [slug] observes. *)
Definition view (w : world) (slug : string) : option (Hook.t value) :=
  match own (hooks w) slug with
  | Some l => deref w l
  | None => None
  end.

(** Every registered reference leads to a record, and every record's
    metadata reference to a metadata object. *)
Definition sound (w : world) (l : loc) : bool :=
  match records w !! l with
  | Some hook => bool_decide (is_Some (metadatas w !! Hook.metadata hook))
  | None => false
  end.

Definition wf (w : world) : bool :=
  forallb (sound w) (Object_values (hooks w)).

(** [w'] has the registry of [w] and every object of [w], unchanged. *)
Definition extends (w w' : world) : Prop :=
  hooks w' = hooks w /\
  (forall l hook, records w !! l = Some hook -> records w' !! l = Some hook) /\
  (forall l m, metadatas w !! l = Some m -> metadatas w' !! l = Some m).

(** A store with no hook and no object, and the same store after
    [createHook({ slug: "email1" })]. *)
Definition blank : world :=
  {| records := ∅; metadatas := ∅; hooks := []; logLimit := of_nat 50;
     random := zeros |}.

Definition one_hook : world :=
  match createHook "email1" "" None 7%Z blank with
  | Return _ w => w
  | _ => blank
  end.

End Refs.

(** ** Statistics: [getStats] *)

Module Stats.
Record t := mk {
  totalWebhooks : nat;
  totalHits : Z;
  lastPayloadAt : option timestamp;
  lastWebhookCreatedAt : option timestamp;
  hitsLast24h : nat;
}.
End Stats.

(** The variables that [getStats] updates while it walks the hooks.  A
    time is [null] or a count of milliseconds. *)
Module Tally.
Record t := mk {
  totalHits : Z;
  lastPayloadAt : option Z;
  lastCreatedAt : option Z;
  last24hHits : nat;
}.
End Tally.

(** [!x] for a time [x]: [null] and zero are falsy. *)
Definition unset (x : option Z) : bool :=
  match x with
  | None => true
  | Some t => (t =? 0)%Z
  end.

(** [if (!last || ts > last) { last = ts; }] *)
Definition latest (last : option Z) (ts : Z) : option Z :=
  if unset last || (default 0%Z last <? ts)%Z then Some ts else last.

(** The body of the inner [forEach], for one log entry. *)
Definition visit_log (cutoff : Z) (acc : Tally.t) (log : Entry.t) : Tally.t :=
  let ts := Entry.timestamp log in
  Tally.mk (Tally.totalHits acc)
    (latest (Tally.lastPayloadAt acc) ts)
    (Tally.lastCreatedAt acc)
    (if (cutoff <=? ts)%Z then S (Tally.last24hHits acc)
     else Tally.last24hHits acc).

(** The body of the outer [forEach], for one hook.  [hook.hits || 0] is
    [hook.hits], and [hook.createdAt || 0] is [hook.createdAt]: a
    timestamp is a text that is not empty. *)
Definition visit_hook {M} (cutoff : Z) (acc : Tally.t) (hook : Hook.t M)
  : Tally.t :=
  let acc :=
    Tally.mk (Tally.totalHits acc + Hook.hits hook)
      (Tally.lastPayloadAt acc)
      (latest (Tally.lastCreatedAt acc) (Hook.createdAt hook))
      (Tally.last24hHits acc) in
  foldl (visit_log cutoff) acc (Hook.logs hook).

(** [x ? new Date(x).toISOString() : null] *)
Definition tell (x : option Z) : option timestamp :=
  if unset x then None else x.

(** The body of [getStats] over the hooks it walks, at the time [now]
    that [Date.now()] gives. *)
Definition statistics {M} (now : timestamp) (hooks : list (Hook.t M))
  : Stats.t :=
  let cutoff := (now - 24 * 60 * 60 * 1000)%Z in
  let acc := foldl (visit_hook cutoff) (Tally.mk 0 None None 0) hooks in
  Stats.mk (length hooks) (Tally.totalHits acc)
    (tell (Tally.lastPayloadAt acc)) (tell (Tally.lastCreatedAt acc))
    (Tally.last24hHits acc).

Definition getStats (now : timestamp) (w : world) : Stats.t :=
  statistics now (Object_values (hooks w)).

(** The keys of an object are distinct. *)
Definition distinct_keys {V} (o : object V) : Prop := NoDup (map fst o).

(** Every record is registered under its own [slug]. *)
Definition keyed (r : registry) : Prop :=
  Forall (fun kv => Hook.slug (snd kv) = fst kv) r.

(** The slug a call is about. *)
Definition target (c : call) : string :=
  match c with
  | CreateHook slug _ _ _ | DeleteHook slug | RecordHit slug _
  | ClearLogs slug => slug
  end.

(** An event that is no call about [slug]: a call about another slug, or
    the progress of a flush. *)
Definition quiet (slug : string) (e : event) : bool :=
  match e with
  | Call c => negb (String.eqb (target c) slug)
  | _ => true
  end.

(** Whether a feed item is within the last 24 hours at [now]. *)
Definition within_24h (now : timestamp) (e : Recent.t) : bool :=
  (now - 24 * 60 * 60 * 1000 <=? Recent.timestamp e)%Z.

(** The sum of the [hits] of the records. *)
Definition sum_hits {M} (hs : list (Hook.t M)) : Z :=
  foldr (fun h n => (Hook.hits h + n)%Z) 0%Z hs.

(** The feed items of a list of records, as [entries] collects them. *)
Definition items {M} (hs : list (Hook.t M)) : list Recent.t :=
  flat_map (fun hook => map (Recent.of_log (Hook.slug hook)) (Hook.logs hook))
    hs.

(** The [fs.writeFile] calls that complete in a run of events. *)
Definition writes (es : list event) : nat :=
  length (List.filter
            (fun e => match e with WriteDone _ _ => true | _ => false end) es).

(** The writes still to come before the store is idle, when no call
    arrives: one for a flush that has not written yet, and one for the
    flush that [pendingFlush] asks for. *)
Definition writes_due (w : world) : nat :=
  (if pendingFlush w then 1 else 0) +
  match flushes w with
  | AwaitMkdir :: _ | AwaitWrite _ :: _ => 1
  | _ => 0
  end.

(** A value that [JSON.stringify] writes in full: no number that is not
    finite, and no array with named properties. *)
Fixpoint plain (v : value) : bool :=
  match v with
  | Num (Fin _) => true
  | Num _ => false
  | Arr items props =>
      forallb plain items && match props with [] => true | _ => false end
  | Obj fields => forallb (fun kv => plain (snd kv)) fields
  | _ => true
  end.

(** ** The factory: [createWebhookStore] *)

Module Factory.

(** The options object; [None] is a member left out. *)
Record options := {
  mongoUri : option string;
  mongoDbName : option string;
  mongoCollection : option string;
  filePath : option string;
  logLimit : option number;
}.

(** The store that is constructed, with the members its constructor
    sets from the options; the options of the database client are left
    out. *)
Inductive store :=
| File (filePath : string) (logLimit : number)
| Mongo (mongoUri mongoDbName mongoCollection : string) (logLimit : number).

(** Whether a text option is truthy: given and not empty. *)
Definition given (s : option string) : bool :=
  match s with
  | Some s => negb (String.eqb s "")
  | None => false
  end.

(** [s || d] *)
Definition or_text (s : option string) (d : string) : string :=
  if given s then default d s else d.

(** The constructors; [inl] is the message of the [Error] thrown. *)
Definition MongoWebhookStore (o : options) : string + store :=
  if negb (given (mongoUri o))
  then inl "A MongoDB connection string is required when mongoUri is set."
  else inr (Mongo (default "" (mongoUri o))
              (or_text (mongoDbName o) "webhook-relay")
              (or_text (mongoCollection o) "hooks")
              (default (of_nat 50) (logLimit o))).

Definition FileWebhookStore (filePath : string) (logLimit : option number)
  : store :=
  File filePath (default (of_nat 50) logLimit).

Definition createWebhookStore (o : options) : string + store :=
  if given (mongoUri o) then MongoWebhookStore o
  else if negb (given (filePath o))
  then inl "A filePath must be provided when mongoUri is not set."
  else inr (FileWebhookStore (default "" (filePath o)) (logLimit o)).

End Factory.

(** ** The HTTP front end

    [src/server.js]: the checks a slug goes through before it reaches the
    store, and the handlers that call the store.  A text is a string of
    code units below 256. *)

Module Server.

Definition RESERVED_PATHS : list string :=
  ["webhooks"; "hooks"; "health"; "favicon.ico"; "meta"; "recent"].

Definition MAX_SLUG_LENGTH : nat := 64.
Definition MIN_SLUG_LENGTH : nat := 2.

(** [RESERVED_PATHS.has(slug)] *)
Definition reserved (slug : string) : bool :=
  existsb (String.eqb slug) RESERVED_PATHS.

Definition between (lo hi : N) (c : ascii) : bool :=
  ((lo <=? N_of_ascii c) && (N_of_ascii c <=? hi))%N.

Definition is_dash (c : ascii) : bool := Ascii.eqb c "-".

(** White space and line terminators, which [trim] removes. *)
Definition is_space (c : ascii) : bool :=
  between 9 13 c || between 32 32 c || between 160 160 c.

(** The lower-case form of a code unit: the letters [A] to [Z], and the
    accented capitals from [U+00C0] to [U+00DE] but for the sign
    [U+00D7], lie 32 below their lower-case forms. *)
Definition lower (c : ascii) : ascii :=
  if between 65 90 c || (between 192 222 c && negb (between 215 215 c))
  then ascii_of_N (N_of_ascii c + 32)
  else c.

Fixpoint toLowerCase (s : string) : string :=
  match s with
  | EmptyString => EmptyString
  | String c s' => String (lower c) (toLowerCase s')
  end.

Fixpoint trimStart (s : string) : string :=
  match s with
  | EmptyString => EmptyString
  | String c s' => if is_space c then trimStart s' else s
  end.

Fixpoint trimEnd (s : string) : string :=
  match s with
  | EmptyString => EmptyString
  | String c s' =>
      match trimEnd s' with
      | EmptyString => if is_space c then EmptyString else String c EmptyString
      | t => String c t
      end
  end.

Definition trim (s : string) : string := trimEnd (trimStart s).

(** The class [[a-z0-9@._-]]. *)
Definition slug_char (c : ascii) : bool :=
  between 97 122 c || between 48 57 c || Ascii.eqb c "@" || Ascii.eqb c "."
  || Ascii.eqb c "_" || is_dash c.

(** The same class under the flag [i], which adds the capitals. *)
Definition slug_char_i (c : ascii) : bool := slug_char c || between 65 90 c.

(** [.replace(/[^a-z0-9@._-]+/gi, '-')]: every run of other characters
    becomes one dash; [run] tells whether the character before was one
    of them. *)
Fixpoint dash_others (run : bool) (s : string) : string :=
  match s with
  | EmptyString => EmptyString
  | String c s' =>
      if slug_char_i c then String c (dash_others false s')
      else if run then dash_others true s'
      else String "-" (dash_others true s')
  end.

(** [.replace(/-+/g, '-')]: every run of dashes becomes one dash. *)
Fixpoint squeeze (run : bool) (s : string) : string :=
  match s with
  | EmptyString => EmptyString
  | String c s' =>
      if is_dash c
      then if run then squeeze true s' else String c (squeeze true s')
      else String c (squeeze false s')
  end.

(** [.replace(/^-|-$/g, '')]: a dash at the very start goes, and so does
    a dash at the very end. *)
Definition drop_first_dash (s : string) : string :=
  match s with
  | String c s' => if is_dash c then s' else s
  | EmptyString => EmptyString
  end.

Fixpoint drop_last_dash (s : string) : string :=
  match s with
  | EmptyString => EmptyString
  | String c s' =>
      match s' with
      | EmptyString => if is_dash c then EmptyString else s
      | String _ _ => String c (drop_last_dash s')
      end
  end.

(** [normaliseSlug(value)] for a [value] that is a text; the empty text
    is falsy. *)
Definition normaliseSlug (value : string) : string :=
  if String.eqb value "" then ""
  else
    drop_last_dash
      (drop_first_dash
         (squeeze false (dash_others false (toLowerCase (trim value))))).

(** The characters of a text. *)
Abbreviation chars := list_ascii_of_string.

(** [/^[a-z0-9@._-]+$/.test(slug)] *)
Definition valid (slug : string) : bool :=
  negb (String.eqb slug "") && forallb slug_char (chars slug).

(** [validateSlug(slug)]: the error it throws, if any. *)
Definition validateSlug (slug : string) : option exn :=
  if String.eqb slug "" then Some (StatusError 400 "A slug is required.")
  else if (String.length slug <? MIN_SLUG_LENGTH)%nat
          || (MAX_SLUG_LENGTH <? String.length slug)%nat
  then Some (StatusError 400 "Slug must be between 2 and 64 characters.")
  else if negb (valid slug)
  then Some (StatusError 400
               "Slug may only contain letters, numbers, @, ., _, and - characters.")
  else None.

Definition guardReservedSlug (slug : string) : option exn :=
  if reserved slug
  then Some (StatusError 400
               ("The slug " ++ quote ++ slug ++ quote ++ " is reserved."))
  else None.

(** [ensureMetadata(metadata)] for a member of a JSON body. *)
Definition ensureMetadata (metadata : value) : option exn :=
  match metadata with
  | Null | Obj _ => None
  | _ => Some (StatusError 400 "Metadata must be an object.")
  end.

(** How a handler ends; [w] is the store as it leaves it. *)
Inductive answer (A : Type) :=
| Json (status : Z) (body : A) (w : world)
    (* [res.status(status).json(body)] *)
| Next (w : world)
    (* [next()]: the request goes on to the later routes *)
| Fail (e : exn) (w : world)
    (* [next(err)]: the error handler answers *)
| Lost.
    (* the store took a built-in object of the runtime for a record, as it
       does for a slug that names a member of [Object.prototype], or did
       not return: what the handler then answers, an error with status
       500 or an answer made from that object, is not modelled, and
       neither is the store afterwards *)
Arguments Json {A} status body w.
Arguments Next {A} w.
Arguments Fail {A} e w.
Arguments Lost {A}.

(** The status the error handler answers with: [err.statusCode || 500]. *)
Definition status_of (e : exn) : Z :=
  match e with
  | StatusError statusCode _ => if (statusCode =? 0)%Z then 500 else statusCode
  | _ => 500
  end.

(** [await] on a call of the store that is the last one a handler makes:
    the answer is made of what the call returned and of the handler's own
    variables, and is the same whatever the event loop does before the
    handler is taken up again to send it. *)
Definition and_then {A B} (o : outcome A) (k : A -> world -> answer B)
  : answer B :=
  match o with
  | Return a w => k a w
  | Throw e w => Fail e w
  | Builtin | Hang => Lost
  end.

(** *** [GET /webhooks/recent]; [limit] is [Number(req.query.limit)] *)
Definition getRecent (limit : number) (w : world) : list Recent.t :=
  let limit :=
    Math_max (of_nat 1) (Math_min (or_else limit (of_nat 20)) (of_nat 100)) in
  listRecentEntries (Passed limit) w.

(** *** Handlers and the event loop

    A handler runs without interruption up to an [await].  It is then
    suspended, other requests are served and flushes go on, and it is
    taken up again in the store as it is by then. *)

(** How a stretch of a handler ends: the request is answered or passed
    on, or the handler is suspended with [k] in its local variables. *)
Inductive stretch (A K : Type) :=
| Over (a : answer A)
| Await (k : K) (w : world).
Arguments Over {A K} a.
Arguments Await {A K} k w.

(** [await] on a call of the store after which the handler has more to
    do: it is suspended with what the call returned. *)
Definition await {A B K} (o : outcome A) (k : A -> K) : stretch B K :=
  match o with
  | Return a w => Await (k a) w
  | Throw e w => Over (Fail e w)
  | Builtin | Hang => Over Lost
  end.

(** *** [POST /webhooks]

    The members [slug], [description] and [metadata] of the JSON body,
    each [None] when the body has no such member, and the clock as
    [createHook] reads it.  The [endpoint] member of the answer, made
    from the request's host name, is left out. *)
Record post := {
  slug : option value;
  description : option value;
  metadata : option value;
  created_on : timestamp;
}.

(** [value.toString()] for a member of a JSON body.  A text is its own
    conversion.  For the other values [toString] stands for the
    conversions of numbers, booleans, arrays and objects, with [None]
    when the call throws, as it does on an object that has a member
    [toString] of its own, which is no function. *)
Definition text_of (toString : value -> option string) (v : value)
  : option string :=
  match v with
  | Str s => Some s
  | _ => toString v
  end.

(** [normaliseSlug(value)] for a member of a JSON body: the empty text
    for a missing or falsy one. *)
Definition normaliseSlug_of (toString : value -> option string)
    (value : option value) : exn + string :=
  match value with
  | None => inr ""
  | Some v =>
      if truthy v then
        match text_of toString v with
        | Some s => inr (normaliseSlug s)
        | None => inl TypeError
        end
      else inr ""
  end.

(** [description?.trim() || ''], where [description] defaults to the
    empty text when the body has no such member: [null] gives
    [undefined], and a value that is neither [null] nor a text has no
    function [trim]. *)
Definition trimmed (description : option value) : exn + string :=
  match description with
  | None | Some Null => inr ""
  | Some (Str s) => inr (trim s)
  | Some _ => inl TypeError
  end.

Record created := { hook : Hook.t value; alreadyExisted : bool }.

(** The handler up to [await store.getHook(normalisedSlug)]; it is
    suspended with [normalisedSlug] and with what [getHook] gave. *)
Definition postWebhook (toString : value -> option string) (p : post)
    (w : world) : stretch created (string * option (Hook.t value)) :=
  match normaliseSlug_of toString (slug p) with
  | inl e => Over (Fail e w)
  | inr normalisedSlug =>
      match validateSlug normalisedSlug with
      | Some e => Over (Fail e w)
      | None =>
          match ensureMetadata (default (Obj []) (metadata p)) with
          | Some e => Over (Fail e w)
          | None =>
              match guardReservedSlug normalisedSlug with
              | Some e => Over (Fail e w)
              | None =>
                  await (getHook normalisedSlug w)
                    (fun existing => (normalisedSlug, existing))
              end
          end
      end
  end.

(** From there to [await store.createHook(...)]. *)
Definition postWebhook_existing (p : post) (normalisedSlug : string)
    (existing : option (Hook.t value)) (w : world) : stretch created unit :=
  match existing with
  | Some hook => Over (Json 200 {| hook := hook; alreadyExisted := true |} w)
  | None =>
      match trimmed (description p) with
      | inl e => Over (Fail e w)
      | inr description =>
          await
            (createHook normalisedSlug description
               (default (Obj []) (metadata p)) (created_on p) w)
            (fun _ => tt)
      end
  end.

(** From there to the end.  The promise of [createHook] is fulfilled
    when the flush is over, with the record object that [createHook]
    put in the registry; [live] is what that object holds by then. *)
Definition postWebhook_created (live : Hook.t value) (w : world)
  : answer created :=
  Json 201 {| hook := live; alreadyExisted := false |} w.

(** *** The handler of [/:slug] and [/hooks/:slug] *)

(** The built-in functions the handler relies on. *)
Record builtins := {
  JSON_parse : string -> option value;   (* [None]: it throws *)
  JSON_stringify : value -> string;      (* with an indent of 2 *)
  byteLength : string -> nat;            (* [Buffer.byteLength(_, 'utf8')] *)
  toString36 : Z -> string;              (* [Number.prototype.toString(36)] *)
}.

Record payload := {
  body : string;
  bodyPreview : string;
  formatted : option string;
  isJson : bool;
  byteSize : nat;
}.

(** [summarisePayload(rawBody)] for a body read as a text. *)
Definition summarisePayload (rt : builtins) (rawBody : string) : payload :=
  let parsing : bool * option string :=
    if String.eqb rawBody "" then (false, None)
    else
      match JSON_parse rt rawBody with
      | Some parsed => (true, Some (JSON_stringify rt parsed))
      | None => (false, None)
      end in
  let isJson := fst parsing in
  let formatted := snd parsing in
  (* [formatted || body || ''] *)
  let shown :=
    match formatted with
    | Some f => if String.eqb f "" then rawBody else f
    | None => rawBody
    end in
  {| body := rawBody;
     bodyPreview := substring 0 600 shown;
     formatted := formatted;
     isJson := isJson;
     byteSize := byteLength rt rawBody |}.

(** How [safeReadBody] ends: with the text of the body, or with the
    error [getRawBody] throws, which carries its own [statusCode] (413
    for a body over the limit). *)
Inductive receiving :=
| Readable (rawBody : string)
| Unreadable (e : exn).

Record request := {
  param : string;          (* [req.params.slug] *)
  method : string;         (* [req.method], a token of ASCII letters *)
  incoming : receiving;
  created_at : timestamp;  (* the clock when [createHook] reads it *)
  id_at : Z;               (* [Date.now()] for the entry's [id] *)
  received_at : timestamp; (* [new Date()] for the entry's [timestamp] *)
}.

Definition upper (c : ascii) : ascii :=
  if between 97 122 c then ascii_of_N (N_of_ascii c - 32) else c.

Fixpoint toUpperCase (s : string) : string :=
  match s with
  | EmptyString => EmptyString
  | String c s' => String (upper c) (toUpperCase s')
  end.

Inductive reply :=
| Refused (error : string)
| Stored (slug reference : string) (receivedAt : timestamp) (size : nat)
    (isJson : bool).

Definition entry_of (rt : builtins) (req : request) (rawBody : string)
  : Entry.t :=
  let p := summarisePayload rt rawBody in
  Entry.mk (toString36 rt (id_at req)) (received_at req) (body p)
    (bodyPreview p) (isJson p) (formatted p) (byteSize p).

(** The handler up to [await store.getHook(slug)]; it is suspended with
    what [getHook] gave for [targetHook]. *)
Definition hookHandler (req : request) (w : world)
  : stretch reply (option (Hook.t value)) :=
  let slug := normaliseSlug (param req) in
  if String.eqb slug "" || reserved slug then Over (Next w)
  else if negb (String.eqb (toUpperCase (method req)) "POST")
  then Over
         (Json 405
            (Refused "Only POST requests are accepted on this webhook endpoint.")
            w)
  else await (getHook slug w) (fun targetHook => targetHook).

(** From there to [await safeReadBody(req)], by way of
    [await store.createHook(...)] when [getHook] gave [null]. *)
Definition hookHandler_target (req : request)
    (targetHook : option (Hook.t value)) (w : world) : stretch reply unit :=
  match targetHook with
  | Some _ => Await tt w
  | None =>
      await
        (createHook (normaliseSlug (param req)) "" (Obj []) (created_at req) w)
        (fun _ => tt)
  end.

(** From there to the end: the answer is made of the entry, which
    [recordHit] leaves as it is. *)
Definition hookHandler_body (rt : builtins) (req : request) (w : world)
  : answer reply :=
  let slug := normaliseSlug (param req) in
  match incoming req with
  | Unreadable e => Fail e w
  | Readable rawBody =>
      let entry := entry_of rt req rawBody in
      and_then (recordHit slug entry w) (fun _ w =>
        Json 200
          (Stored slug (Entry.id entry) (Entry.timestamp entry)
             (Entry.byteSize entry) (Entry.isJson entry))
          w)
  end.

(** *** What [normaliseSlug] gives *)

Fixpoint no_dash_run (s : string) : bool :=
  match s with
  | EmptyString => true
  | String a s' =>
      match s' with
      | EmptyString => true
      | String b _ => negb (is_dash a && is_dash b) && no_dash_run s'
      end
  end.

Definition starts_with_dash (s : string) : bool :=
  match s with
  | String c _ => is_dash c
  | EmptyString => false
  end.

Fixpoint ends_with_dash (s : string) : bool :=
  match s with
  | EmptyString => false
  | String c s' =>
      match s' with
      | EmptyString => is_dash c
      | String _ _ => ends_with_dash s'
      end
  end.

(** Made of the characters of a slug only, with no dash at either end
    and no two dashes in a row. *)
Definition tidy (s : string) : Prop :=
  forallb slug_char (chars s) = true /\
  no_dash_run s = true /\
  starts_with_dash s = false /\
  ends_with_dash s = false.

(** *** The handlers of [GET], [DELETE] and [POST .../reset] on the
    route [/webhooks/:slug]; [param] is [req.params.slug] *)

Definition not_found (slug : string) : string :=
  "Webhook " ++ quote ++ slug ++ quote ++ " not found.".

Inductive shown :=
| Admin (hooks : list (Summary.t value))   (* [{ admin: true, hooks }] *)
| One (hook : Hook.t value)                (* [{ hook }] *)
| Absent (error : string).                 (* [{ error }] *)

(** [ADMIN_ACCESS_SLUG] is the normalised admin token, or the empty text
    when no token is configured.  The answer is made of what [listHooks]
    or [getHook] returned, which no later call changes. *)
Definition getWebhook (ADMIN_ACCESS_SLUG param : string) (w : world)
  : answer shown :=
  let slug := normaliseSlug param in
  if negb (String.eqb ADMIN_ACCESS_SLUG "") && negb (String.eqb slug "")
     && String.eqb slug ADMIN_ACCESS_SLUG
  then Json 200 (Admin (listHooks w)) w
  else
    and_then (getHook slug w) (fun hook w =>
      match hook with
      | None => Json 404 (Absent (not_found slug)) w
      | Some hook => Json 200 (One hook) w
      end).

Inductive removal :=
| Deleted (slug : string)     (* [{ deleted: true, slug }] *)
| Missing (error : string).   (* [{ error }] *)

(** The answer, sent when the flush is over, is made of the slug and of
    what [deleteHook] returned. *)
Definition deleteWebhook (param : string) (w : world) : answer removal :=
  let slug := normaliseSlug param in
  and_then (deleteHook slug w) (fun deleted w =>
    if deleted then Json 200 (Deleted slug) w
    else Json 404 (Missing (not_found slug)) w).

(** The handler up to [await store.clearLogs(slug)], and from there to
    the end: [clearLogs] returns the record object of the registry when
    the flush is over, and [live] is what that object holds by then. *)
Definition resetWebhook (param : string) (w : world)
  : stretch (Hook.t value) unit :=
  await (clearLogs (normaliseSlug param) w) (fun _ => tt).

Definition resetWebhook_done (live : Hook.t value) (w : world)
  : answer (Hook.t value) :=
  Json 200 live w.

(** A slug as the front end registers them. *)
Definition clean (slug : string) : Prop :=
  slug <> "" /\ reserved slug = false /\ tidy slug.

(** Every registered slug is one the front end registers. *)
Definition all_clean (w : world) : Prop :=
  forall k, own (hooks w) k <> None -> clean k.

(** *** Admin access *)

(** [ADMIN_ACCESS_TOKEN] and [ADMIN_ACCESS_SLUG], from the environment
    variable [ADMIN_ACCESS]. *)
Definition ADMIN_ACCESS_TOKEN (ADMIN_ACCESS : option string) : string :=
  trim (default "" ADMIN_ACCESS).

Definition ADMIN_ACCESS_SLUG (ADMIN_ACCESS : option string) : string :=
  let token := ADMIN_ACCESS_TOKEN ADMIN_ACCESS in
  if String.eqb token "" then "" else normaliseSlug token.

(** [a || b] on texts. *)
Definition either (a b : string) : string :=
  if String.eqb a "" then b else a.

(** [enforceAdminAccess]: whether it calls [next()], for the header
    [x-admin-access] and the query parameter [admin] of the request. *)
Definition enforceAdminAccess (ADMIN_ACCESS header query : option string)
  : bool :=
  if String.eqb (ADMIN_ACCESS_TOKEN ADMIN_ACCESS) "" then true
  else
    let token :=
      trim (either (default "" header) (either (default "" query) "")) in
    negb (String.eqb token "")
    && String.eqb token (ADMIN_ACCESS_TOKEN ADMIN_ACCESS).

(** [GET /webhooks] *)
Inductive listing :=
| Items (items : list (Summary.t value))   (* [{ items }] *)
| Refusal (error : string).                (* [{ error }] *)

Definition getWebhooks (ADMIN_ACCESS header query : option string)
    (w : world) : answer listing :=
  if enforceAdminAccess ADMIN_ACCESS header query
  then Json 200 (Items (listHooks w)) w
  else Json 401 (Refusal "Admin access token required.") w.

(** *** The [GET] routes of the management router

    A [GET] request for [/webhooks/] followed by [segment], a text
    without [/], goes to the first route that matches, in the order the
    routes are registered: [/] for an empty segment, then [/recent] and
    [/stats], which match whatever the case of the letters, then
    [/:slug], whose parameter is the segment decoded. *)
Record get_request := {
  segment : string;
  header : option string;     (* [x-admin-access] *)
  query : option string;      (* [req.query.admin], given once at most *)
  limit : number;             (* [Number(req.query.limit)] *)
  asked_at : timestamp;       (* the clock when [getStats] reads it *)
}.

Inductive got :=
| Listing (l : listing)                 (* from [/] *)
| RecentItems (items : list Recent.t)   (* from [/recent]: [{ items }] *)
| StatsOf (stats : Stats.t)             (* from [/stats]: [{ stats }] *)
| Shown (s : shown).                    (* from [/:slug] *)

Definition answer_map {A B} (f : A -> B) (a : answer A) : answer B :=
  match a with
  | Json status body w => Json status (f body) w
  | Next w => Next w
  | Fail e w => Fail e w
  | Lost => Lost
  end.

(** [decodeURIComponent] is the built-in function, [None] when it
    throws; the router then passes on an error with status 400. *)
Definition managementGet (decodeURIComponent : string -> option string)
    (ADMIN_ACCESS : option string) (r : get_request) (w : world)
  : answer got :=
  if String.eqb (segment r) ""
  then answer_map Listing (getWebhooks ADMIN_ACCESS (header r) (query r) w)
  else if String.eqb (toLowerCase (segment r)) "recent"
  then Json 200 (RecentItems (getRecent (limit r) w)) w
  else if String.eqb (toLowerCase (segment r)) "stats"
  then Json 200 (StatsOf (getStats (asked_at r) w)) w
  else
    match decodeURIComponent (segment r) with
    | None =>
        Fail (StatusError 400
                ("Failed to decode param '" ++ segment r ++ "'")) w
    | Some param =>
        answer_map Shown (getWebhook (ADMIN_ACCESS_SLUG ADMIN_ACCESS) param w)
    end.

(** *** Requests in flight *)

(** A suspended handler, with its local variables. *)
Inductive suspended :=
| PostLookup (p : post) (normalisedSlug : string)
    (existing : option (Hook.t value))
    (* [POST /webhooks] at [await store.getHook(...)] *)
| PostFlush
    (* [POST /webhooks] at [await store.createHook(...)] *)
| HookLookup (rt : builtins) (req : request)
    (targetHook : option (Hook.t value))
    (* the delivery handler at [await store.getHook(slug)] *)
| HookRead (rt : builtins) (req : request)
    (* the delivery handler at [await safeReadBody(req)] *)
| ResetFlush.
    (* [POST /webhooks/:slug/reset] at [await store.clearLogs(slug)] *)

(** A request that reaches its handler. *)
Inductive arrival :=
| PostWebhook (toString : value -> option string) (p : post)
| GetManagement (decodeURIComponent : string -> option string)
    (r : get_request)
| DeleteWebhook (param : string)
| ResetWebhook (param : string)
| Deliver (rt : builtins) (req : request).

(** What the event loop does next: it hands a request to its handler,
    which runs to its first [await]; it takes up the suspended handler
    at position [i]; or it completes a disk operation of a flush or runs
    the [finally] handler of one. *)
Inductive action :=
| Arrive (r : arrival)
| Resume (i : nat)
| Disk (e : event).

(** The store and the handlers that are suspended. *)
Record server := { store : world; waiting : list suspended }.

(** The store a handler leaves behind. *)
Definition rest {A} (a : answer A) : option world :=
  match a with
  | Json _ _ w | Next w | Fail _ w => Some w
  | Lost => None
  end.

(** The handler is over, [others] staying suspended. *)
Definition finish {A} (others : list suspended) (a : answer A)
  : option server :=
  (fun w => {| store := w; waiting := others |}) <$> rest a.

(** The handler is over, or suspended once more. *)
Definition proceed {A K} (others : list suspended) (k : K -> suspended)
    (s : stretch A K) : option server :=
  match s with
  | Over a => finish others a
  | Await x w => Some {| store := w; waiting := others ++ [k x] |}
  end.

Definition arrive (ADMIN_ACCESS : option string) (r : arrival) (s : server)
  : option server :=
  let w := store s in
  match r with
  | PostWebhook toString p =>
      proceed (waiting s) (fun k => PostLookup p (fst k) (snd k))
        (postWebhook toString p w)
  | GetManagement decodeURIComponent r =>
      finish (waiting s) (managementGet decodeURIComponent ADMIN_ACCESS r w)
  | DeleteWebhook param => finish (waiting s) (deleteWebhook param w)
  | ResetWebhook param =>
      proceed (waiting s) (fun _ => ResetFlush) (resetWebhook param w)
  | Deliver rt req =>
      proceed (waiting s) (fun k => HookLookup rt req k) (hookHandler req w)
  end.

(** The handler [k] goes on, the others staying suspended.  The last
    stretch of [POST /webhooks] and of [reset] only sends the answer. *)
Definition resume (k : suspended) (others : list suspended) (w : world)
  : option server :=
  match k with
  | PostLookup p normalisedSlug existing =>
      proceed others (fun _ => PostFlush)
        (postWebhook_existing p normalisedSlug existing w)
  | HookLookup rt req targetHook =>
      proceed others (fun _ => HookRead rt req)
        (hookHandler_target req targetHook w)
  | HookRead rt req => finish others (hookHandler_body rt req w)
  | PostFlush | ResetFlush => Some {| store := w; waiting := others |}
  end.

Definition act (ADMIN_ACCESS : option string) (a : action) (s : server)
  : option server :=
  match a with
  | Arrive r => arrive ADMIN_ACCESS r s
  | Resume i =>
      match waiting s !! i with
      | Some k => resume k (delete i (waiting s)) (store s)
      | None => None
      end
  | Disk (Call _) => None    (* a call is no disk operation *)
  | Disk e =>
      (fun w => {| store := w; waiting := waiting s |})
        <$> step e (store s)
  end.

Fixpoint serve_all (ADMIN_ACCESS : option string) (actions : list action)
    (s : server) : option server :=
  match actions with
  | [] => Some s
  | a :: actions' =>
      match act ADMIN_ACCESS a s with
      | Some s' => serve_all ADMIN_ACCESS actions' s'
      | None => None
      end
  end.

(** The slug a suspended handler goes on with is one the front end
    registers. *)
Definition clean_suspended (k : suspended) : Prop :=
  match k with
  | PostLookup _ normalisedSlug _ => clean normalisedSlug
  | HookLookup _ req _ | HookRead _ req => clean (normaliseSlug (param req))
  | PostFlush | ResetFlush => True
  end.

End Server.

(** * Properties *)

(** *** Facts about the encoding *)

Lemma digit_in_alphabet n : In (digit n) alphabet.
Proof.
  unfold digit. apply nth_In.
  assert (H : (N.land n 63 < 64)%N).
  { change 63%N with (N.ones 6). rewrite N.land_ones.
    apply N.mod_lt. discriminate. }
  change (length alphabet) with 64%nat. lia.
Qed.

Lemma triples_ind {A} (P : list A -> Prop) :
  P [] -> (forall a, P [a]) -> (forall a b, P [a; b]) ->
  (forall a b c rest, P rest -> P (a :: b :: c :: rest)) ->
  forall l, P l.
Proof.
  intros H0 H1 H2 H3.
  assert (H : forall l, P l /\ (forall a, P (a :: l)) /\
                           (forall a b, P (a :: b :: l))).
  { induction l as [|x l (IH0 & IH1 & IH2)]; [auto|].
    repeat split; auto. }
  intros l. apply H.
Qed.

Lemma base64url_length bs :
  String.length (base64url bs) = (4 * length bs + 2) / 3.
Proof.
  induction bs as [| a | a b | a b c rest IH] using triples_ind;
    try reflexivity.
  cbn [base64url String.length length]. rewrite IH.
  replace (4 * S (S (S (length rest))) + 2)
    with ((4 * length rest + 2) + 4 * 3) by lia.
  rewrite Nat.div_add by lia. lia.
Qed.

Lemma base64url_well_shaped bs : well_shaped (base64url bs).
Proof.
  unfold well_shaped.
  induction bs as [| a | a b | a b c rest IH] using triples_ind;
    cbn [base64url list_ascii_of_string];
    repeat (apply Forall_cons; split; [apply digit_in_alphabet|]);
    auto.
Qed.

Lemma str_slice0_length s n :
  String.length (str_slice0 s n) = Nat.min n (String.length s).
Proof.
  unfold str_slice0. revert n.
  induction s as [|c s IH]; intros [|n]; cbn; auto.
Qed.

Lemma str_slice0_well_shaped s n :
  well_shaped s -> well_shaped (str_slice0 s n).
Proof.
  unfold well_shaped, str_slice0. revert n.
  induction s as [|c s IH]; intros [|n] H; cbn; auto.
  inversion H; subst. constructor; auto.
Qed.

Lemma generateId_first_attempt attempts len src :
  generateId (S attempts) len src =
    Some (str_slice0 (base64url (fst (randomBytes (len * 2) src))) len,
          snd (randomBytes (len * 2) src)).
Proof.
  cbn [generateId randomBytes fst snd].
  rewrite str_slice0_length, base64url_length, length_map, length_seq.
  assert (H : len <= (4 * (len * 2) + 2) / 3).
  { apply Nat.div_le_lower_bound; lia. }
  rewrite Nat.min_l by exact H.
  now rewrite Nat.leb_refl.
Qed.

(** *** Facts about objects used as maps *)

Section object_facts.
Context {V : Type}.
Implicit Types (o : object V) (k : string) (v : V).

Lemma own_replace_eq o k v :
  own (replace o k v) k = match own o k with Some _ => Some v | None => None end.
Proof.
  induction o as [|[k' v'] o IH]; cbn; [done|].
  destruct (String.eqb k' k) eqn:E; cbn; rewrite E; done.
Qed.

Lemma own_replace_ne o k k' v :
  k <> k' -> own (replace o k v) k' = own o k'.
Proof.
  intros Hne. induction o as [|[k0 v0] o IH]; cbn; [done|].
  destruct (String.eqb k0 k) eqn:E; cbn.
  - apply String.eqb_eq in E as ->.
    apply String.eqb_neq in Hne. by rewrite Hne.
  - by rewrite IH.
Qed.

Lemma own_add_key_eq o k v :
  own o k = None -> own (add_key o k v) k = Some v.
Proof.
  induction o as [|[k' v'] o IH]; cbn.
  - by rewrite String.eqb_refl.
  - destruct (String.eqb k' k) eqn:E; [done|]. intros H.
    destruct (goes_before k k'); cbn.
    + by rewrite String.eqb_refl.
    + rewrite E. auto.
Qed.

Lemma own_add_key_ne o k k' v :
  k <> k' -> own (add_key o k v) k' = own o k'.
Proof.
  intros Hne. apply String.eqb_neq in Hne.
  induction o as [|[k0 v0] o IH]; cbn.
  - by rewrite Hne.
  - destruct (goes_before k k0); cbn.
    + by rewrite Hne.
    + by rewrite IH.
Qed.

Lemma own_assign_eq o k v : own (assign o k v) k = Some v.
Proof.
  unfold assign. destruct (own o k) eqn:E.
  - by rewrite own_replace_eq, E.
  - by apply own_add_key_eq.
Qed.

Lemma own_assign_ne o k k' v : k <> k' -> own (assign o k v) k' = own o k'.
Proof.
  intros Hne. unfold assign. destruct (own o k).
  - by apply own_replace_ne.
  - by apply own_add_key_ne.
Qed.

Lemma own_remove_eq o k : own (remove o k) k = None.
Proof.
  unfold remove. induction o as [|[k' v'] o IH]; cbn; [done|].
  destruct (String.eqb k' k) eqn:E; cbn; [done|]. by rewrite E.
Qed.

Lemma own_remove_ne o k k' : k <> k' -> own (remove o k) k' = own o k'.
Proof.
  intros Hne. unfold remove.
  induction o as [|[k0 v0] o IH]; cbn; [done|].
  destruct (String.eqb k0 k) eqn:E; cbn.
  - apply String.eqb_eq in E as ->.
    apply String.eqb_neq in Hne. by rewrite Hne.
  - by rewrite IH.
Qed.

Lemma remove_absent o k : own o k = None -> remove o k = o.
Proof.
  unfold remove. induction o as [|[k' v'] o IH]; cbn; [done|].
  destruct (String.eqb k' k) eqn:E; [done|]. cbn. intros H. by rewrite IH.
Qed.

Lemma get_own o k v : get o k = Own v <-> own o k = Some v.
Proof.
  unfold get. destruct (own o k); [|destruct (inherited k)]; split;
    intros; simplify_eq; done.
Qed.

Lemma get_undefined o k :
  get o k = Undefined <-> own o k = None /\ inherited k = false.
Proof.
  unfold get. destruct (own o k); [|destruct (inherited k)]; split;
    intros; destruct_and?; simplify_eq; done.
Qed.

Lemma get_inherited o k :
  get o k = Inherited <-> own o k = None /\ inherited k = true.
Proof.
  unfold get. destruct (own o k); [|destruct (inherited k)]; split;
    intros; destruct_and?; simplify_eq; done.
Qed.
End object_facts.

(** *** Facts about numbers that are lengths *)

Lemma truncate_of_nat (n : nat) : truncate (inject_Z (Z.of_nat n)) = Z.of_nat n.
Proof.
  unfold truncate.
  assert (H : Qle_bool 0 (inject_Z (Z.of_nat n)) = true).
  { apply Qle_bool_iff. change 0%Q with (inject_Z 0).
    rewrite <- Zle_Qle. lia. }
  rewrite H. apply Qfloor_Z.
Qed.

Lemma slice0_of_nat {A} (a : list A) (n : nat) : slice0 a (of_nat n) = take n a.
Proof.
  unfold slice0, of_nat. rewrite truncate_of_nat.
  destruct (Z.ltb_spec (Z.of_nat n) 0); [lia|].
  by rewrite Nat2Z.id.
Qed.

Lemma length_gt_of_nat (len n : nat) :
  length_gt len (of_nat n) = negb (len <=? n)%nat.
Proof.
  unfold length_gt, of_nat. f_equal.
  apply eq_true_iff_eq. rewrite Qle_bool_iff, <- Zle_Qle, Nat.leb_le. lia.
Qed.

(** *** Facts about the record transformers *)

Lemma take_app_take {A} (a b : list A) (n : nat) :
  take n (a ++ take n b) = take n (a ++ b).
Proof.
  destruct (Nat.le_gt_cases n (length a)) as [H|H].
  - by rewrite !take_app_le.
  - rewrite !take_app_ge by lia. rewrite take_take. do 2 f_equal. lia.
Qed.

Section hook_facts.
Context {M : Type}.
Implicit Types (hook : Hook.t M) (e : Entry.t) (L : nat).

Lemma hit_logs L e hook :
  Hook.logs (Hook.hit (of_nat L) e hook) = take L (e :: Hook.logs hook).
Proof.
  unfold Hook.hit. cbn [Hook.logs].
  rewrite length_gt_of_nat, slice0_of_nat.
  destruct (Nat.leb_spec (length (e :: Hook.logs hook)) L); cbn [negb];
    [by rewrite take_ge|done].
Qed.

Lemma hit_hits (x : number) e hook :
  Hook.hits (Hook.hit x e hook) = (Hook.hits hook + 1)%Z.
Proof. done. Qed.

Lemma hit_all_logs L e es hook :
  Hook.logs (hit_all (of_nat L) (e :: es) hook)
  = take L (reverse (e :: es) ++ Hook.logs hook).
Proof.
  unfold hit_all. cbn [foldl]. revert e hook.
  induction es as [|e' es IH]; intros e hook; cbn [foldl].
  - by rewrite hit_logs.
  - rewrite IH, hit_logs, take_app_take.
    rewrite (reverse_cons (e' :: es)), <- app_assoc. done.
Qed.

Lemma hit_all_hits (x : number) es hook :
  Hook.hits (hit_all x es hook) = (Hook.hits hook + Z.of_nat (length es))%Z.
Proof.
  unfold hit_all. revert hook.
  induction es as [|e es IH]; intros hook; cbn [foldl length].
  - lia.
  - rewrite IH, hit_hits. lia.
Qed.

Lemma hit_all_retains L es hook :
  L < length es ->
  Hook.logs (hit_all (of_nat L) es hook) = reverse (drop (length es - L) es).
Proof.
  intros H. destruct es as [|e es]; [cbn in H; lia|].
  rewrite hit_all_logs, take_app_le by (rewrite length_reverse; lia).
  apply take_reverse.
Qed.
End hook_facts.

(** *** Facts about the JSON round trip *)

Lemma value_nested_ind (P : value -> Prop) :
  P Null -> (forall b, P (Bool b)) -> (forall n, P (Num n)) ->
  (forall s, P (Str s)) ->
  (forall items props,
     Forall P items -> Forall (fun kv => P (snd kv)) props ->
     P (Arr items props)) ->
  (forall fields, Forall (fun kv => P (snd kv)) fields -> P (Obj fields)) ->
  forall v, P v.
Proof.
  intros HN HB HNum HS HA HO. fix IH 1.
  intros [|b|n|s|items props|fields];
    [apply HN|apply HB|apply HNum|apply HS| |].
  - apply HA.
    + revert items. fix IHl 1. intros [|x l]; constructor; [apply IH|apply IHl].
    + revert props. fix IHl 1.
      intros [|[k x] l]; constructor; [apply IH|apply IHl].
  - apply HO. revert fields. fix IHl 1.
    intros [|[k x] l]; constructor; [apply IH|apply IHl].
Qed.

Lemma stringify_plain v : plain v = true -> stringify v = v.
Proof.
  induction v as [|b|n|s|items props Hi Hp|fields Hf] using value_nested_ind;
    try done.
  - by destruct n.
  - cbn. intros [Hitems Hprops]%andb_prop. destruct props; [|done].
    f_equal. clear Hp. induction Hi as [|x l Hx Hl IH]; [done|].
    cbn in Hitems. apply andb_prop in Hitems as [H1 H2].
    cbn. by rewrite Hx, IH.
  - cbn. intros Hfields. f_equal.
    induction Hf as [|[k x] l Hx Hl IH]; [done|].
    cbn in Hfields. apply andb_prop in Hfields as [H1 H2].
    cbn in *. by rewrite Hx, IH.
Qed.

Lemma plain_stringify v : plain (stringify v) = true.
Proof.
  induction v as [|b|n|s|items props Hi Hp|fields Hf] using value_nested_ind;
    try done.
  - by destruct n.
  - cbn. rewrite andb_true_r. clear Hp.
    induction Hi as [|x l Hx Hl IH]; [done|]. cbn. by rewrite Hx, IH.
  - cbn. induction Hf as [|[k x] l Hx Hl IH]; [done|]. cbn in *.
    by rewrite Hx, IH.
Qed.

Lemma JSON_copy_plain (hook : Hook.t value) :
  plain (Hook.metadata hook) = true -> JSON_copy hook = hook.
Proof.
  intros Hp. unfold JSON_copy. rewrite stringify_plain by done.
  by destruct hook.
Qed.

(** *** Calls on the store *)

Lemma Return_inj {A} (a a' : A) (w w' : world) :
  Return a w = Return a' w' -> a = a' /\ w = w'.
Proof. intros H. by injection H. Qed.

Lemma hooks_schedulePersist w : hooks (schedulePersist w) = hooks w.
Proof. unfold schedulePersist. by destruct (writePromise w). Qed.

Lemma logLimit_schedulePersist w : logLimit (schedulePersist w) = logLimit w.
Proof. unfold schedulePersist. by destruct (writePromise w). Qed.

Lemma getHook_registered slug hook w :
  get (hooks w) slug = Own hook ->
  getHook slug w = Return (Some (JSON_copy hook)) w.
Proof. unfold getHook. by intros ->. Qed.

Lemma recordHit_registered slug e hook w :
  get (hooks w) slug = Own hook ->
  recordHit slug e w =
    Return e
      (schedulePersist
         (with_hooks (replace (hooks w) slug (Hook.hit (logLimit w) e hook)) w)).
Proof. unfold recordHit. by intros ->. Qed.

(** The identifier [createHook] gives a new record, and the entropy left. *)
Lemma createHook_unregistered slug description metadata now w :
  get (hooks w) slug = Undefined ->
  let id := str_slice0 (base64url (fst (randomBytes 20 (random w)))) 10 in
  let src := snd (randomBytes 20 (random w)) in
  let hook := Hook.fresh id slug description metadata now in
  createHook slug description metadata now w =
    Return hook
      (schedulePersist
         (with_hooks (assign (hooks w) slug hook) (with_random src w))).
Proof.
  intros G. unfold createHook. rewrite G.
  change attempts with (S 2). by rewrite generateId_first_attempt.
Qed.

Lemma createHook_taken slug description metadata now w :
  get (hooks w) slug <> Undefined ->
  createHook slug description metadata now w = Throw (conflict slug) w.
Proof. unfold createHook. by destruct (get (hooks w) slug). Qed.

Lemma get_replace_eq {V} (o : object V) k v v' :
  get o k = Own v -> get (replace o k v') k = Own v'.
Proof. rewrite !get_own, own_replace_eq. by intros ->. Qed.

Lemma run_recordHits slug es w hook :
  get (hooks w) slug = Own hook ->
  exists w',
    run (map (fun e => Call (RecordHit slug e)) es) w = Some w' /\
    get (hooks w') slug = Own (hit_all (logLimit w) es hook) /\
    logLimit w' = logLimit w.
Proof.
  revert w hook. induction es as [|e es IH]; intros w hook Hget.
  - by exists w.
  - cbn [map run step invoke].
    rewrite (recordHit_registered _ _ _ _ Hget). cbn [after].
    set (w1 := schedulePersist _).
    destruct (IH w1 (Hook.hit (logLimit w) e hook)) as (w' & Hrun & Hown & HL).
    { subst w1. rewrite hooks_schedulePersist. cbn [hooks with_hooks].
      by eapply get_replace_eq. }
    exists w'. subst w1.
    rewrite logLimit_schedulePersist in Hown, HL. cbn in Hown, HL. done.
Qed.

(** A call about one slug leaves the record of every other slug as it
    was, registers no other slug and removes none. *)
Lemma call_leaves_the_others c w w1 :
  invoke c w = Some w1 ->
  forall s, s <> target c -> own (hooks w1) s = own (hooks w) s.
Proof.
  intros Hc s Hne.
  destruct c as [slug d m now|slug|slug e|slug]; cbn [invoke target] in *.
  - destruct (get (hooks w) slug) eqn:G.
    1,2: rewrite createHook_taken in Hc by (by rewrite G);
         cbn in Hc; by simplify_eq.
    rewrite createHook_unregistered in Hc by done. cbn [after] in Hc.
    apply (inj Some) in Hc as <-. rewrite hooks_schedulePersist.
    cbn [hooks with_hooks]. by rewrite own_assign_ne.
  - unfold deleteHook in Hc. destruct (get (hooks w) slug) eqn:G;
      cbn in Hc; simplify_eq; try done;
      rewrite hooks_schedulePersist; cbn [hooks with_hooks];
      by rewrite own_remove_ne.
  - unfold recordHit in Hc. destruct (get (hooks w) slug) eqn:G;
      cbn in Hc; simplify_eq; try done.
    rewrite hooks_schedulePersist. cbn [hooks with_hooks].
    by rewrite own_replace_ne.
  - unfold clearLogs in Hc. destruct (get (hooks w) slug) eqn:G;
      cbn in Hc; simplify_eq; try done.
    rewrite hooks_schedulePersist. cbn [hooks with_hooks].
    by rewrite own_replace_ne.
Qed.

(** A call that changes the registry leaves the record of its slug, if
    there is one, within the retention bound. *)
Lemma call_bounds_its_target c w w1 L :
  logLimit w = of_nat L ->
  invoke c w = Some w1 ->
  forall h, own (hooks w1) (target c) = Some h ->
    hooks w1 = hooks w \/ length (Hook.logs h) <= L.
Proof.
  intros HL Hc h Hown.
  destruct c as [slug d m now|slug|slug e|slug]; cbn [invoke target] in *.
  - destruct (get (hooks w) slug) eqn:G.
    1,2: rewrite createHook_taken in Hc by (by rewrite G);
         cbn in Hc; simplify_eq; auto.
    rewrite createHook_unregistered in Hc by done. cbn [after] in Hc.
    apply (inj Some) in Hc as <-. rewrite hooks_schedulePersist in Hown.
    cbn [hooks with_hooks] in Hown. rewrite own_assign_eq in Hown.
    apply (inj Some) in Hown as <-. right. cbn. lia.
  - unfold deleteHook in Hc. destruct (get (hooks w) slug) eqn:G;
      cbn in Hc; simplify_eq; auto;
      rewrite hooks_schedulePersist in Hown; cbn [hooks with_hooks] in Hown;
      by rewrite own_remove_eq in Hown.
  - unfold recordHit in Hc. destruct (get (hooks w) slug) eqn:G;
      cbn in Hc; simplify_eq; auto.
    rewrite hooks_schedulePersist in Hown. cbn [hooks with_hooks] in Hown.
    apply get_own in G. rewrite own_replace_eq, G in Hown. simplify_eq.
    right. rewrite HL, hit_logs, length_take. lia.
  - unfold clearLogs in Hc. destruct (get (hooks w) slug) eqn:G;
      cbn in Hc; simplify_eq; auto.
    rewrite hooks_schedulePersist in Hown. cbn [hooks with_hooks] in Hown.
    apply get_own in G. rewrite own_replace_eq, G in Hown. simplify_eq.
    right. cbn. lia.
Qed.

(** Only a call changes the registry. *)
Lemma step_registry e w w' :
  step e w = Some w' ->
  hooks w' = hooks w \/ exists c, e = Call c /\ invoke c w = Some w'.
Proof.
  destruct e as [c|i ok|i r|i]; cbn.
  - intros H. right. by exists c.
  - destruct (flushes w !! i) as [[| |]|]; intros [= <-]; by left.
  - destruct (flushes w !! i) as [[| |]|]; intros [= <-]; by left.
  - destruct (flushes w !! i) as [[| |]|]; intros [= <-]; left.
    destruct (pendingFlush w); reflexivity.
Qed.

(** Events that are no call about a slug leave its record as it is. *)
Lemma run_quiet slug es w w' :
  forallb (quiet slug) es = true -> run es w = Some w' ->
  own (hooks w') slug = own (hooks w) slug.
Proof.
  revert w. induction es as [|e es IH]; intros w; cbn.
  - by intros _ [= <-].
  - intros [He Hes]%andb_prop. destruct (step e w) as [w1|] eqn:E; [|done].
    intros Hrun. rewrite (IH w1 Hes Hrun).
    destruct (step_registry _ _ _ E) as [->|(c & -> & Hc)]; [done|].
    apply (call_leaves_the_others _ _ _ Hc). cbn in He.
    apply negb_true_iff, String.eqb_neq in He. congruence.
Qed.

(** A call returns, or throws one of the errors of the store, unless it
    takes an inherited member for a record. *)
Lemma invoke_returns c w :
  get (hooks w) (target c) <> Inherited -> exists w1, invoke c w = Some w1.
Proof.
  destruct c as [slug d m now|slug|slug e|slug]; cbn [invoke target]; intros G.
  - destruct (get (hooks w) slug) eqn:E; [|done|].
    + rewrite createHook_taken by (by rewrite E). by eexists.
    + rewrite createHook_unregistered by done. by eexists.
  - unfold deleteHook. destruct (get (hooks w) slug); by eexists.
  - unfold recordHit. destruct (get (hooks w) slug); [|done|]; by eexists.
  - unfold clearLogs. destruct (get (hooks w) slug); [|done|]; by eexists.
Qed.

(** C1, as amended.  Let [logLimit] be a length [L].  When more than
    [L] deliveries [es] are recorded in a row for a registered slug,
    every call succeeds and [getHook] then returns a record whose [logs]
    has length exactly [L] and holds the [L] last deliveries, newest
    first, while [hits] has grown by the number of deliveries (so it is
    that number for a record that started from zero).  A single call
    about a slug leaves the record of every other slug as it was,
    neither adding nor removing one, and either changes nothing in the
    registry or leaves the record of its own slug, if there is one
    afterwards, with at most [L] log entries.  This covers every call
    but those that take an inherited member of [Object.prototype] for a
    record. *)
Theorem recordHit_retention (w : world) (L : nat) :
  logLimit w = of_nat L ->
  (forall slug hook es,
     get (hooks w) slug = Own hook ->
     L < length es ->
     exists w' hook',
       run (map (fun e => Call (RecordHit slug e)) es) w = Some w' /\
       getHook slug w' = Return (Some hook') w' /\
       length (Hook.logs hook') = L /\
       Hook.logs hook' = reverse (drop (length es - L) es) /\
       Hook.hits hook' = (Hook.hits hook + Z.of_nat (length es))%Z /\
       (Hook.hits hook = 0%Z -> Hook.hits hook' = Z.of_nat (length es))) /\
  (forall c w1, invoke c w = Some w1 ->
     (forall s, s <> target c -> own (hooks w1) s = own (hooks w) s) /\
     (forall h, own (hooks w1) (target c) = Some h ->
        hooks w1 = hooks w \/ length (Hook.logs h) <= L)) /\
  (forall c, get (hooks w) (target c) <> Inherited ->
     exists w1, invoke c w = Some w1).
Proof.
  intros HL. split; [|split; [|intros c; apply invoke_returns]].
  - intros slug hook es Hget Hlen.
    destruct (run_recordHits slug es w hook Hget) as (w' & Hrun & Hown & _).
    exists w', (JSON_copy (hit_all (logLimit w) es hook)).
    rewrite HL in *.
    split; [done|]. split; [by apply getHook_registered|].
    cbn [JSON_copy Hook.logs Hook.hits].
    rewrite hit_all_retains, hit_all_hits by done.
    rewrite length_reverse, length_drop.
    repeat split; [lia|]. intros ->. lia.
  - intros c w1 Hc. split.
    + by apply call_leaves_the_others.
    + by eapply call_bounds_its_target.
Qed.

Lemma recordHit_retention_witness :
  logLimit reopened = of_nat 1 /\
  get (hooks reopened) "a" = Own kept_hook /\
  1 < length [delivery 4; delivery 5] /\
  (exists w' hook',
     run (map (fun e => Call (RecordHit "a" e)) [delivery 4; delivery 5])
       reopened = Some w' /\
     getHook "a" w' = Return (Some hook') w' /\
     length (Hook.logs hook') = 1 /\
     Hook.logs hook'
     = reverse (drop (length [delivery 4; delivery 5] - 1)
                  [delivery 4; delivery 5]) /\
     Hook.hits hook'
     = (Hook.hits kept_hook + Z.of_nat (length [delivery 4; delivery 5]))%Z /\
     (Hook.hits kept_hook = 0%Z ->
      Hook.hits hook' = Z.of_nat (length [delivery 4; delivery 5]))) /\
  (forall c w1, invoke c reopened = Some w1 ->
     (forall s, s <> target c -> own (hooks w1) s = own (hooks reopened) s) /\
     (forall h, own (hooks w1) (target c) = Some h ->
        hooks w1 = hooks reopened \/ length (Hook.logs h) <= 1)) /\
  (forall c, get (hooks reopened) (target c) <> Inherited ->
     exists w1, invoke c reopened = Some w1).
Proof.
  assert (Hlen : 1 < length [delivery 4; delivery 5]) by (simpl; lia).
  split; [reflexivity|]. split; [reflexivity|]. split; [exact Hlen|].
  destruct (recordHit_retention reopened 1 eq_refl) as [H1 H2].
  split; [|exact H2].
  exact (H1 "a" kept_hook [delivery 4; delivery 5] eq_refl Hlen).
Defined.

(** C1 as stated fails on a store reopened with a smaller [logLimit]:
    the record of ["a"] was loaded with three log entries and the limit
    is one; creating another hook is a mutation, and after it [getHook]
    still returns the record of ["a"] with its three entries. *)
Lemma retention_as_stated_fails :
  exists w' hook',
    logLimit reopened = of_nat 1 /\
    invoke (CreateHook "b" "" (Obj []) 9%Z) reopened = Some w' /\
    logLimit w' = of_nat 1 /\
    getHook "a" w' = Return (Some hook') w' /\
    length (Hook.logs hook') = 3.
Proof.
  eexists _, _. split; [reflexivity|]. split; [vm_compute; reflexivity|].
  split; [reflexivity|]. split; [reflexivity|]. reflexivity.
Qed.

(** C2.  When [createHook] succeeds, [getHook] on the same slug returns a
    record with [hits = 0], [lastHit = null] and [logs = []], carrying the
    given slug and description, the time of the call as [createdAt], and
    an identifier of ten base64url digits made from bytes newly drawn
    from the entropy source.  This holds at once and for as long as no
    other call is made about the slug, whatever the calls about other
    slugs and the progress of the flush, which the promise of
    [createHook] waits for.  The record is the JSON copy of the one
    [createHook] returned: its [metadata] is what [JSON.stringify]
    writes of the given one, and the two records are equal when that
    loses nothing. *)
Theorem createHook_then_getHook (slug description : string)
    (metadata : value) (now : timestamp) (w w1 : world)
    (hook : Hook.t value) (es : list event) (w2 : world) :
  createHook slug description metadata now w = Return hook w1 ->
  forallb (quiet slug) es = true ->
  run es w1 = Some w2 ->
  exists got,
    getHook slug w2 = Return (Some got) w2 /\
    Hook.hits got = 0%Z /\
    Hook.lastHit got = None /\
    Hook.logs got = [] /\
    Hook.slug got = slug /\
    Hook.description got = description /\
    Hook.metadata got = stringify metadata /\
    Hook.createdAt got = now /\
    Hook.id got = str_slice0 (base64url (fst (randomBytes 20 (random w)))) 10 /\
    String.length (Hook.id got) = 10 /\
    well_shaped (Hook.id got) /\
    got = JSON_copy hook /\
    (plain metadata = true -> got = hook).
Proof.
  intros Hc Hq Hrun. destruct (get (hooks w) slug) eqn:G.
  1,2: by rewrite createHook_taken in Hc by (by rewrite G).
  rewrite createHook_unregistered in Hc by done.
  apply Return_inj in Hc as [<- <-].
  pose proof (run_quiet slug es _ w2 Hq Hrun) as Hown.
  rewrite hooks_schedulePersist in Hown. cbn [hooks with_hooks] in Hown.
  rewrite own_assign_eq in Hown. apply get_own in Hown.
  eexists. split; [by apply getHook_registered|].
  cbn [JSON_copy Hook.fresh Hook.hits Hook.lastHit Hook.logs Hook.slug Hook.id
       Hook.description Hook.metadata Hook.createdAt].
  split_and!; try reflexivity.
  - apply str_slice0_well_shaped, base64url_well_shaped.
  - intros Hp. by rewrite JSON_copy_plain.
Qed.

Lemma createHook_then_getHook_witness :
  let es := [Call (CreateHook "orders" "" (Obj []) 8%Z); MkdirDone 0 true;
             WriteDone 0 Saved; Finally 0] in
  createHook "email1" "" (Obj []) 7%Z blank = Return fresh_hook flushing /\
  forallb (quiet "email1") es = true /\
  exists w2,
    run es flushing = Some w2 /\
    exists got,
      getHook "email1" w2 = Return (Some got) w2 /\
      Hook.hits got = 0%Z /\
      Hook.lastHit got = None /\
      Hook.logs got = [] /\
      Hook.slug got = "email1" /\
      Hook.description got = "" /\
      Hook.metadata got = stringify (Obj []) /\
      Hook.createdAt got = 7%Z /\
      Hook.id got
      = str_slice0 (base64url (fst (randomBytes 20 (random blank)))) 10 /\
      String.length (Hook.id got) = 10 /\
      well_shaped (Hook.id got) /\
      got = JSON_copy fresh_hook /\
      (plain (Obj []) = true -> got = fresh_hook).
Proof.
  intros es. split; [reflexivity|]. split; [reflexivity|].
  set (w2 := match run es flushing with Some w => w | None => blank end).
  assert (Hrun : run es flushing = Some w2) by (vm_compute; reflexivity).
  exists w2. split; [exact Hrun|].
  exact (createHook_then_getHook "email1" "" (Obj []) 7%Z blank flushing
           fresh_hook es w2 eq_refl eq_refl Hrun).
Defined.

(** The copy [getHook] returns can differ from the record [createHook]
    returned: a [metadata] holding [Infinity], which [JSON.parse] makes
    of the number [1e999] in a request body, is read back with [null] in
    its place. *)
Example createHook_then_getHook_metadata :
  exists hook w1 got,
    createHook "email1" "" (Obj [("ttl", Num PosInf)]) 7%Z blank
    = Return hook w1 /\
    getHook "email1" w1 = Return (Some got) w1 /\
    Hook.metadata hook = Obj [("ttl", Num PosInf)] /\
    Hook.metadata got = Obj [("ttl", Null)].
Proof. eexists _, _, _. split_and!; reflexivity. Qed.

(** *** Typed errors *)

Lemma createHook_conflict slug description metadata now hook w :
  get (hooks w) slug = Own hook ->
  createHook slug description metadata now w = Throw (conflict slug) w.
Proof. intros G. apply createHook_taken. by rewrite G. Qed.

Lemma recordHit_unknown slug e w :
  get (hooks w) slug = Undefined -> recordHit slug e w = Throw (unknown slug) w.
Proof. unfold recordHit. by intros ->. Qed.

Lemma clearLogs_unknown slug w :
  get (hooks w) slug = Undefined -> clearLogs slug w = Throw (unknown slug) w.
Proof. unfold clearLogs. by intros ->. Qed.

Lemma clearLogs_registered slug hook w :
  get (hooks w) slug = Own hook ->
  clearLogs slug w =
    Return (Hook.clear hook)
      (schedulePersist (with_hooks (replace (hooks w) slug (Hook.clear hook)) w)).
Proof. unfold clearLogs. by intros ->. Qed.

(** On every slug that is not the name of a member of [Object.prototype],
    the three checks work as intended and leave the store as it was. *)
Lemma typed_errors_on_ordinary_slugs slug w :
  inherited slug = false ->
  (forall description metadata now,
     own (hooks w) slug <> None ->
     createHook slug description metadata now w = Throw (conflict slug) w) /\
  (own (hooks w) slug = None ->
   (forall e, recordHit slug e w = Throw (unknown slug) w) /\
   clearLogs slug w = Throw (unknown slug) w).
Proof.
  intros Hi. split.
  - intros d m now Hown. apply createHook_taken.
    unfold get. by destruct (own (hooks w) slug).
  - intros Hown.
    assert (G : get (hooks w) slug = Undefined) by by apply get_undefined.
    split; [intros e; by apply recordHit_unknown|by apply clearLogs_unknown].
Qed.

(** C3, at the input where the code departs from it.  In a store that has
    no hook at all, the slug [constructor] is not registered, yet
    [this.state.hooks["constructor"]] is the inherited [Object] function
    and passes the [if (!hook)] test: neither [clearLogs] nor [recordHit]
    raises the not-found error, and both go on to write hook fields onto
    that function. *)
Theorem unregistered_constructor_is_not_rejected (logLimit : option number)
    (random : entropy) (e : Entry.t) :
  own (hooks (open_store logLimit [] random)) "constructor" = None /\
  clearLogs "constructor" (open_store logLimit [] random) = Builtin /\
  recordHit "constructor" e (open_store logLimit [] random) = Builtin /\
  (forall w, clearLogs "constructor" (open_store logLimit [] random)
             <> Throw (unknown "constructor") w) /\
  (forall w, recordHit "constructor" e (open_store logLimit [] random)
             <> Throw (unknown "constructor") w).
Proof. by split_and!. Qed.

(** C4.  For a registered slug, [clearLogs] returns the record with
    [hits = 0], [lastHit = null] and [logs = []] and with its [id],
    [slug], [description], [metadata] and [createdAt] as they were; a
    second call in a row returns the same record again and leaves the
    registry as the first call left it.  That record is the one the
    registry holds, and [getHook] returns its JSON copy after either
    call. *)
Theorem clearLogs_idempotent (slug : string) (hook : Hook.t value) (w : world) :
  get (hooks w) slug = Own hook ->
  exists cleared w1 w2,
    clearLogs slug w = Return cleared w1 /\
    clearLogs slug w1 = Return cleared w2 /\
    hooks w2 = hooks w1 /\
    own (hooks w1) slug = Some cleared /\
    getHook slug w1 = Return (Some (JSON_copy cleared)) w1 /\
    getHook slug w2 = Return (Some (JSON_copy cleared)) w2 /\
    Hook.hits cleared = 0%Z /\
    Hook.lastHit cleared = None /\
    Hook.logs cleared = [] /\
    Hook.id cleared = Hook.id hook /\
    Hook.slug cleared = Hook.slug hook /\
    Hook.description cleared = Hook.description hook /\
    Hook.metadata cleared = Hook.metadata hook /\
    Hook.createdAt cleared = Hook.createdAt hook.
Proof.
  intros G.
  set (w1 := schedulePersist
               (with_hooks (replace (hooks w) slug (Hook.clear hook)) w)).
  assert (G1 : get (hooks w1) slug = Own (Hook.clear hook)).
  { subst w1. rewrite hooks_schedulePersist. by eapply get_replace_eq. }
  set (w2 := schedulePersist
               (with_hooks
                  (replace (hooks w1) slug (Hook.clear (Hook.clear hook))) w1)).
  assert (H12 : hooks w2 = hooks w1).
  { subst w2. rewrite hooks_schedulePersist. cbn [hooks with_hooks].
    apply get_own in G1. revert G1. generalize (hooks w1).
    induction o as [|[k v] o IH]; cbn; [done|].
    destruct (String.eqb k slug); [by intros [= ->]|]. intros H.
    by rewrite IH. }
  exists (Hook.clear hook), w1, w2. split_and!; try done.
  - by apply clearLogs_registered.
  - by rewrite (clearLogs_registered _ _ _ G1).
  - by apply get_own.
  - by apply getHook_registered.
  - apply getHook_registered. by rewrite H12.
Qed.

Lemma clearLogs_idempotent_witness :
  get (hooks reopened) "a" = Own kept_hook /\
  exists cleared w1 w2,
    clearLogs "a" reopened = Return cleared w1 /\
    clearLogs "a" w1 = Return cleared w2 /\
    hooks w2 = hooks w1 /\
    own (hooks w1) "a" = Some cleared /\
    getHook "a" w1 = Return (Some (JSON_copy cleared)) w1 /\
    getHook "a" w2 = Return (Some (JSON_copy cleared)) w2 /\
    Hook.hits cleared = 0%Z /\
    Hook.lastHit cleared = None /\
    Hook.logs cleared = [] /\
    Hook.id cleared = Hook.id kept_hook /\
    Hook.slug cleared = Hook.slug kept_hook /\
    Hook.description cleared = Hook.description kept_hook /\
    Hook.metadata cleared = Hook.metadata kept_hook /\
    Hook.createdAt cleared = Hook.createdAt kept_hook.
Proof.
  split; [reflexivity|].
  apply (clearLogs_idempotent "a" kept_hook reopened). reflexivity.
Defined.

(** *** Deletion *)

Lemma deleteHook_unregistered slug w :
  get (hooks w) slug = Undefined -> deleteHook slug w = Return false w.
Proof. unfold deleteHook. by intros ->. Qed.

Lemma deleteHook_registered slug hook w :
  get (hooks w) slug = Own hook ->
  deleteHook slug w =
    Return true (schedulePersist (with_hooks (remove (hooks w) slug) w)).
Proof. unfold deleteHook. by intros ->. Qed.

(** On every slug that is not the name of a member of [Object.prototype],
    [deleteHook] does what the specification says: [false] and no change
    when the slug is not registered; otherwise [true], after which
    [getHook] returns [null] and [createHook] succeeds with a new record,
    as on a store that never held the slug. *)
Lemma deleteHook_on_ordinary_slugs slug w :
  inherited slug = false ->
  (own (hooks w) slug = None -> deleteHook slug w = Return false w) /\
  (own (hooks w) slug <> None ->
   exists w1,
     deleteHook slug w = Return true w1 /\
     hooks w1 = remove (hooks w) slug /\
     getHook slug w1 = Return None w1 /\
     forall description metadata now,
     exists hook w2,
       createHook slug description metadata now w1 = Return hook w2 /\
       getHook slug w2 = Return (Some (JSON_copy hook)) w2 /\
       Hook.hits hook = 0%Z /\ Hook.lastHit hook = None /\
       Hook.logs hook = []).
Proof.
  intros Hi. split.
  - intros Hown. apply deleteHook_unregistered. by apply get_undefined.
  - intros Hown. destruct (own (hooks w) slug) as [hook|] eqn:E; [|done].
    apply get_own in E.
    set (w1 := schedulePersist (with_hooks (remove (hooks w) slug) w)).
    assert (H1 : hooks w1 = remove (hooks w) slug).
    { subst w1. by rewrite hooks_schedulePersist. }
    assert (G1 : get (hooks w1) slug = Undefined).
    { apply get_undefined. by rewrite H1, own_remove_eq. }
    exists w1. split_and!; [by eapply deleteHook_registered|done| |].
    + unfold getHook. by rewrite G1.
    + intros d m now. eexists _, _.
      split; [by apply createHook_unregistered|].
      split; [|done].
      apply getHook_registered. rewrite hooks_schedulePersist.
      cbn [hooks with_hooks]. apply get_own, own_assign_eq.
Qed.

(** C5, at the input where the code departs from it.  In a store that has
    no hook at all, [deleteHook("constructor")] finds the inherited
    [Object] function, takes the slug for registered and reports a
    removal: it returns [true] and schedules a flush, with nothing
    removed.  After this successful [deleteHook] the inherited member is
    still there: [getHook] does not return [null], and [createHook] fails
    with the conflict error. *)
Theorem deleteHook_constructor_reports_removal (logLimit : option number)
    (random : entropy) :
  own (hooks (open_store logLimit [] random)) "constructor" = None /\
  deleteHook "constructor" (open_store logLimit [] random)
  = Return true (schedulePersist (open_store logLimit [] random)) /\
  hooks (schedulePersist (open_store logLimit [] random))
  = hooks (open_store logLimit [] random) /\
  getHook "constructor" (schedulePersist (open_store logLimit [] random))
  = Builtin /\
  (forall description metadata now,
     createHook "constructor" description metadata now
       (schedulePersist (open_store logLimit [] random))
     = Throw (conflict "constructor")
         (schedulePersist (open_store logLimit [] random))).
Proof. by split_and!. Qed.

(** *** The recent feed *)

Lemma Qle_bool_false x y : Qle_bool x y = false -> (y < x)%Q.
Proof.
  intros H. apply Qnot_le_lt. intros Hle.
  apply Qle_bool_iff in Hle. congruence.
Qed.

Lemma slice0_from_one {A} (a : list A) (c : Q) :
  (1 <= c)%Q -> slice0 a (Fin c) = take (Z.to_nat (Qfloor c)) a.
Proof.
  intros Hc. unfold slice0, truncate.
  assert (H0 : Qle_bool 0 c = true).
  { apply Qle_bool_iff. eapply Qle_trans; [|exact Hc]. discriminate. }
  rewrite H0. apply Qfloor_resp_le in Hc. change (Qfloor 1) with 1%Z in Hc.
  destruct (Z.ltb_spec (Qfloor c) 0); [lia|done].
Qed.

Lemma safeLimit_effective limit :
  exists c, safeLimit limit = Fin c /\ (1 <= c)%Q /\
            Z.to_nat (Qfloor c) = effective_limit limit.
Proof.
  destruct limit as [|[| | |q]];
    try (eexists; split; [reflexivity|]; split; [discriminate|reflexivity]).
  unfold safeLimit, effective_limit, or_else.
  destruct (Qeq_bool q 0) eqn:E0.
  { eexists; split; [reflexivity|]; split; [discriminate|reflexivity]. }
  unfold of_nat. cbn [Math_min].
  change (inject_Z (Z.of_nat 100)) with 100%Q.
  change (inject_Z (Z.of_nat 1)) with 1%Q.
  destruct (Qle_bool q 100) eqn:E1.
  - cbn [Math_max]. destruct (Qle_bool 1 q) eqn:E2.
    + exists q. apply Qle_bool_iff in E1, E2. split; [done|]. split; [done|].
      destruct (Qle_bool q 1) eqn:E3.
      { apply Qle_bool_iff in E3.
        assert (Hq : (q == 1)%Q) by by apply Qle_antisym.
        by rewrite Hq. }
      destruct (Qle_bool 100 q) eqn:E4; [|done].
      apply Qle_bool_iff in E4.
      assert (Hq : (q == 100)%Q) by by apply Qle_antisym.
      by rewrite Hq.
    + exists 1%Q. split; [done|]. split; [discriminate|].
      apply Qle_bool_false, Qlt_le_weak in E2.
      apply Qle_bool_iff in E2. by rewrite E2.
  - exists 100%Q. split; [done|]. split; [discriminate|].
    apply Qle_bool_false in E1.
    assert (E3 : Qle_bool q 1 = false).
    { apply not_true_is_false. intros H%Qle_bool_iff.
      assert (H' : (100 < 1)%Q) by (eapply Qlt_le_trans; eauto).
      discriminate H'. }
    assert (E4 : Qle_bool 100 q = true).
    { by apply Qle_bool_iff, Qlt_le_weak. }
    by rewrite E3, E4.
Qed.

Lemma effective_limit_range limit :
  1 <= effective_limit limit <= 100.
Proof.
  destruct limit as [|[| | |q]]; cbn; try lia.
  destruct (Qeq_bool q 0); [lia|].
  destruct (Qle_bool q 1) eqn:E1; [lia|].
  destruct (Qle_bool 100 q) eqn:E2; [lia|].
  apply Qle_bool_false, Qlt_le_weak, Qfloor_resp_le in E1, E2.
  change (Qfloor 1) with 1%Z in E1. change (Qfloor 100) with 100%Z in E2.
  lia.
Qed.

Lemma insert_sorted_perm x l : insert_sorted x l ≡ₚ x :: l.
Proof.
  induction l as [|y l IH]; cbn; [done|].
  destruct (Recent.timestamp y <=? Recent.timestamp x)%Z; [done|].
  rewrite IH. apply Permutation_swap.
Qed.

Lemma sort_perm l : sort l ≡ₚ l.
Proof.
  unfold sort. induction l as [|x l IH]; cbn; [done|].
  by rewrite insert_sorted_perm, IH.
Qed.

(** The sort is stable: entries with the same timestamp keep their
    order. *)
Lemma insert_sorted_stable t x l :
  List.filter (fun e => Recent.timestamp e =? t)%Z (insert_sorted x l)
  = List.filter (fun e => Recent.timestamp e =? t)%Z (x :: l).
Proof.
  induction l as [|y l IH]; [done|]. cbn [insert_sorted].
  destruct (Z.leb_spec (Recent.timestamp y) (Recent.timestamp x)); [done|].
  cbn [List.filter] in *. rewrite IH.
  destruct (Z.eqb_spec (Recent.timestamp y) t),
           (Z.eqb_spec (Recent.timestamp x) t); try done. lia.
Qed.

Lemma sort_stable t l :
  List.filter (fun e => Recent.timestamp e =? t)%Z (sort l)
  = List.filter (fun e => Recent.timestamp e =? t)%Z l.
Proof.
  unfold sort. induction l as [|x l IH]; [done|]. cbn [foldr].
  rewrite insert_sorted_stable. cbn [List.filter]. by rewrite IH.
Qed.

Lemma insert_sorted_sorted x l :
  StronglySorted newer_first l -> StronglySorted newer_first (insert_sorted x l).
Proof.
  induction 1 as [|y l Hl IH Hy]; cbn.
  - by repeat constructor.
  - destruct (Z.leb_spec (Recent.timestamp y) (Recent.timestamp x)).
    + constructor; [by constructor|]. constructor; [done|].
      eapply Forall_impl; [exact Hy|]. unfold newer_first. cbn. lia.
    + constructor; [done|].
      rewrite insert_sorted_perm. constructor; [|done].
      unfold newer_first. lia.
Qed.

Lemma sort_sorted l : StronglySorted newer_first (sort l).
Proof.
  unfold sort. induction l as [|x l IH]; cbn; [constructor|].
  by apply insert_sorted_sorted.
Qed.

Lemma take_sorted {A} (R : A -> A -> Prop) n l :
  StronglySorted R l -> StronglySorted R (take n l).
Proof.
  intros H. revert n. induction H as [|x l Hl IH Hx]; intros [|n]; cbn;
    try constructor; auto.
  by apply Forall_take.
Qed.

(** C6, as amended.  [listRecentEntries(limit)] returns the log entries of
    all hooks, sorted newest first, cut to an effective limit that always
    lies between 1 and 100: it is 20 when [limit] is left out, is zero or
    is not a number, and otherwise [limit] brought into the range from 1
    to 100 with its fraction dropped. *)
Theorem listRecentEntries_feed (limit : argument) (w : world) :
  listRecentEntries limit w
  = take (effective_limit limit) (sort (entries (hooks w))) /\
  sort (entries (hooks w)) ≡ₚ entries (hooks w) /\
  StronglySorted newer_first (sort (entries (hooks w))) /\
  StronglySorted newer_first (listRecentEntries limit w) /\
  1 <= effective_limit limit <= 100 /\
  effective_limit Omitted = 20 /\
  effective_limit (Passed NaN) = 20 /\
  effective_limit (Passed (of_nat 0)) = 20.
Proof.
  assert (H : listRecentEntries limit w
              = take (effective_limit limit) (sort (entries (hooks w)))).
  { unfold listRecentEntries.
    destruct (safeLimit_effective limit) as (c & -> & Hc & <-).
    by apply slice0_from_one. }
  split_and!; try done.
  - apply sort_perm.
  - apply sort_sorted.
  - rewrite H. apply take_sorted, sort_sorted.
  - apply effective_limit_range.
  - apply effective_limit_range.
Qed.

(** C6 as stated fails at [limit = 0]: zero is falsy, so [|| 20] replaces
    it by the default before anything is clamped, and the feed of a store
    holding three entries comes back whole instead of being cut to one
    entry. *)
Lemma zero_limit_is_not_clamped :
  clamp 0 = 1%Q /\
  length (listRecentEntries (Passed (Fin 0)) reopened) = 3 /\
  listRecentEntries (Passed (Fin 0)) reopened
  <> slice0 (sort (entries (hooks reopened))) (Fin (clamp 0)).
Proof. split_and!; [reflexivity|reflexivity|discriminate]. Qed.

(** *** The flush discipline *)

(** A call leaves the store as it was, or changes the registry and then
    calls [schedulePersist]. *)
Lemma invoke_cases c w w1 :
  invoke c w = Some w1 ->
  w1 = w \/ exists w0, w1 = schedulePersist w0 /\ same_flush w0 w.
Proof.
  intros Hc.
  destruct c as [slug d m now|slug|slug e|slug]; cbn [invoke] in Hc.
  - destruct (get (hooks w) slug) eqn:G.
    1,2: rewrite createHook_taken in Hc by (by rewrite G);
         cbn in Hc; left; congruence.
    rewrite createHook_unregistered in Hc by done. cbn [after] in Hc.
    apply (inj Some) in Hc as <-. right. by eexists.
  - unfold deleteHook in Hc. destruct (get (hooks w) slug);
      cbn [after] in Hc; apply (inj Some) in Hc as <-;
      first [by left | right; by eexists].
  - unfold recordHit in Hc. destruct (get (hooks w) slug);
      cbn [after] in Hc; try done; apply (inj Some) in Hc as <-;
      first [by left | right; by eexists].
  - unfold clearLogs in Hc. destruct (get (hooks w) slug);
      cbn [after] in Hc; try done; apply (inj Some) in Hc as <-;
      first [by left | right; by eexists].
Qed.

(** A call that changes the registry ends with [schedulePersist]. *)
Lemma invoke_mutation c w w1 :
  invoke c w = Some w1 -> hooks w1 <> hooks w ->
  exists w0, w1 = schedulePersist w0 /\ same_flush w0 w.
Proof. intros Hc Hne. by destruct (invoke_cases c w w1 Hc) as [->|?]. Qed.

Lemma schedulePersist_coalesced w0 w :
  same_flush w0 w -> coalesced w -> coalesced (schedulePersist w0).
Proof.
  intros (Hp & Hq & Hf & _) [(Hw & Hpf & Hfl)|(f & Hfl & Hw)];
    unfold schedulePersist; rewrite Hp, Hw; right; cbn.
  - rewrite Hf, Hfl. by eexists.
  - rewrite Hf, Hfl. by eexists.
Qed.

Lemma step_coalesced e w w' :
  coalesced w -> step e w = Some w' -> coalesced w'.
Proof.
  intros Hw Hs. destruct e as [c|i ok|i r|i]; cbn [step] in Hs.
  - destruct (invoke_cases c w w' Hs) as [->|(w0 & -> & Hsame)]; [done|].
    by eapply schedulePersist_coalesced.
  - destruct Hw as [(_ & _ & Hfl)|(f & Hfl & Hp)]; rewrite Hfl in Hs;
      [done|].
    destruct i; [|done]. cbn in Hs. destruct f; simplify_eq.
    right. cbn. by eexists.
  - destruct Hw as [(_ & _ & Hfl)|(f & Hfl & Hp)]; rewrite Hfl in Hs;
      [done|].
    destruct i; [|done]. cbn in Hs. destruct f; simplify_eq.
    right. cbn. by eexists.
  - destruct Hw as [(_ & _ & Hfl)|(f & Hfl & Hp)]; rewrite Hfl in Hs;
      [done|].
    destruct i; [|done]. cbn in Hs. destruct f; simplify_eq.
    destruct (pendingFlush w) eqn:Hpf.
    + right. unfold schedulePersist. cbn. by eexists.
    + left. by unfold idle.
Qed.

Lemma run_coalesced es w w' :
  coalesced w -> run es w = Some w' -> coalesced w'.
Proof.
  revert w. induction es as [|e es IH]; intros w Hw Hr; cbn in Hr.
  - by simplify_eq.
  - destruct (step e w) as [w1|] eqn:Hs; [|done].
    eapply IH; [|done]. by eapply step_coalesced.
Qed.

Lemma coalesced_in_flight w : coalesced w -> in_flight w <= 1.
Proof.
  unfold in_flight. intros [(_ & _ & ->)|(f & -> & _)]; cbn; [lia|].
  destruct f; cbn; lia.
Qed.

(** What a call does while a flush exists. *)
Lemma invoke_while_flushing c w w1 f :
  flushes w = [f] -> writePromise w = true ->
  invoke c w = Some w1 ->
  flushes w1 = [f] /\ writePromise w1 = true /\ disk w1 = disk w /\
  (w1 = w \/ pendingFlush w1 = true).
Proof.
  intros Hfl Hp Hc.
  destruct (invoke_cases c w w1 Hc) as [->|(w0 & -> & H1 & H2 & H3 & H4)];
    [by auto|].
  unfold schedulePersist. rewrite H1, Hp. cbn. rewrite H3, Hfl, H4. auto.
Qed.

(** What the [finally] handler does. *)
Lemma finally_reschedules w w' :
  flushes w = [Settled] -> step (Finally 0) w = Some w' ->
  if pendingFlush w
  then flushes w' = [AwaitMkdir] /\ pendingFlush w' = false /\
       writePromise w' = true
  else idle w'.
Proof.
  intros Hfl Hs. cbn in Hs. rewrite Hfl in Hs. cbn in Hs. simplify_eq.
  destruct (pendingFlush w) eqn:Hpf; by cbn.
Qed.

Lemma schedulePersist_covered w0 w :
  same_flush w0 w -> coalesced w -> covered (schedulePersist w0).
Proof.
  intros (Hp & Hq & Hf & _) [(Hw & Hpf & Hfl)|(f & Hfl & Hw)];
    unfold schedulePersist, covered; rewrite Hp, Hw; cbn; rewrite Hf, Hfl;
    [done|].
  destruct f; cbn; auto.
Qed.

Lemma smooth_step e w w' :
  smooth e = true -> coalesced w -> covered w -> step e w = Some w' ->
  covered w' /\ hooks w' = hooks w /\ S (remaining w') = remaining w.
Proof.
  intros He Hw Hcov Hs.
  destruct Hw as [(_ & _ & Hfl)|(f & Hfl & Hp)].
  { destruct e as [c|i [|]|i [|]|i]; try done; cbn in Hs;
      by rewrite Hfl in Hs. }
  unfold covered, remaining in *. rewrite Hfl in Hcov.
  destruct e as [c|i [|]|i [|]|i]; try done; cbn in Hs; rewrite Hfl in Hs;
    (destruct i; [|done]); cbn in Hs; destruct f; simplify_eq; cbn;
    rewrite ?Hfl; cbn.
  - split_and!; auto.
  - split_and!; [|done|done]. destruct Hcov as [->|]; auto.
  - destruct (pendingFlush w) eqn:Hpf; cbn; [done|].
    by destruct Hcov.
Qed.

Lemma smooth_run es w w' :
  Forall (fun e => smooth e = true) es ->
  coalesced w -> covered w -> run es w = Some w' ->
  covered w' /\ hooks w' = hooks w.
Proof.
  intros Hes. revert w. induction Hes as [|e es He Hes IH];
    intros w Hw Hcov Hr; cbn in Hr.
  - by simplify_eq.
  - destruct (step e w) as [w1|] eqn:Hs; [|done].
    destruct (smooth_step e w w1 He Hw Hcov Hs) as (Hcov1 & Hh & _).
    destruct (IH w1) as (? & ?); [by eapply step_coalesced|done|done|].
    split; [done|congruence].
Qed.

Lemma next_smooth w e : next w = Some e -> smooth e = true.
Proof. unfold next. by destruct (flushes w) as [|[| |] ?]; intros [= <-]. Qed.

Lemma next_enabled w e :
  coalesced w -> next w = Some e -> exists w', step e w = Some w'.
Proof.
  unfold next. intros [(_ & _ & Hfl)|(f & Hfl & _)]; rewrite Hfl; [done|].
  destruct f; intros [= <-]; cbn; rewrite Hfl; cbn; by eexists.
Qed.

Lemma settle_reaches_idle n w :
  coalesced w -> covered w -> remaining w <= n ->
  Forall (fun e => smooth e = true) (settle n w) /\
  exists w', run (settle n w) w = Some w' /\ flushes w' = [].
Proof.
  revert w. induction n as [|n IH]; intros w Hw Hcov Hn.
  - split; [constructor|]. exists w. split; [done|].
    unfold remaining in Hn.
    destruct (flushes w) as [|[| |] ?]; [done|lia..].
  - cbn [settle]. destruct (next w) as [e|] eqn:Hnext.
    + destruct (next_enabled w e Hw Hnext) as (w1 & Hs). rewrite Hs.
      pose proof (next_smooth w e Hnext) as He.
      destruct (smooth_step e w w1 He Hw Hcov Hs) as (Hcov1 & _ & Hrem).
      destruct (IH w1) as (Hall & w' & Hr & Hfl);
        [by eapply step_coalesced|done|lia|].
      split; [by constructor|]. exists w'. cbn [run]. by rewrite Hs.
    + split; [constructor|]. exists w. split; [done|].
      unfold next in Hnext. by destruct (flushes w) as [|[| |] ?].
Qed.

Lemma remaining_le_6 w : remaining w <= 6.
Proof.
  unfold remaining. destruct (pendingFlush w), (flushes w) as [|[| |] ?]; lia.
Qed.

Lemma coalesced_quiet w : coalesced w -> flushes w = [] -> idle w.
Proof. intros [?|(f & Hf & _)] Hfl; [done|congruence]. Qed.

(** C9, as amended.  In every state the store reaches from an idle one,
    by calls and by completions of disk operations, failed ones included:
    at most one flush exists, so at most one is in flight; a call that
    arrives while a flush exists starts none and at most sets
    [pendingFlush]; the [finally] handler of a flush starts exactly one
    further flush when [pendingFlush] is set, clearing it, and none
    otherwise; and after a call that changed the registry, if no further
    call arrives and no disk operation fails, at most six completions
    bring the store to rest, and whenever it is at rest the backing file
    holds the registry as that call left it. *)
Theorem flush_discipline (w0 : world) (es : list event) (w : world) :
  idle w0 ->
  run es w0 = Some w ->
  in_flight w <= 1 /\
  length (flushes w) <= 1 /\
  (forall f c w1,
     flushes w = [f] -> invoke c w = Some w1 ->
     flushes w1 = [f] /\ disk w1 = disk w /\
     (w1 = w \/ pendingFlush w1 = true)) /\
  (forall w1,
     flushes w = [Settled] -> step (Finally 0) w = Some w1 ->
     if pendingFlush w
     then flushes w1 = [AwaitMkdir] /\ pendingFlush w1 = false
     else idle w1) /\
  (forall c w1,
     invoke c w = Some w1 -> hooks w1 <> hooks w ->
     (exists w2,
        run (settle 6 w1) w1 = Some w2 /\
        Forall (fun e => smooth e = true) (settle 6 w1) /\
        idle w2 /\ hooks w2 = hooks w1 /\ disk w2 = Some (hooks w1)) /\
     (forall es' w2,
        Forall (fun e => smooth e = true) es' ->
        run es' w1 = Some w2 -> flushes w2 = [] ->
        hooks w2 = hooks w1 /\ disk w2 = Some (hooks w1))).
Proof.
  intros H0 Hr.
  assert (Hw : coalesced w) by (eapply run_coalesced; [by left|done]).
  split; [by apply coalesced_in_flight|].
  split.
  { destruct Hw as [(_ & _ & ->)|(f & -> & _)]; cbn; lia. }
  split.
  { intros f c w1 Hfl Hc.
    destruct Hw as [(_ & _ & Hfl')|(f' & Hfl' & Hp)]; [congruence|].
    destruct (invoke_while_flushing c w w1 f Hfl Hp Hc) as (? & ? & ? & ?).
    done. }
  split.
  { intros w1 Hfl Hs. pose proof (finally_reschedules w w1 Hfl Hs) as H.
    destruct (pendingFlush w); [|done]. by destruct H as (? & ? & ?). }
  intros c w1 Hc Hne.
  destruct (invoke_mutation c w w1 Hc Hne) as (w' & -> & Hsame).
  assert (Hw1 : coalesced (schedulePersist w'))
    by by eapply schedulePersist_coalesced.
  assert (Hcov : covered (schedulePersist w'))
    by by eapply schedulePersist_covered.
  split.
  - destruct (settle_reaches_idle 6 _ Hw1 Hcov (remaining_le_6 _))
      as (Hall & w2 & Hr2 & Hfl).
    destruct (smooth_run _ _ _ Hall Hw1 Hcov Hr2) as (Hcov2 & Hh).
    exists w2. split_and!; try done.
    + apply coalesced_quiet; [by eapply run_coalesced|done].
    + unfold covered in Hcov2. rewrite Hfl in Hcov2. congruence.
  - intros es' w2 Hall Hr2 Hfl.
    destruct (smooth_run _ _ _ Hall Hw1 Hcov Hr2) as (Hcov2 & Hh).
    split; [done|].
    unfold covered in Hcov2. rewrite Hfl in Hcov2. congruence.
Qed.

Lemma flush_discipline_witness :
  idle blank /\
  run [Call (CreateHook "email1" "" (Obj []) 7%Z)] blank = Some flushing /\
  in_flight flushing <= 1 /\
  length (flushes flushing) <= 1 /\
  (forall f c w1,
     flushes flushing = [f] -> invoke c flushing = Some w1 ->
     flushes w1 = [f] /\ disk w1 = disk flushing /\
     (w1 = flushing \/ pendingFlush w1 = true)) /\
  (forall w1,
     flushes flushing = [Settled] -> step (Finally 0) flushing = Some w1 ->
     if pendingFlush flushing
     then flushes w1 = [AwaitMkdir] /\ pendingFlush w1 = false
     else idle w1) /\
  (forall c w1,
     invoke c flushing = Some w1 -> hooks w1 <> hooks flushing ->
     (exists w2,
        run (settle 6 w1) w1 = Some w2 /\
        Forall (fun e => smooth e = true) (settle 6 w1) /\
        idle w2 /\ hooks w2 = hooks w1 /\ disk w2 = Some (hooks w1)) /\
     (forall es' w2,
        Forall (fun e => smooth e = true) es' ->
        run es' w1 = Some w2 -> flushes w2 = [] ->
        hooks w2 = hooks w1 /\ disk w2 = Some (hooks w1))).
Proof.
  split; [repeat split|]. split; [reflexivity|].
  apply (flush_discipline blank [Call (CreateHook "email1" "" (Obj []) 7%Z)]
           flushing); [repeat split | reflexivity].
Defined.

(** C9 as stated fails when a write fails: the error is caught and
    logged, the [finally] handler finds nothing pending, and the store
    comes to rest with the new hook in memory and the old, empty registry
    on disk; no flush is left to run. *)
Lemma failed_write_leaves_disk_stale :
  exists w,
    run [Call (CreateHook "email1" "" (Obj []) 7%Z);
         MkdirDone 0 true;
         WriteDone 0 (Failed (Some []));
         Finally 0] blank = Some w /\
    idle w /\
    next w = None /\
    disk w = Some [] /\
    hooks w <> [] /\
    disk w <> Some (hooks w).
Proof.
  eexists. split; [reflexivity|]. by split_and!.
Qed.

(** C10, as amended.  For every length [n] (so for every [n >= 1]) and
    every state of the entropy source, [generateId(n)] returns at its
    first attempt: the base64url text of [2 * n] bytes has at least [n]
    digits, so the retry is never taken and [2 * n] bytes are drawn in
    all.  The identifier is the first [n] digits of that text: exactly
    [n] characters, each from the base64url alphabet. *)
Theorem generateId_total (n : nat) (src : entropy) (budget : nat) :
  n <= String.length (base64url (fst (randomBytes (n * 2) src))) /\
  exists id src',
    generateId (S budget) n src = Some (id, src') /\
    id = str_slice0 (base64url (fst (randomBytes (n * 2) src))) n /\
    String.length id = n /\
    well_shaped id /\
    drawn src' = drawn src + n * 2.
Proof.
  assert (H : n <= String.length (base64url (fst (randomBytes (n * 2) src)))).
  { rewrite base64url_length. cbn [randomBytes fst].
    rewrite length_map, length_seq. apply Nat.div_le_lower_bound; lia. }
  split; [done|]. eexists _, _.
  split; [apply generateId_first_attempt|]. split; [done|].
  split; [rewrite str_slice0_length; lia|].
  split; [apply str_slice0_well_shaped, base64url_well_shaped|done].
Qed.

(** C10 as stated promises distinct identifiers.  Nothing compares a new
    identifier with those in use: when the entropy source repeats itself
    over the bytes that matter, two hooks created in a row carry the same
    identifier. *)
Lemma identifiers_can_coincide :
  exists first second w1 w2,
    createHook "a" "" (Obj []) 7%Z blank = Return first w1 /\
    createHook "b" "" (Obj []) 8%Z w1 = Return second w2 /\
    Hook.id first = Hook.id second.
Proof. eexists _, _, _, _. split; [reflexivity|]. split; reflexivity. Qed.

(** *** Start-up *)

Lemma hooks_of_set_hooks v h :
  truthy v = true -> is_object v = true -> hooks_of (set_hooks v h) = Some h.
Proof.
  destruct v; try done; intros _ _; cbn; apply own_assign_eq.
Qed.

Lemma set_hooks_object v h :
  truthy (set_hooks v h) = truthy v /\ is_object (set_hooks v h) = is_object v.
Proof. by destruct v. Qed.

Lemma normalizeState_cases v :
  normalizeState v =
    if truthy v && is_object v
    then if lacks_hooks v then set_hooks v (Obj []) else v
    else empty_state.
Proof.
  unfold normalizeState, lacks_hooks.
  destruct (truthy v), (is_object v); try done. cbn.
  by destruct (hooks_of v).
Qed.

Lemma set_hooks_shaped v :
  truthy v = true -> is_object v = true -> shaped (set_hooks v (Obj [])).
Proof.
  intros Ht Ho. unfold shaped.
  destruct (set_hooks_object v (Obj [])) as [-> ->].
  split_and!; try done. eexists. by rewrite hooks_of_set_hooks.
Qed.

Lemma normalizeState_shaped v : shaped (normalizeState v).
Proof.
  rewrite normalizeState_cases.
  destruct (truthy v) eqn:Ht, (is_object v) eqn:Ho; cbn [andb];
    try (unfold shaped; split_and!; try done; by eexists).
  unfold lacks_hooks. destruct (hooks_of v) as [h|] eqn:Hh;
    [|by apply set_hooks_shaped].
  destruct (truthy h) eqn:Hth, (is_object h) eqn:Hoh; cbn [negb orb];
    try by apply set_hooks_shaped.
  unfold shaped. split_and!; try done. by eexists.
Qed.

(** A state that already has the shape goes through unchanged, which is
    why [persist] leaves a registry as it is. *)
Lemma normalizeState_id state : shaped state -> normalizeState state = state.
Proof.
  intros (Ht & Ho & h & Hh & Hth & Hoh).
  rewrite normalizeState_cases, Ht, Ho. unfold lacks_hooks.
  by rewrite Hh, Hth, Hoh.
Qed.

(** C7, as amended.  When the backing file is absent, [init] on a new
    store creates the parent directories, leaves the empty registry
    [{hooks: {}}] in memory and writes it out.  When the file can be read
    and holds a text that [JSON.parse] accepts, or no text at all, [init]
    does not fail and the state it keeps is normalized: a value that is
    not an object becomes the empty registry, and a [hooks] member that is
    missing or is not an object is replaced with an empty one.  When the
    file holds any other text, [init] fails with the parse error and
    leaves the state as it was. *)
Theorem init_normalizes (state v : value) (mk wr : option string) :
  init {| readFile := Fails "ENOENT"; mkdir := None; writeFile := None |}
    empty_state
  = (None, empty_state, [Mkdir true; Mkdir true; WriteFile empty_state]) /\
  init {| readFile := Content (Text v); mkdir := mk; writeFile := wr |} state
  = (None, normalizeState v, []) /\
  init {| readFile := Content Blank; mkdir := mk; writeFile := wr |} state
  = (None, empty_state, []) /\
  shaped (normalizeState v) /\
  normalizeState v
  = (if truthy v && is_object v
     then if lacks_hooks v then set_hooks v (Obj []) else v
     else empty_state) /\
  hooks_of (normalizeState v)
  = (if truthy v && is_object v && negb (lacks_hooks v) then hooks_of v
     else Some (Obj [])) /\
  init {| readFile := Content Garbage; mkdir := mk; writeFile := wr |} state
  = (Some SyntaxError, state, []).
Proof.
  split_and!; try done.
  - apply normalizeState_shaped.
  - apply normalizeState_cases.
  - rewrite normalizeState_cases.
    destruct (truthy v) eqn:Ht, (is_object v) eqn:Ho; cbn; try done.
    destruct (lacks_hooks v); cbn; [|done].
    by apply hooks_of_set_hooks.
Qed.

(** C7 as stated fails on a file that can be read but does not hold JSON,
    such as one cut short while being written: [JSON.parse] throws, the
    error has no [code], and [init] throws it again. *)
Lemma init_fails_on_malformed_text :
  init {| readFile := Content Garbage; mkdir := None; writeFile := None |}
    empty_state
  = (Some SyntaxError, empty_state, []).
Proof. reflexivity. Qed.

(** *** Object identity *)

Module RefsFacts.
Import Refs.

Lemma wf_own w slug l :
  wf w = true -> own (hooks w) slug = Some l ->
  exists hook m, records w !! l = Some hook /\
                 metadatas w !! Hook.metadata hook = Some m.
Proof.
  unfold wf, Object_values. intros Hwf Hown.
  assert (Hin : In l (map snd (hooks w))).
  { clear Hwf. induction (hooks w) as [|[k v] o IH]; cbn in *; [done|].
    destruct (String.eqb k slug); [left; congruence|right; auto]. }
  rewrite forallb_forall in Hwf. specialize (Hwf l Hin).
  unfold sound in Hwf. destruct (records w !! l) as [hook|]; [|done].
  apply bool_decide_eq_true in Hwf as [m Hm]. by exists hook, m.
Qed.

Lemma view_extends w w' slug :
  wf w = true -> extends w w' -> view w' slug = view w slug.
Proof.
  intros Hwf (Hh & Hr & Hm). unfold view. rewrite Hh.
  destruct (own (hooks w) slug) as [l|] eqn:Hown; [|done].
  destruct (wf_own w slug l Hwf Hown) as (hook & m & Hl & Hmeta).
  unfold deref. by rewrite (Hr _ _ Hl), Hl, (Hm _ _ Hmeta), Hmeta.
Qed.

Lemma fresh_record w l hook :
  records w !! l = Some hook -> l <> fresh (dom (records w)).
Proof.
  intros Hl ->. apply (is_fresh (dom (records w))).
  apply elem_of_dom. by eexists.
Qed.

Lemma fresh_metadata w l m :
  metadatas w !! l = Some m -> l <> fresh (dom (metadatas w)).
Proof.
  intros Hl ->. apply (is_fresh (dom (metadatas w))).
  apply elem_of_dom. by eexists.
Qed.

(** What [getHook] returns for a registered slug. *)
Lemma getHook_copies w slug l w1 :
  getHook slug w = Return (Some l) w1 ->
  l = fresh (dom (records w)) /\
  extends w w1 /\
  exists (hook : Hook.t loc) (m : value),
    view w slug = Some (rebind m hook) /\
    records w1 !! l = Some (rebind (fresh (dom (metadatas w))) hook) /\
    metadatas w1 !! fresh (dom (metadatas w)) = Some (stringify m).
Proof.
  unfold getHook, view, get.
  destruct (own (hooks w) slug) as [l0|]; [|by destruct (inherited slug)].
  unfold deref. destruct (records w !! l0) as [hook|] eqn:Hl0; [|done].
  destruct (metadatas w !! Hook.metadata hook) as [m|] eqn:Hm; [|done].
  intros [= <- <-]. split; [done|]. split.
  - split; [done|]. split; cbn.
    + intros l h Hl. rewrite lookup_insert_ne; [done|].
      intros <-. by eapply fresh_record.
    + intros l m' Hl. rewrite lookup_insert_ne; [done|].
      intros <-. by eapply fresh_metadata.
  - exists hook, m. cbn. by rewrite !lookup_insert_eq.
Qed.

Lemma perform_extends w w' l m x :
  records w !! l = None -> metadatas w !! m = None ->
  within l m x -> extends w w' -> extends w (perform x w').
Proof.
  intros Hl Hm Hx (Hh & Hr & Hmd).
  destruct x as [l' hook|m' v]; cbn in Hx; subst; cbn.
  - split; [done|]. split; [|done]. cbn. intros l' h Hl'.
    rewrite lookup_insert_ne; [by apply Hr|]. congruence.
  - split; [done|]. split; [done|]. cbn. intros m' v' Hm'.
    rewrite lookup_insert_ne; [by apply Hmd|]. congruence.
Qed.

Lemma writes_extend w w' l m xs :
  records w !! l = None -> metadatas w !! m = None ->
  Forall (within l m) xs -> extends w w' ->
  extends w (foldl (fun w x => perform x w) w' xs).
Proof.
  intros Hl Hm Hxs. revert w'.
  induction Hxs as [|x xs Hx Hxs IH]; intros w' Hext; cbn; [done|].
  apply IH. by eapply perform_extends.
Qed.

Lemma fresh_record_none w : records w !! fresh (dom (records w)) = None.
Proof. apply not_elem_of_dom, is_fresh. Qed.

Lemma fresh_metadata_none w : metadatas w !! fresh (dom (metadatas w)) = None.
Proof. apply not_elem_of_dom, is_fresh. Qed.

Lemma createHook_returns_stored w slug description metadata now l w1 :
  createHook slug description metadata now w = Return l w1 ->
  own (hooks w1) slug = Some l.
Proof.
  unfold createHook.
  destruct metadata as [m|];
    (destruct (get _ slug); try done;
     change attempts with (S 2); rewrite generateId_first_attempt;
     intros H; apply (f_equal (fun o => match o with
                                        | Return a w => Some (a, hooks w)
                                        | _ => None
                                        end)) in H;
     cbn [hooks with_hooks] in H; injection H as <- <-;
     apply own_assign_eq).
Qed.

Lemma clearLogs_returns_stored w slug l w1 :
  clearLogs slug w = Return l w1 ->
  own (hooks w) slug = Some l /\ own (hooks w1) slug = Some l /\
  exists hook, records w !! l = Some hook /\
               records w1 !! l = Some (Hook.clear hook).
Proof.
  unfold clearLogs. destruct (get (hooks w) slug) as [l0| |] eqn:G; try done.
  destruct (records w !! l0) as [hook|] eqn:Hl0; [|done].
  intros [= <- <-]. apply get_own in G. split_and!; try done.
  exists hook. cbn. by rewrite lookup_insert_eq.
Qed.

Lemma listHooks_shares w summary :
  summary ∈ listHooks w ->
  exists slug l hook,
    (slug, l) ∈ hooks w /\ records w !! l = Some hook /\
    summary = Summary.of_hook hook.
Proof.
  unfold listHooks, Object_values. intros H.
  apply list_elem_of_omap in H as (l & Hl & Hs).
  apply list_elem_of_fmap in Hl as ([slug l'] & -> & Hin).
  cbn in Hs. destruct (records w !! l') as [hook|] eqn:E; [|done].
  cbn in Hs. exists slug, l', hook. split_and!; [done|done|congruence].
Qed.

(** Seen through [view], the operations change a record exactly as they do
    in the store above. *)
Lemma recordHit_view w slug e e' w1 :
  recordHit slug e w = Return e' w1 ->
  view w1 slug = Hook.hit (logLimit w) e <$> view w slug.
Proof.
  unfold recordHit, view. destruct (get (hooks w) slug) as [l| |] eqn:G;
    try done.
  destruct (records w !! l) as [hook|] eqn:Hl; [|done].
  intros [= _ <-]. apply get_own in G. cbn [hooks with_records]. rewrite G.
  unfold deref. cbn [records metadatas with_records].
  rewrite lookup_insert_eq, Hl. cbn [Hook.hit Hook.metadata].
  by destruct (metadatas w !! Hook.metadata hook).
Qed.

Lemma clearLogs_view w slug l w1 :
  clearLogs slug w = Return l w1 ->
  view w1 slug = Hook.clear <$> view w slug.
Proof.
  unfold clearLogs, view. destruct (get (hooks w) slug) as [l0| |] eqn:G;
    try done.
  destruct (records w !! l0) as [hook|] eqn:Hl; [|done].
  intros [= _ <-]. apply get_own in G. cbn [hooks with_records]. rewrite G.
  unfold deref. cbn [records metadatas with_records].
  rewrite lookup_insert_eq, Hl. cbn [Hook.clear Hook.metadata].
  by destruct (metadatas w !! Hook.metadata hook).
Qed.

Lemma deleteHook_view w slug w1 :
  deleteHook slug w = Return true w1 -> view w1 slug = None.
Proof.
  unfold deleteHook, view. destruct (get (hooks w) slug); intros [= <-];
    cbn [hooks with_hooks]; by rewrite own_remove_eq.
Qed.

(** [getHook] returns a reference to the JSON copy of the record that
    the registry holds. *)
Lemma getHook_of_view w slug l (hook : Hook.t loc) m :
  own (hooks w) slug = Some l ->
  records w !! l = Some hook ->
  metadatas w !! Hook.metadata hook = Some m ->
  exists l' w1,
    getHook slug w = Return (Some l') w1 /\
    deref w1 l' = Some (JSON_copy (rebind m hook)).
Proof.
  intros Hown Hl Hm. apply get_own in Hown.
  unfold getHook. rewrite Hown, Hl, Hm. eexists _, _. split; [done|].
  unfold deref. cbn [records metadatas with_records with_metadatas].
  rewrite lookup_insert_eq. cbn [rebind Hook.metadata].
  by rewrite lookup_insert_eq.
Qed.

(** The same after a caller has given the registered record object the
    content [hook]. *)
Lemma getHook_after_write w slug l (hook : Hook.t loc) m :
  own (hooks w) slug = Some l ->
  metadatas w !! Hook.metadata hook = Some m ->
  exists l' w1,
    getHook slug (perform (SetRecord l hook) w) = Return (Some l') w1 /\
    deref w1 l' = Some (JSON_copy (rebind m hook)).
Proof.
  intros Hown Hm. apply (getHook_of_view _ _ l hook m); cbn; [done| |done].
  by rewrite lookup_insert_eq.
Qed.

Lemma listHooks_has w slug l (hook : Hook.t loc) :
  own (hooks w) slug = Some l -> records w !! l = Some hook ->
  Summary.of_hook hook ∈ listHooks w.
Proof.
  intros Hown Hl. unfold listHooks, Object_values.
  apply list_elem_of_omap. exists l. rewrite Hl. split; [|done].
  clear Hl. induction (hooks w) as [|[k v] o IH]; cbn in *; [done|].
  destruct (String.eqb k slug); [injection Hown as ->; left|right; auto].
Qed.

End RefsFacts.

(** C8, at the inputs where the code departs from it.  [createHook]
    and [clearLogs] return the very record object that the registry
    keeps under the slug: whatever content a caller gives that object,
    the next [getHook] for the slug returns the copy of that content.
    Each summary of [listHooks], itself a new object, carries the
    metadata object of the record it summarizes: whatever content a
    caller gives it is the metadata that the next [getHook] copies. *)
Theorem returned_records_are_live (w : Refs.world) :
  Refs.wf w = true ->
  (forall slug description metadata now l w1,
     Refs.createHook slug description metadata now w = Refs.Return l w1 ->
     own (Refs.hooks w1) slug = Some l /\
     forall hook m,
       Refs.metadatas w1 !! Hook.metadata hook = Some m ->
       exists l' w2,
         Refs.getHook slug (Refs.perform (Refs.SetRecord l hook) w1)
         = Refs.Return (Some l') w2 /\
         Refs.deref w2 l' = Some (JSON_copy (Refs.rebind m hook))) /\
  (forall slug l w1,
     Refs.clearLogs slug w = Refs.Return l w1 ->
     own (Refs.hooks w) slug = Some l /\
     own (Refs.hooks w1) slug = Some l /\
     forall hook m,
       Refs.metadatas w1 !! Hook.metadata hook = Some m ->
       exists l' w2,
         Refs.getHook slug (Refs.perform (Refs.SetRecord l hook) w1)
         = Refs.Return (Some l') w2 /\
         Refs.deref w2 l' = Some (JSON_copy (Refs.rebind m hook))) /\
  (forall slug l,
     own (Refs.hooks w) slug = Some l ->
     exists hook summary,
       Refs.records w !! l = Some hook /\
       summary ∈ Refs.listHooks w /\
       summary = Summary.of_hook hook /\
       forall m,
       exists l' w2,
         Refs.getHook slug
           (Refs.perform (Refs.SetMetadata (Summary.metadata summary) m) w)
         = Refs.Return (Some l') w2 /\
         Refs.deref w2 l' = Some (JSON_copy (Refs.rebind m hook))).
Proof.
  intros Hwf. split_and!.
  - intros slug d md now l w1 Hc.
    pose proof (RefsFacts.createHook_returns_stored _ _ _ _ _ _ _ Hc) as Hown.
    split; [done|]. intros hook m Hm.
    by apply RefsFacts.getHook_after_write.
  - intros slug l w1 Hc.
    destruct (RefsFacts.clearLogs_returns_stored w slug l w1 Hc)
      as (H0 & H1 & _).
    split; [done|]. split; [done|]. intros hook m Hm.
    by apply RefsFacts.getHook_after_write.
  - intros slug l Hown.
    destruct (RefsFacts.wf_own w slug l Hwf Hown) as (hook & _ & Hl & _).
    exists hook, (Summary.of_hook hook). split; [done|].
    split; [by eapply RefsFacts.listHooks_has|]. split; [done|].
    intros m. cbn [Summary.of_hook Summary.metadata].
    apply (RefsFacts.getHook_of_view _ _ l hook m); cbn; [done|done|].
    by rewrite lookup_insert_eq.
Qed.

Lemma returned_records_are_live_witness :
  Refs.wf Refs.one_hook = true /\
  (forall slug description metadata now l w1,
     Refs.createHook slug description metadata now Refs.one_hook
     = Refs.Return l w1 ->
     own (Refs.hooks w1) slug = Some l /\
     forall hook m,
       Refs.metadatas w1 !! Hook.metadata hook = Some m ->
       exists l' w2,
         Refs.getHook slug (Refs.perform (Refs.SetRecord l hook) w1)
         = Refs.Return (Some l') w2 /\
         Refs.deref w2 l' = Some (JSON_copy (Refs.rebind m hook))) /\
  (forall slug l w1,
     Refs.clearLogs slug Refs.one_hook = Refs.Return l w1 ->
     own (Refs.hooks Refs.one_hook) slug = Some l /\
     own (Refs.hooks w1) slug = Some l /\
     forall hook m,
       Refs.metadatas w1 !! Hook.metadata hook = Some m ->
       exists l' w2,
         Refs.getHook slug (Refs.perform (Refs.SetRecord l hook) w1)
         = Refs.Return (Some l') w2 /\
         Refs.deref w2 l' = Some (JSON_copy (Refs.rebind m hook))) /\
  (forall slug l,
     own (Refs.hooks Refs.one_hook) slug = Some l ->
     exists hook summary,
       Refs.records Refs.one_hook !! l = Some hook /\
       summary ∈ Refs.listHooks Refs.one_hook /\
       summary = Summary.of_hook hook /\
       forall m,
       exists l' w2,
         Refs.getHook slug
           (Refs.perform (Refs.SetMetadata (Summary.metadata summary) m)
              Refs.one_hook)
         = Refs.Return (Some l') w2 /\
         Refs.deref w2 l' = Some (JSON_copy (Refs.rebind m hook))).
Proof.
  split; [reflexivity|].
  apply (returned_records_are_live Refs.one_hook). reflexivity.
Defined.

(** The three departures on a store that is new.  The record
    [createHook] returned counts no hit; the caller sets [hits] to 7 on
    it, and [getHook] returns a record with 7 hits.  The same happens
    with the record [clearLogs] returned.  The caller then gives the
    metadata object of a summary of [listHooks] a member, and [getHook]
    returns a record whose metadata has that member. *)
Example returned_record_is_live :
  exists l w1 l' w2 l2 w3 l3 w4 summary l4 w5,
    Refs.createHook "email1" "" None 7%Z Refs.blank = Refs.Return l w1 /\
    Hook.hits <$> Refs.view w1 "email1" = Some 0%Z /\
    Refs.getHook "email1"
      (Refs.perform
         (Refs.SetRecord l
            (Hook.mk "AAAAAAAAAA" "email1" "" 1%positive 7%Z None 7%Z []))
         w1)
    = Refs.Return (Some l') w2 /\
    Hook.hits <$> Refs.deref w2 l' = Some 7%Z /\
    Refs.clearLogs "email1" w2 = Refs.Return l2 w3 /\
    Hook.hits <$> Refs.view w3 "email1" = Some 0%Z /\
    Refs.getHook "email1"
      (Refs.perform
         (Refs.SetRecord l2
            (Hook.mk "AAAAAAAAAA" "email1" "" 1%positive 7%Z None 7%Z []))
         w3)
    = Refs.Return (Some l3) w4 /\
    Hook.hits <$> Refs.deref w4 l3 = Some 7%Z /\
    Refs.listHooks w4 = [summary] /\
    Hook.metadata <$> Refs.view w4 "email1" = Some (Obj []) /\
    Refs.getHook "email1"
      (Refs.perform
         (Refs.SetMetadata (Summary.metadata summary)
            (Obj [("owner", Str "me")]))
         w4)
    = Refs.Return (Some l4) w5 /\
    Hook.metadata <$> Refs.deref w5 l4 = Some (Obj [("owner", Str "me")]).
Proof.
  eexists _, _, _, _, _, _, _, _, _, _, _.
  split_and!; vm_compute; reflexivity.
Qed.

(** *** The MongoDB-backed store gives the same records *)

Module MongoFacts.
Import Mongo.

Lemma extract_respond w r : extractValue (respond w r) = r.
Proof. unfold respond. destruct (wraps w), r; done. Qed.

Lemma findOneAndUpdate_found slug update c d :
  (forall h, Hook.slug (update h) = Hook.slug h) ->
  findOne slug c = Some d ->
  exists d' c',
    findOneAndUpdate slug update c = (Some d', c') /\
    fields d' = update (fields d) /\
    findOne slug c' = Some d'.
Proof.
  intros Hslug. unfold findOne.
  induction c as [|d0 c IH]; cbn; [done|].
  destruct (has_slug slug d0) eqn:E.
  - intros [= ->]. eexists _, _. split; [done|]. split; [done|].
    cbn. unfold has_slug in *. cbn. by rewrite Hslug, E.
  - intros Hf. destruct (IH Hf) as (d' & c' & -> & Hd' & Hc').
    eexists _, _. split; [done|]. split; [done|]. cbn. by rewrite E.
Qed.

Lemma findOneAndUpdate_missing slug update c :
  findOne slug c = None -> findOneAndUpdate slug update c = (None, c).
Proof.
  unfold findOne. induction c as [|d0 c IH]; cbn; [done|].
  destruct (has_slug slug d0); [done|]. intros Hf. by rewrite IH.
Qed.

(** With a limit that is a length, the update document of [recordHit]
    changes a record exactly as the file-backed store does. *)
Lemma hit_same_record (L : nat) e (hook : Hook.t value) :
  hit (Z.of_nat L) e hook = Hook.hit (of_nat L) e hook.
Proof.
  unfold hit, Hook.hit, push_front_slice.
  rewrite length_gt_of_nat, slice0_of_nat, Nat2Z.id.
  destruct (Z.ltb_spec (Z.of_nat L) 0); [lia|].
  f_equal. cbn [app].
  destruct (Nat.leb_spec (length (e :: Hook.logs hook)) L); cbn [negb];
    [by rewrite take_ge|done].
Qed.

Lemma mongo_recordHit_found slug e w d (L : nat) :
  logLimit w = Z.of_nat L ->
  findOne slug (collection w) = Some d ->
  exists w' d',
    recordHit slug e w = Return e w' /\
    findOne slug (collection w') = Some d' /\
    fields d' = Hook.hit (of_nat L) e (fields d) /\
    logLimit w' = logLimit w.
Proof.
  intros HL Hf. unfold recordHit.
  destruct (findOneAndUpdate_found slug (hit (logLimit w) e) _ d
              (fun _ => eq_refl) Hf) as (d' & c' & -> & Hd' & Hc').
  rewrite extract_respond. eexists _, d'. split; [done|].
  split; [done|]. split; [|done]. by rewrite Hd', HL, hit_same_record.
Qed.

Lemma mongo_recordHits slug es w d (L : nat) :
  logLimit w = Z.of_nat L ->
  findOne slug (collection w) = Some d ->
  exists w' d',
    recordHits slug es w = Some w' /\
    findOne slug (collection w') = Some d' /\
    fields d' = hit_all (of_nat L) es (fields d).
Proof.
  revert w d. induction es as [|e es IH]; intros w d HL Hf; cbn.
  - by exists w, d.
  - destruct (mongo_recordHit_found slug e w d L HL Hf)
      as (w1 & d1 & -> & Hf1 & Hd1 & HL1).
    destruct (IH w1 d1) as (w' & d' & Hr & Hf' & Hd'); [congruence|done|].
    exists w', d'. split; [done|]. split; [done|].
    rewrite Hd', Hd1. done.
Qed.

(** The retention property of the file-backed store, for this store. *)
Lemma mongo_recordHit_retention slug es w d (L : nat) :
  logLimit w = Z.of_nat L ->
  findOne slug (collection w) = Some d ->
  L < length es ->
  exists w' hook,
    recordHits slug es w = Some w' /\
    getHook slug w' = Return (Some hook) w' /\
    length (Hook.logs hook) = L /\
    Hook.logs hook = reverse (drop (length es - L) es) /\
    Hook.hits hook = (Hook.hits (fields d) + Z.of_nat (length es))%Z.
Proof.
  intros HL Hf Hlen.
  destruct (mongo_recordHits slug es w d L HL Hf) as (w' & d' & Hr & Hf' & Hd').
  exists w', (sanitized d'). split; [done|].
  split; [unfold getHook; by rewrite Hf'|].
  cbn [sanitized Hook.logs Hook.hits].
  rewrite Hd', hit_all_retains, hit_all_hits by done.
  rewrite length_reverse, length_drop. split_and!; [lia|done|done].
Qed.

(** The not-found error, and the idempotence of [clearLogs]. *)
Lemma mongo_unknown_slug slug e w :
  findOne slug (collection w) = None ->
  recordHit slug e w = Throw (unknown slug) w /\
  clearLogs slug w = Throw (unknown slug) w /\
  deleteHook slug w = Return false w.
Proof.
  intros Hf. unfold recordHit, clearLogs, deleteHook.
  rewrite !findOneAndUpdate_missing, !extract_respond by done.
  assert (Hd : deleteOne slug (collection w) = (0, collection w)).
  { revert Hf. unfold findOne. induction (collection w) as [|d0 c IH]; cbn;
      [done|]. destruct (has_slug slug d0); [done|]. intros Hf.
    by rewrite IH. }
  rewrite Hd. by destruct w.
Qed.

Lemma mongo_clearLogs_idempotent slug w d :
  findOne slug (collection w) = Some d ->
  exists cleared w1 w2,
    clearLogs slug w = Return cleared w1 /\
    clearLogs slug w1 = Return cleared w2 /\
    getHook slug w2 = Return (Some cleared) w2 /\
    cleared
    = Hook.mk (Hook.id (fields d)) (Hook.slug (fields d))
        (Hook.description (fields d)) (or_object (Hook.metadata (fields d)))
        (Hook.createdAt (fields d)) None 0 [].
Proof.
  intros Hf.
  destruct (findOneAndUpdate_found slug Hook.clear _ d (fun _ => eq_refl) Hf)
    as (d1 & c1 & H1 & Hd1 & Hc1).
  destruct (findOneAndUpdate_found slug Hook.clear _ d1 (fun _ => eq_refl) Hc1)
    as (d2 & c2 & H2 & Hd2 & Hc2).
  assert (Hd : fields d2 = Hook.clear (fields d)) by by rewrite Hd2, Hd1.
  exists (sanitized d1), (with_collection c1 w),
    (with_collection c2 (with_collection c1 w)).
  unfold clearLogs, getHook. cbn [collection with_collection].
  rewrite H1, H2, !extract_respond, Hc2. cbn [sanitizeHook fmap option_fmap option_map].
  unfold sanitized. rewrite Hd, Hd1. done.
Qed.

End MongoFacts.

(** *** Scenarios of the specification *)

(** Creating ["a"] twice gives the conflict error the second time. *)
Example create_twice_conflicts :
  exists hook w1,
    createHook "a" "" (Obj []) 1%Z blank = Return hook w1 /\
    createHook "a" "" (Obj []) 2%Z w1 = Throw (conflict "a") w1.
Proof. eexists _, _. split; reflexivity. Qed.

(** Creating ["a"], deleting it and creating it again succeeds. *)
Example create_delete_recreate :
  exists hook w1 w2 hook' w3,
    createHook "a" "" (Obj []) 1%Z blank = Return hook w1 /\
    deleteHook "a" w1 = Return true w2 /\
    getHook "a" w2 = Return None w2 /\
    createHook "a" "" (Obj []) 2%Z w2 = Return hook' w3 /\
    Hook.createdAt hook' = 2%Z /\ Hook.hits hook' = 0%Z.
Proof. eexists _, _, _, _, _. split_and!; reflexivity. Qed.

(** After one delivery to ["email1"], [getHook] shows [hits = 1] and the
    delivery at the head of [logs]. *)
Example one_delivery :
  exists w1 hook,
    run [Call (RecordHit "email1" (delivery 9))] flushing = Some w1 /\
    getHook "email1" w1 = Return (Some hook) w1 /\
    Hook.hits hook = 1%Z /\
    Hook.lastHit hook = Some 9%Z /\
    Hook.logs hook = [delivery 9] /\
    Entry.isJson (delivery 9) = true.
Proof. eexists _, _. split_and!; reflexivity. Qed.

(** Keys that are array indices are enumerated first, in numeric order,
    whatever the order of creation. *)
Example enumeration_order :
  map fst (assign (assign (assign (assign [] "b" 1) "10" 2) "9" 3) "a" 4)
  = ["9"; "10"; "b"; "a"].
Proof. reflexivity. Qed.

(** * Further properties of the store *)

(** ** Statistics *)

Section statistics_facts.
Context {M : Type}.
Implicit Types (hs : list (Hook.t M)) (acc : Tally.t).

Lemma visit_log_fold cutoff s acc logs :
  let acc' := foldl (visit_log cutoff) acc logs in
  Tally.totalHits acc' = Tally.totalHits acc /\
  Tally.lastCreatedAt acc' = Tally.lastCreatedAt acc /\
  Tally.lastPayloadAt acc'
  = foldl latest (Tally.lastPayloadAt acc)
      (map Recent.timestamp (map (Recent.of_log s) logs)) /\
  Tally.last24hHits acc'
  = Tally.last24hHits acc +
    length (List.filter (fun e => (cutoff <=? Recent.timestamp e)%Z)
              (map (Recent.of_log s) logs)).
Proof.
  revert acc; induction logs as [|log logs IH]; intros acc; cbn.
  - split_and!; try reflexivity. lia.
  - destruct (IH (visit_log cutoff acc log)) as (H1 & H2 & H3 & H4).
    rewrite H1, H2, H3, H4; cbn.
    split_and!; try reflexivity.
    destruct (cutoff <=? Entry.timestamp log)%Z; cbn; lia.
Qed.

Lemma visit_hook_fold cutoff acc hs :
  let acc' := foldl (visit_hook cutoff) acc hs in
  Tally.totalHits acc' = (Tally.totalHits acc + sum_hits hs)%Z /\
  Tally.lastCreatedAt acc'
  = foldl latest (Tally.lastCreatedAt acc) (map Hook.createdAt hs) /\
  Tally.lastPayloadAt acc'
  = foldl latest (Tally.lastPayloadAt acc) (map Recent.timestamp (items hs)) /\
  Tally.last24hHits acc'
  = Tally.last24hHits acc +
    length (List.filter (fun e => (cutoff <=? Recent.timestamp e)%Z)
              (items hs)).
Proof.
  revert acc; induction hs as [|hook hs IH]; intros acc; cbn.
  - split_and!; try reflexivity; unfold sum_hits; cbn; lia.
  - destruct (IH (visit_hook cutoff acc hook)) as (H1 & H2 & H3 & H4).
    rewrite H1, H2, H3, H4. unfold visit_hook.
    match goal with |- context [foldl (visit_log cutoff) ?a _] =>
      destruct (visit_log_fold cutoff (Hook.slug hook) a (Hook.logs hook))
        as (G1 & G2 & G3 & G4) end.
    rewrite G1, G2, G3, G4; cbn.
    rewrite map_app, foldl_app, List.filter_app, length_app.
    split_and!; try reflexivity; unfold sum_hits, items; cbn; lia.
Qed.

End statistics_facts.

(** The latest of a run of times that are all after the epoch. *)
Lemma foldl_latest_max (l : list Z) (a : Z) :
  (0 < a)%Z -> Forall (fun t => (0 < t)%Z) l ->
  exists m, foldl latest (Some a) l = Some m /\ (0 < m)%Z /\
            (m = a \/ In m l) /\ (a <= m)%Z /\ Forall (fun t => (t <= m)%Z) l.
Proof.
  intros Ha Hl; revert a Ha; induction Hl as [|t l Ht Hl IH]; intros a Ha; cbn.
  - exists a; split_and!; auto; lia.
  - unfold latest at 2; cbn.
    replace (a =? 0)%Z with false by lia; cbn.
    destruct (a <? t)%Z eqn:E.
    + destruct (IH t Ht) as (m & -> & Hm & Hin & Hle & Hall).
      exists m; split_and!; auto.
      * destruct Hin; auto.
      * lia.
    + destruct (IH a Ha) as (m & -> & Hm & Hin & Hle & Hall).
      exists m; split_and!; auto.
      * destruct Hin; auto.
      * constructor; [lia | done].
Qed.

Lemma foldl_latest_none (l : list Z) :
  Forall (fun t => (0 < t)%Z) l ->
  match foldl latest None l with
  | None => l = []
  | Some m => (0 < m)%Z /\ In m l /\ Forall (fun t => (t <= m)%Z) l
  end.
Proof.
  intros Hl; destruct Hl as [|t l Ht Hl]; cbn; [done|].
  destruct (foldl_latest_max l t Ht Hl) as (m & -> & Hm & Hin & Hle & Hall).
  split_and!; auto.
  destruct Hin; auto.
Qed.

Lemma tell_positive (x : option Z) :
  match x with Some m => (0 < m)%Z | None => True end -> tell x = x.
Proof.
  destruct x as [m|]; [|done]; intros Hm; unfold tell; cbn.
  replace (m =? 0)%Z with false by lia; done.
Qed.

(** The first item of a sorted feed carries the latest timestamp. *)
Lemma sorted_head_max (l : list Recent.t) :
  StronglySorted newer_first l ->
  match l with
  | [] => True
  | x :: _ => Forall (fun e => (Recent.timestamp e <= Recent.timestamp x)%Z) l
  end.
Proof.
  intros Hs; destruct Hs as [|x l Hs Hx]; [done|].
  constructor; [lia | exact Hx].
Qed.

(** *** The registry after a call *)

Section registry_facts.
Context {V : Type}.
Implicit Types (o : object V) (k : string) (v : V).

Lemma length_replace o k v : length (replace o k v) = length o.
Proof.
  induction o as [|[k' v'] o IH]; cbn; [done|].
  destruct (String.eqb k' k); cbn; congruence.
Qed.

Lemma length_add_key o k v : length (add_key o k v) = S (length o).
Proof.
  induction o as [|[k' v'] o IH]; cbn; [done|].
  destruct (goes_before k k'); cbn; congruence.
Qed.

Lemma remove_add_key o k v : own o k = None -> remove (add_key o k v) k = o.
Proof.
  unfold remove. induction o as [|[k' v'] o IH]; cbn.
  - by rewrite String.eqb_refl.
  - destruct (String.eqb k' k) eqn:E; [done|]. intros H.
    destruct (goes_before k k'); cbn.
    + rewrite String.eqb_refl, E; cbn. f_equal.
      fold (remove o k). by apply remove_absent.
    + rewrite E; cbn. by rewrite IH.
Qed.

Lemma add_key_perm o k v : add_key o k v ≡ₚ (k, v) :: o.
Proof.
  induction o as [|[k' v'] o IH]; cbn; [done|].
  destruct (goes_before k k'); [done|].
  rewrite IH. apply Permutation_swap.
Qed.

Lemma Forall_replace (P : string * V -> Prop) o k v :
  Forall P o -> P (k, v) -> Forall P (replace o k v).
Proof.
  intros Ho Hv; induction Ho as [|[k' v'] o Hx Ho IH]; cbn; [done|].
  destruct (String.eqb k' k) eqn:E.
  - apply String.eqb_eq in E as ->. by constructor.
  - by constructor.
Qed.

Lemma Forall_remove (P : string * V -> Prop) o k :
  Forall P o -> Forall P (remove o k).
Proof.
  unfold remove; intros Ho; induction Ho as [|[k' v'] o Hx Ho IH]; cbn; [done|].
  destruct (String.eqb k' k); cbn; [done|by constructor].
Qed.

Lemma own_In o k v : own o k = Some v -> In (k, v) o.
Proof.
  induction o as [|[k' v'] o IH]; cbn; [done|].
  destruct (String.eqb k' k) eqn:E.
  - apply String.eqb_eq in E as ->. intros [= ->]. by left.
  - auto.
Qed.

Lemma In_own o k v : In (k, v) o -> own o k <> None.
Proof.
  induction o as [|[k' v'] o IH]; cbn; [done|].
  intros [[= -> ->]|Hin].
  - by rewrite String.eqb_refl.
  - destruct (String.eqb k' k); [done|auto].
Qed.

Lemma map_fst_replace o k v : map fst (replace o k v) = map fst o.
Proof.
  induction o as [|[k' v'] o IH]; cbn; [done|].
  destruct (String.eqb k' k); cbn; congruence.
Qed.

End registry_facts.

(** What a call that returns or throws leaves in the registry. *)
Lemma invoke_registry c w w1 :
  invoke c w = Some w1 ->
  hooks w1 = hooks w \/
  match c with
  | CreateHook slug description metadata now =>
      own (hooks w) slug = None /\
      exists id, hooks w1
        = add_key (hooks w) slug (Hook.fresh id slug description metadata now)
  | DeleteHook slug => hooks w1 = remove (hooks w) slug
  | RecordHit slug e =>
      exists hook, own (hooks w) slug = Some hook /\
        hooks w1 = replace (hooks w) slug (Hook.hit (logLimit w) e hook)
  | ClearLogs slug =>
      exists hook, own (hooks w) slug = Some hook /\
        hooks w1 = replace (hooks w) slug (Hook.clear hook)
  end.
Proof.
  intros Hc.
  destruct c as [slug d m now|slug|slug e|slug]; cbn [invoke] in Hc.
  - destruct (get (hooks w) slug) eqn:G.
    1,2: rewrite createHook_taken in Hc by (by rewrite G);
         cbn in Hc; simplify_eq; auto.
    rewrite createHook_unregistered in Hc by done. cbn [after] in Hc.
    apply (inj Some) in Hc as <-. right.
    apply get_undefined in G as [G _]. split; [done|].
    rewrite hooks_schedulePersist. cbn [hooks with_hooks].
    unfold assign. rewrite G. by eexists.
  - unfold deleteHook in Hc. destruct (get (hooks w) slug) eqn:G;
      cbn in Hc; simplify_eq; auto;
      right; by rewrite hooks_schedulePersist.
  - unfold recordHit in Hc. destruct (get (hooks w) slug) eqn:G;
      cbn in Hc; simplify_eq; auto.
    right. apply get_own in G. rewrite hooks_schedulePersist. by eexists.
  - unfold clearLogs in Hc. destruct (get (hooks w) slug) eqn:G;
      cbn in Hc; simplify_eq; auto.
    right. apply get_own in G. rewrite hooks_schedulePersist. by eexists.
Qed.

Lemma sum_hits_replace {M} (o : object (Hook.t M)) k old new :
  own o k = Some old ->
  sum_hits (Object_values (replace o k new))
  = (sum_hits (Object_values o) - Hook.hits old + Hook.hits new)%Z.
Proof.
  unfold sum_hits, Object_values.
  induction o as [|[k' v'] o IH]; cbn; [done|].
  destruct (String.eqb k' k) eqn:E; cbn.
  - intros [= ->]. lia.
  - intros H. rewrite IH by done. lia.
Qed.

Lemma sum_hits_add_key {M} (o : object (Hook.t M)) k v :
  sum_hits (Object_values (add_key o k v))
  = (Hook.hits v + sum_hits (Object_values o))%Z.
Proof.
  unfold sum_hits, Object_values.
  induction o as [|[k' v'] o IH]; cbn; [done|].
  destruct (goes_before k k'); cbn; [done|]. rewrite IH. lia.
Qed.

Lemma statistics_totals {M} now (hs : list (Hook.t M)) :
  Stats.totalWebhooks (statistics now hs) = length hs /\
  Stats.totalHits (statistics now hs) = sum_hits hs /\
  Stats.hitsLast24h (statistics now hs)
  = length (List.filter (within_24h now) (items hs)).
Proof.
  unfold statistics; cbn.
  match goal with |- context [foldl (visit_hook ?c) ?a hs] =>
    destruct (visit_hook_fold c a hs) as (H1 & _ & _ & H4) end.
  rewrite H1, H4. split_and!; reflexivity.
Qed.

Lemma statistics_lastPayloadAt {M} now (hs : list (Hook.t M)) :
  Forall (fun e => (0 < Recent.timestamp e)%Z) (items hs) ->
  match Stats.lastPayloadAt (statistics now hs) with
  | None => items hs = []
  | Some m =>
      In m (map Recent.timestamp (items hs)) /\
      Forall (fun e => (Recent.timestamp e <= m)%Z) (items hs)
  end.
Proof.
  intros Hpos. unfold statistics; cbn.
  match goal with |- context [foldl (visit_hook ?c) ?a hs] =>
    destruct (visit_hook_fold c a hs) as (_ & _ & H3 & _) end.
  rewrite H3; cbn.
  assert (Hpos' : Forall (fun t => (0 < t)%Z) (map Recent.timestamp (items hs)))
    by (apply List.Forall_map; exact Hpos).
  pose proof (foldl_latest_none _ Hpos') as Hm.
  destruct (foldl latest None _) as [m|] eqn:E.
  - destruct Hm as (Hm & Hin & Hall).
    rewrite (tell_positive (Some m)) by done.
    split; [done|].
    apply (proj1 (List.Forall_map Recent.timestamp (fun t => (t <= m)%Z) _)).
    exact Hall.
  - cbn. by apply map_eq_nil in Hm.
Qed.

(** X1.  The totals of [getStats] are those of the registry:
    [totalWebhooks] is the number of hooks and [totalHits] the sum of
    their [hits], which are also the number of summaries [listHooks]
    returns and the sum of the [hits] they show; [hitsLast24h] is the
    number of retained log entries whose timestamp is at most 24 hours
    before [now], so that it never exceeds the number of retained
    entries. *)
Theorem getStats_totals (now : timestamp) (w : world) :
  Stats.totalWebhooks (getStats now w) = length (hooks w) /\
  Stats.totalWebhooks (getStats now w) = length (listHooks w) /\
  Stats.totalHits (getStats now w)
  = foldr (fun s n => (Summary.hits s + n)%Z) 0%Z (listHooks w) /\
  Stats.hitsLast24h (getStats now w)
  = length (List.filter (within_24h now) (entries (hooks w))) /\
  Stats.hitsLast24h (getStats now w) <= length (entries (hooks w)).
Proof.
  unfold getStats, listHooks.
  destruct (statistics_totals now (Object_values (hooks w))) as (H1 & H2 & H3).
  rewrite H1, H2, H3. clear H1 H2 H3.
  unfold Object_values. rewrite !length_map.
  split_and!; try reflexivity.
  - unfold sum_hits. induction (hooks w) as [|[k h] r IH]; cbn; [done|].
    by rewrite IH.
  - apply List.filter_length_le.
Qed.

Lemma statistics_lastCreatedAt {M} now (hs : list (Hook.t M)) :
  Forall (fun h => (0 < Hook.createdAt h)%Z) hs ->
  match Stats.lastWebhookCreatedAt (statistics now hs) with
  | None => hs = []
  | Some m =>
      In m (map Hook.createdAt hs) /\
      Forall (fun h => (Hook.createdAt h <= m)%Z) hs
  end.
Proof.
  intros Hpos. unfold statistics; cbn.
  match goal with |- context [foldl (visit_hook ?c) ?a hs] =>
    destruct (visit_hook_fold c a hs) as (_ & H2 & _ & _) end.
  rewrite H2; cbn.
  assert (Hpos' : Forall (fun t => (0 < t)%Z) (map Hook.createdAt hs))
    by (apply List.Forall_map; exact Hpos).
  pose proof (foldl_latest_none _ Hpos') as Hm.
  destruct (foldl latest None _) as [m|] eqn:E.
  - destruct Hm as (Hm & Hin & Hall).
    rewrite (tell_positive (Some m)) by done.
    split; [done|].
    apply (proj1 (List.Forall_map Hook.createdAt (fun t => (t <= m)%Z) _)).
    exact Hall.
  - cbn. by apply map_eq_nil in Hm.
Qed.

Lemma Forall_slice0 {A} (P : A -> Prop) (a : list A) (x : number) :
  Forall P a -> Forall P (slice0 a x).
Proof.
  intros Ha. destruct x as [| | |q]; cbn; auto.
  destruct (truncate q <? 0)%Z; by apply Forall_take.
Qed.

Lemma Forall_listRecentEntries (P : Recent.t -> Prop) limit w :
  Forall P (entries (hooks w)) -> Forall P (listRecentEntries limit w).
Proof.
  intros H. apply Forall_slice0. by rewrite sort_perm.
Qed.

Lemma head_listRecentEntries limit w :
  head (listRecentEntries limit w) = head (sort (entries (hooks w))).
Proof.
  unfold listRecentEntries.
  destruct (safeLimit_effective limit) as (c & -> & Hc & Hn).
  rewrite slice0_from_one by done. rewrite Hn.
  pose proof (effective_limit_range limit) as [Hr _].
  destruct (effective_limit limit) as [|n]; [lia|].
  by destruct (sort _).
Qed.

(** X2.  When every retained log entry is stamped after the epoch,
    [lastPayloadAt] of [getStats] is the timestamp of the first item of
    the feed [listRecentEntries] returns, whatever the limit, and is
    [null] exactly when the feed is empty. *)
Theorem getStats_lastPayloadAt (now : timestamp) (limit : argument)
    (w : world) :
  Forall (fun e => (0 < Recent.timestamp e)%Z) (entries (hooks w)) ->
  Stats.lastPayloadAt (getStats now w)
  = Recent.timestamp <$> head (listRecentEntries limit w).
Proof.
  intros Hpos. rewrite head_listRecentEntries.
  pose proof (statistics_lastPayloadAt now (Object_values (hooks w)) Hpos) as Hm.
  change (items (Object_values (hooks w))) with (entries (hooks w)) in Hm.
  fold (getStats now w) in Hm.
  pose proof (sort_perm (entries (hooks w))) as Hp.
  pose proof (sorted_head_max _ (sort_sorted (entries (hooks w)))) as Hs.
  destruct (Stats.lastPayloadAt (getStats now w)) as [m|].
  - destruct Hm as (Hin & Hall).
    destruct (sort (entries (hooks w))) as [|x l] eqn:E.
    + apply Permutation_nil in Hp. rewrite Hp in Hin. done.
    + cbn. f_equal.
      apply in_map_iff in Hin as (e & <- & Hin).
      assert (Hx : In x (entries (hooks w))).
      { apply list_elem_of_In. rewrite <- Hp. left. }
      assert (He : In e (x :: l)).
      { apply list_elem_of_In. rewrite Hp. by apply list_elem_of_In. }
      rewrite List.Forall_forall in Hall, Hs.
      specialize (Hall x Hx). specialize (Hs e He). lia.
  - by rewrite Hm.
Qed.

Lemma getStats_lastPayloadAt_witness :
  Forall (fun e => (0 < Recent.timestamp e)%Z) (entries (hooks reopened)) /\
  Stats.lastPayloadAt (getStats 10%Z reopened)
  = Recent.timestamp <$> head (listRecentEntries Omitted reopened).
Proof.
  assert (H : Forall (fun e => (0 < Recent.timestamp e)%Z)
                (entries (hooks reopened))).
  { cbn. repeat constructor. }
  split; [exact H | exact (getStats_lastPayloadAt 10%Z Omitted reopened H)].
Defined.

(** X3.  When every hook was created after the epoch,
    [lastWebhookCreatedAt] of [getStats] is the latest [createdAt] of the
    registry: the [createdAt] of some hook, which no hook exceeds; it is
    [null] exactly when there is no hook. *)
Theorem getStats_lastWebhookCreatedAt (now : timestamp) (w : world) :
  Forall (fun h => (0 < Hook.createdAt h)%Z) (Object_values (hooks w)) ->
  match Stats.lastWebhookCreatedAt (getStats now w) with
  | None => hooks w = []
  | Some m =>
      (exists hook, In hook (Object_values (hooks w)) /\
                    Hook.createdAt hook = m) /\
      Forall (fun h => (Hook.createdAt h <= m)%Z) (Object_values (hooks w))
  end.
Proof.
  intros Hpos.
  pose proof (statistics_lastCreatedAt now _ Hpos) as Hm.
  fold (getStats now w) in Hm.
  destruct (Stats.lastWebhookCreatedAt (getStats now w)) as [m|].
  - destruct Hm as (Hin & Hall). split; [|done].
    apply in_map_iff in Hin as (h & <- & Hin). by exists h.
  - by apply map_eq_nil in Hm.
Qed.

Lemma getStats_lastWebhookCreatedAt_witness :
  Forall (fun h => (0 < Hook.createdAt h)%Z) (Object_values (hooks flushing)) /\
  match Stats.lastWebhookCreatedAt (getStats 10%Z flushing) with
  | None => hooks flushing = []
  | Some m =>
      (exists hook, In hook (Object_values (hooks flushing)) /\
                    Hook.createdAt hook = m) /\
      Forall (fun h => (Hook.createdAt h <= m)%Z)
        (Object_values (hooks flushing))
  end.
Proof.
  assert (H : Forall (fun h => (0 < Hook.createdAt h)%Z)
                (Object_values (hooks flushing))).
  { vm_compute. repeat constructor. }
  split; [exact H | exact (getStats_lastWebhookCreatedAt 10%Z flushing H)].
Defined.

Lemma getStats_hooks now w w' : hooks w' = hooks w -> getStats now w' = getStats now w.
Proof. unfold getStats. by intros ->. Qed.

(** X4.  On a registered slug, [recordHit] raises [totalHits] of
    [getStats] by exactly one and [clearLogs] lowers it by the [hits] of
    the hook it resets; neither changes [totalWebhooks]. *)
Theorem getStats_after_recordHit (now : timestamp) (slug : string)
    (e : Entry.t) (hook : Hook.t value) (w : world) :
  get (hooks w) slug = Own hook ->
  exists w1 cleared w2,
    recordHit slug e w = Return e w1 /\
    Stats.totalHits (getStats now w1)
    = (Stats.totalHits (getStats now w) + 1)%Z /\
    Stats.totalWebhooks (getStats now w1)
    = Stats.totalWebhooks (getStats now w) /\
    clearLogs slug w = Return cleared w2 /\
    Stats.totalHits (getStats now w2)
    = (Stats.totalHits (getStats now w) - Hook.hits hook)%Z /\
    Stats.totalWebhooks (getStats now w2)
    = Stats.totalWebhooks (getStats now w).
Proof.
  intros Hget. pose proof (proj1 (get_own _ _ _) Hget) as Hown.
  do 3 eexists.
  split; [by apply recordHit_registered|].
  assert (Hstats : forall new,
    Stats.totalHits
      (getStats now (schedulePersist (with_hooks (replace (hooks w) slug new) w)))
    = (Stats.totalHits (getStats now w) - Hook.hits hook + Hook.hits new)%Z /\
    Stats.totalWebhooks
      (getStats now (schedulePersist (with_hooks (replace (hooks w) slug new) w)))
    = Stats.totalWebhooks (getStats now w)).
  { intros new. unfold getStats. rewrite hooks_schedulePersist.
    cbn [hooks with_hooks].
    destruct (statistics_totals now (Object_values (replace (hooks w) slug new)))
      as (-> & -> & _).
    destruct (statistics_totals now (Object_values (hooks w)))
      as (-> & -> & _).
    rewrite (sum_hits_replace _ _ _ _ Hown).
    unfold Object_values. by rewrite !length_map, length_replace. }
  destruct (Hstats (Hook.hit (logLimit w) e hook)) as [-> ->].
  split; [rewrite hit_hits; lia|]. split; [done|].
  split; [by apply clearLogs_registered|].
  destruct (Hstats (Hook.clear hook)) as [-> ->].
  split; [cbn; lia|done].
Qed.

Lemma getStats_after_recordHit_witness :
  get (hooks reopened) "a" = Own kept_hook /\
  exists w1 cleared w2,
    recordHit "a" (delivery 4) reopened = Return (delivery 4) w1 /\
    Stats.totalHits (getStats 10%Z w1)
    = (Stats.totalHits (getStats 10%Z reopened) + 1)%Z /\
    Stats.totalWebhooks (getStats 10%Z w1)
    = Stats.totalWebhooks (getStats 10%Z reopened) /\
    clearLogs "a" reopened = Return cleared w2 /\
    Stats.totalHits (getStats 10%Z w2)
    = (Stats.totalHits (getStats 10%Z reopened) - Hook.hits kept_hook)%Z /\
    Stats.totalWebhooks (getStats 10%Z w2)
    = Stats.totalWebhooks (getStats 10%Z reopened).
Proof.
  split; [reflexivity|].
  apply (getStats_after_recordHit 10%Z "a" (delivery 4) kept_hook reopened).
  reflexivity.
Defined.

(** X5.  [deleteHook] undoes [createHook]: deleting a slug right after
    its creation succeeds and leaves the registry exactly as it was
    before, in content and in order, so that [listHooks],
    [listRecentEntries] and [getStats] answer as before; in between,
    [totalWebhooks] is one more and [totalHits] the same. *)
Theorem createHook_then_deleteHook (slug description : string)
    (metadata : value) (now : timestamp) (hook : Hook.t value)
    (w w1 : world) :
  createHook slug description metadata now w = Return hook w1 ->
  (forall t,
     Stats.totalWebhooks (getStats t w1) = S (Stats.totalWebhooks (getStats t w)) /\
     Stats.totalHits (getStats t w1) = Stats.totalHits (getStats t w)) /\
  exists w2,
    deleteHook slug w1 = Return true w2 /\
    hooks w2 = hooks w /\
    listHooks w2 = listHooks w /\
    (forall limit, listRecentEntries limit w2 = listRecentEntries limit w) /\
    (forall t, getStats t w2 = getStats t w).
Proof.
  intros Hc. destruct (get (hooks w) slug) eqn:G.
  1,2: by rewrite createHook_taken in Hc by (by rewrite G).
  rewrite createHook_unregistered in Hc by done.
  apply Return_inj in Hc as [<- <-].
  apply get_undefined in G as [G Hi].
  set (hook := Hook.fresh _ slug description metadata now).
  set (w1 := schedulePersist _).
  assert (H1 : hooks w1 = add_key (hooks w) slug hook).
  { subst w1. rewrite hooks_schedulePersist. cbn [hooks with_hooks].
    unfold assign. by rewrite G. }
  split.
  - intros t. unfold getStats.
    destruct (statistics_totals t (Object_values (hooks w1))) as (-> & -> & _).
    destruct (statistics_totals t (Object_values (hooks w))) as (-> & -> & _).
    rewrite H1, sum_hits_add_key. unfold Object_values.
    rewrite !length_map, length_add_key. split; [done|]. cbn. lia.
  - assert (Hg : get (hooks w1) slug = Own hook).
    { apply get_own. rewrite H1. by apply own_add_key_eq. }
    exists (schedulePersist (with_hooks (remove (hooks w1) slug) w1)).
    split; [by eapply deleteHook_registered|].
    assert (H2 : hooks (schedulePersist (with_hooks (remove (hooks w1) slug) w1))
                 = hooks w).
    { rewrite hooks_schedulePersist. cbn [hooks with_hooks].
      rewrite H1. by apply remove_add_key. }
    split; [done|].
    unfold listHooks, listRecentEntries, getStats. rewrite H2.
    split_and!; done.
Qed.

Lemma createHook_then_deleteHook_witness :
  createHook "email1" "" (Obj []) 7%Z blank = Return fresh_hook flushing /\
  (forall t,
     Stats.totalWebhooks (getStats t flushing)
     = S (Stats.totalWebhooks (getStats t blank)) /\
     Stats.totalHits (getStats t flushing) = Stats.totalHits (getStats t blank)) /\
  exists w2,
    deleteHook "email1" flushing = Return true w2 /\
    hooks w2 = hooks blank /\
    listHooks w2 = listHooks blank /\
    (forall limit, listRecentEntries limit w2 = listRecentEntries limit blank) /\
    (forall t, getStats t w2 = getStats t blank).
Proof.
  assert (H : createHook "email1" "" (Obj []) 7%Z blank
              = Return fresh_hook flushing) by (vm_compute; reflexivity).
  split; [exact H|].
  exact (createHook_then_deleteHook "email1" "" (Obj []) 7%Z fresh_hook
           blank flushing H).
Defined.

Lemma invoke_logLimit c w w1 : invoke c w = Some w1 -> logLimit w1 = logLimit w.
Proof.
  destruct c as [s d m now|s|s e|s]; cbn [invoke].
  - destruct (get (hooks w) s) eqn:G.
    1,2: rewrite createHook_taken by (by rewrite G); cbn; by intros [= <-].
    rewrite createHook_unregistered by done. cbn [after].
    intros Hc. apply (inj Some) in Hc as <-.
    by rewrite logLimit_schedulePersist.
  - unfold deleteHook. destruct (get (hooks w) s); cbn; intros [= <-];
      by rewrite ?logLimit_schedulePersist.
  - unfold recordHit. destruct (get (hooks w) s); cbn; intros [= <-];
      by rewrite ?logLimit_schedulePersist.
  - unfold clearLogs. destruct (get (hooks w) s); cbn; intros [= <-];
      by rewrite ?logLimit_schedulePersist.
Qed.

(** X6.  A call about one slug leaves every other slug as it was: what
    [getHook] then returns for another slug, and whether that slug is
    registered, is unchanged, as is [logLimit]. *)
Theorem call_leaves_other_slugs (c : call) (w w1 : world) (slug : string) :
  invoke c w = Some w1 ->
  slug <> target c ->
  get (hooks w1) slug = get (hooks w) slug /\
  (forall r, getHook slug w = Return r w -> getHook slug w1 = Return r w1) /\
  logLimit w1 = logLimit w.
Proof.
  intros Hc Hne.
  assert (Hown : own (hooks w1) slug = own (hooks w) slug).
  { destruct (invoke_registry _ _ _ Hc) as [->|H]; [done|].
    destruct c as [s d m now|s|s e|s]; cbn in Hne.
    - destruct H as (_ & id & ->). by apply own_add_key_ne.
    - rewrite H. by apply own_remove_ne.
    - destruct H as (hook & _ & ->). by apply own_replace_ne.
    - destruct H as (hook & _ & ->). by apply own_replace_ne. }
  assert (Hget : get (hooks w1) slug = get (hooks w) slug)
    by (unfold get; by rewrite Hown).
  split; [done|]. split.
  - unfold getHook. rewrite Hget. intros r.
    destruct (get (hooks w) slug); intros Hr; [| done |];
      apply Return_inj in Hr as [<- _]; done.
  - by eapply invoke_logLimit.
Qed.

Lemma call_leaves_other_slugs_witness :
  invoke (RecordHit "a" (delivery 4)) reopened
  = Some (schedulePersist
            (with_hooks
               (replace (hooks reopened) "a"
                  (Hook.hit (logLimit reopened) (delivery 4) kept_hook))
               reopened)) /\
  "b" <> target (RecordHit "a" (delivery 4)) /\
  exists w1,
    get (hooks w1) "b" = get (hooks reopened) "b" /\
    (forall r, getHook "b" reopened = Return r reopened ->
               getHook "b" w1 = Return r w1) /\
    logLimit w1 = logLimit reopened.
Proof.
  assert (H : invoke (RecordHit "a" (delivery 4)) reopened
    = Some (schedulePersist
              (with_hooks
                 (replace (hooks reopened) "a"
                    (Hook.hit (logLimit reopened) (delivery 4) kept_hook))
                 reopened))) by reflexivity.
  assert (Hne : "b" <> target (RecordHit "a" (delivery 4))) by (cbn; congruence).
  split; [exact H|]. split; [exact Hne|].
  eexists.
  exact (call_leaves_other_slugs _ _ _ "b" H Hne).
Defined.

(** *** Invariants of the registry *)

Lemma own_None_keys {V} (o : object V) k : own o k = None -> ~ In k (map fst o).
Proof.
  induction o as [|[k' v'] o IH]; cbn; [tauto|].
  destruct (String.eqb k' k) eqn:E; [done|].
  apply String.eqb_neq in E. intros H [?|?]; [done|by apply IH].
Qed.

Lemma own_distinct {V} (o : object V) k v :
  distinct_keys o -> In (k, v) o -> own o k = Some v.
Proof.
  unfold distinct_keys.
  induction o as [|[k' v'] o IH]; cbn; [done|].
  intros Hnd [[= -> ->]|Hin].
  - by rewrite String.eqb_refl.
  - apply NoDup_cons in Hnd as [Hk Hnd].
    destruct (String.eqb k' k) eqn:E; [|by apply IH].
    apply String.eqb_eq in E as ->. exfalso. apply Hk.
    apply list_elem_of_In, in_map_iff. by exists (k, v).
Qed.

Lemma distinct_add_key {V} (o : object V) k v :
  own o k = None -> distinct_keys o -> distinct_keys (add_key o k v).
Proof.
  unfold distinct_keys. intros Hk Hnd.
  rewrite (Permutation_map fst (add_key_perm o k v)). cbn.
  apply NoDup_cons. split; [|done].
  rewrite list_elem_of_In. by apply own_None_keys.
Qed.

Lemma distinct_remove {V} (o : object V) k :
  distinct_keys o -> distinct_keys (remove o k).
Proof.
  unfold distinct_keys, remove.
  induction o as [|[k' v'] o IH]; cbn; [done|].
  intros Hnd. apply NoDup_cons in Hnd as [Hk Hnd].
  destruct (String.eqb k' k); cbn; [by apply IH|].
  apply NoDup_cons. split; [|by apply IH].
  intros Hin. apply Hk.
  apply list_elem_of_In, in_map_iff in Hin as ([k0 v0] & Hf & Hin).
  apply List.filter_In in Hin as [Hin _].
  apply list_elem_of_In, in_map_iff. by exists (k0, v0).
Qed.

Lemma invoke_keyed c w w1 :
  invoke c w = Some w1 -> keyed (hooks w) -> keyed (hooks w1).
Proof.
  intros Hc Hk. unfold keyed in *.
  assert (Hslug : forall k hook, own (hooks w) k = Some hook -> Hook.slug hook = k).
  { intros k hook Hown. apply own_In in Hown.
    rewrite List.Forall_forall in Hk. by apply (Hk (k, hook)). }
  destruct (invoke_registry _ _ _ Hc) as [->|H]; [done|].
  destruct c as [s d m now|s|s e|s].
  - destruct H as (_ & id & ->). rewrite add_key_perm. by constructor.
  - rewrite H. by apply Forall_remove.
  - destruct H as (hook & Hown & ->). apply Forall_replace; [done|].
    cbn. by apply Hslug.
  - destruct H as (hook & Hown & ->). apply Forall_replace; [done|].
    cbn. by apply Hslug.
Qed.

Lemma invoke_distinct c w w1 :
  invoke c w = Some w1 -> distinct_keys (hooks w) -> distinct_keys (hooks w1).
Proof.
  intros Hc Hk.
  destruct (invoke_registry _ _ _ Hc) as [->|H]; [done|].
  destruct c as [s d m now|s|s e|s].
  - destruct H as (Hown & id & ->). by apply distinct_add_key.
  - rewrite H. by apply distinct_remove.
  - destruct H as (hook & Hown & ->). unfold distinct_keys.
    by rewrite map_fst_replace.
  - destruct H as (hook & Hown & ->). unfold distinct_keys.
    by rewrite map_fst_replace.
Qed.

Lemma run_keyed es w w' :
  run es w = Some w' ->
  keyed (hooks w) -> distinct_keys (hooks w) ->
  keyed (hooks w') /\ distinct_keys (hooks w').
Proof.
  revert w; induction es as [|e es IH]; intros w; cbn.
  - by intros [= <-].
  - destruct (step e w) as [w1|] eqn:E; [|done].
    intros Hrun Hk Hd. apply (IH w1 Hrun).
    + destruct (step_registry _ _ _ E) as [->|(c & _ & Hc)]; [done|].
      by eapply invoke_keyed.
    + destruct (step_registry _ _ _ E) as [->|(c & _ & Hc)]; [done|].
      by eapply invoke_distinct.
Qed.

Lemma In_entries (r : registry) (e : Recent.t) :
  In e (entries r) ->
  exists k hook log, In (k, hook) r /\ In log (Hook.logs hook) /\
                     e = Recent.of_log (Hook.slug hook) log.
Proof.
  unfold entries, Object_values. intros Hin.
  apply in_flat_map in Hin as (hook & Hh & Hin).
  apply in_map_iff in Hh as ([k h] & Hf & Hh). cbn in Hf. subst h.
  apply in_map_iff in Hin as (log & <- & Hlog).
  by exists k, hook, log.
Qed.

Lemma In_listRecentEntries limit w e :
  In e (listRecentEntries limit w) -> In e (entries (hooks w)).
Proof.
  intros Hin.
  assert (H : Forall (fun e => In e (entries (hooks w)))
                (listRecentEntries limit w)).
  { apply Forall_listRecentEntries. by apply List.Forall_forall. }
  rewrite List.Forall_forall in H. by apply H.
Qed.

(** X7.  Once every record is registered under its own [slug], with one
    record per slug, this stays so through every call and every step of
    a flush.  Then [listHooks] shows the registered slugs, each once and
    in the order of the registry, and every item of the feed
    [listRecentEntries] returns is a retained log entry of the hook that
    is registered under the item's [slug]. *)
Theorem registry_stays_keyed (es : list event) (w w' : world) :
  keyed (hooks w) ->
  distinct_keys (hooks w) ->
  run es w = Some w' ->
  keyed (hooks w') /\
  distinct_keys (hooks w') /\
  map Summary.slug (listHooks w') = map fst (hooks w') /\
  NoDup (map Summary.slug (listHooks w')) /\
  (forall limit e,
     In e (listRecentEntries limit w') ->
     exists hook log,
       get (hooks w') (Recent.slug e) = Own hook /\
       In log (Hook.logs hook) /\
       e = Recent.of_log (Recent.slug e) log).
Proof.
  intros Hk Hd Hrun.
  destruct (run_keyed _ _ _ Hrun Hk Hd) as [Hk' Hd'].
  assert (Hs : map Summary.slug (listHooks w') = map fst (hooks w')).
  { unfold listHooks, Object_values. clear -Hk'.
    induction Hk' as [|[k h] r Hx Hr IH]; cbn; [done|].
    cbn in Hx. by rewrite Hx, IH. }
  split_and!; try done.
  - by rewrite Hs.
  - intros limit e Hin. apply In_listRecentEntries in Hin.
    apply In_entries in Hin as (k & hook & log & Hin & Hlog & ->).
    unfold keyed in Hk'. rewrite List.Forall_forall in Hk'.
    pose proof (Hk' _ Hin) as Hslug. cbn in Hslug.
    exists hook, log. cbn. split_and!; try done.
    apply get_own. rewrite Hslug. by apply own_distinct.
Qed.

Lemma registry_stays_keyed_witness :
  keyed (hooks blank) /\
  distinct_keys (hooks blank) /\
  run [Call (CreateHook "email1" "" (Obj []) 7%Z)] blank = Some flushing /\
  keyed (hooks flushing) /\
  distinct_keys (hooks flushing) /\
  map Summary.slug (listHooks flushing) = map fst (hooks flushing) /\
  NoDup (map Summary.slug (listHooks flushing)) /\
  (forall limit e,
     In e (listRecentEntries limit flushing) ->
     exists hook log,
       get (hooks flushing) (Recent.slug e) = Own hook /\
       In log (Hook.logs hook) /\
       e = Recent.of_log (Recent.slug e) log).
Proof.
  assert (Hk : keyed (hooks blank)) by constructor.
  assert (Hd : distinct_keys (hooks blank)) by constructor.
  assert (Hr : run [Call (CreateHook "email1" "" (Obj []) 7%Z)] blank
               = Some flushing) by (vm_compute; reflexivity).
  split; [exact Hk|]. split; [exact Hd|]. split; [exact Hr|].
  exact (registry_stays_keyed _ blank flushing Hk Hd Hr).
Defined.

(** X8.  After [deleteHook(slug)] has returned, with [true] or with
    [false], nothing of that slug is left to see: no item of the feed
    and no summary of [listHooks] carries it, provided every record was
    registered under its own [slug]. *)
Theorem deleteHook_clears_feed (slug : string) (b : bool) (w w1 : world)
    (limit : argument) :
  keyed (hooks w) ->
  deleteHook slug w = Return b w1 ->
  own (hooks w1) slug = None /\
  Forall (fun e => Recent.slug e <> slug) (listRecentEntries limit w1) /\
  Forall (fun s => Summary.slug s <> slug) (listHooks w1).
Proof.
  intros Hk Hdel.
  assert (Hc : invoke (DeleteHook slug) w = Some w1) by (cbn; by rewrite Hdel).
  pose proof (invoke_keyed _ _ _ Hc Hk) as Hk'.
  assert (Hown : own (hooks w1) slug = None).
  { unfold deleteHook in Hdel. destruct (get (hooks w) slug) eqn:G;
      apply Return_inj in Hdel as [_ <-];
      rewrite ?hooks_schedulePersist; cbn [hooks with_hooks];
      try apply own_remove_eq.
    by apply get_undefined in G as [G _]. }
  assert (Hne : Forall (fun kv : string * Hook.t value => Hook.slug (snd kv) <> slug)
                  (hooks w1)).
  { unfold keyed in Hk'. rewrite List.Forall_forall in Hk' |- *.
    intros [k h] Hin Heq. pose proof (Hk' _ Hin) as Hs. cbn in Hs, Heq.
    apply In_own in Hin. congruence. }
  split; [done|]. split.
  - apply Forall_listRecentEntries. apply List.Forall_forall.
    intros e Hin. apply In_entries in Hin as (k & hook & log & Hin & _ & ->).
    rewrite List.Forall_forall in Hne. apply (Hne _ Hin).
  - unfold listHooks, Object_values. clear -Hne.
    induction Hne as [|[k h] r Hx Hr IH]; cbn; [done|]. by constructor.
Qed.

Lemma deleteHook_clears_feed_witness :
  keyed (hooks reopened) /\
  deleteHook "a" reopened
  = Return true (schedulePersist (with_hooks (remove (hooks reopened) "a") reopened)) /\
  exists w1,
    own (hooks w1) "a" = None /\
    Forall (fun e => Recent.slug e <> "a") (listRecentEntries Omitted w1) /\
    Forall (fun s => Summary.slug s <> "a") (listHooks w1).
Proof.
  assert (Hk : keyed (hooks reopened)) by (repeat constructor).
  assert (Hd : deleteHook "a" reopened
    = Return true (schedulePersist (with_hooks (remove (hooks reopened) "a") reopened)))
    by reflexivity.
  split; [exact Hk|]. split; [exact Hd|]. eexists.
  exact (deleteHook_clears_feed "a" true reopened _ Omitted Hk Hd).
Defined.

(** *** A limit that is no length *)

Lemma hit_all_unbounded {M} (x : number) es (hook : Hook.t M) :
  x = NaN \/ x = PosInf ->
  Hook.logs (hit_all x es hook) = reverse es ++ Hook.logs hook.
Proof.
  intros Hx. unfold hit_all. revert hook.
  induction es as [|e es IH]; intros hook; [done|].
  cbn [foldl]. rewrite IH, reverse_cons, <- app_assoc. f_equal.
  by destruct Hx as [-> | ->].
Qed.

(** X9.  When [logLimit] is [NaN] or [Infinity], as it is when
    [WEBHOOK_LOG_LIMIT] is set to a text that is no number or to
    [Infinity], [recordHit] never drops a log entry: after the
    deliveries [es] the record holds all of them, newest first, in front
    of the entries it held before. *)
Theorem recordHit_without_limit (w : world) (slug : string)
    (hook : Hook.t value) (es : list Entry.t) :
  get (hooks w) slug = Own hook ->
  logLimit w = NaN \/ logLimit w = PosInf ->
  exists w' hook',
    run (map (fun e => Call (RecordHit slug e)) es) w = Some w' /\
    getHook slug w' = Return (Some hook') w' /\
    Hook.logs hook' = reverse es ++ Hook.logs hook /\
    length (Hook.logs hook') = length es + length (Hook.logs hook) /\
    Hook.hits hook' = (Hook.hits hook + Z.of_nat (length es))%Z.
Proof.
  intros Hget Hx.
  destruct (run_recordHits slug es w hook Hget) as (w' & Hrun & Hget' & _).
  exists w', (JSON_copy (hit_all (logLimit w) es hook)).
  split; [done|]. split; [by apply getHook_registered|].
  cbn [JSON_copy Hook.logs Hook.hits].
  rewrite hit_all_unbounded by done.
  split; [done|]. split; [|apply hit_all_hits].
  by rewrite length_app, length_reverse.
Qed.

Lemma recordHit_without_limit_witness :
  let w := open_store (Some NaN) [("a", kept_hook)] zeros in
  get (hooks w) "a" = Own kept_hook /\
  (logLimit w = NaN \/ logLimit w = PosInf) /\
  exists w' hook',
    run (map (fun e => Call (RecordHit "a" e)) [delivery 4; delivery 5]) w
    = Some w' /\
    getHook "a" w' = Return (Some hook') w' /\
    Hook.logs hook' = reverse [delivery 4; delivery 5] ++ Hook.logs kept_hook /\
    length (Hook.logs hook')
    = length [delivery 4; delivery 5] + length (Hook.logs kept_hook) /\
    Hook.hits hook'
    = (Hook.hits kept_hook + Z.of_nat (length [delivery 4; delivery 5]))%Z.
Proof.
  intros w.
  assert (Hg : get (hooks w) "a" = Own kept_hook) by reflexivity.
  assert (Hx : logLimit w = NaN \/ logLimit w = PosInf) by (left; reflexivity).
  split; [exact Hg|]. split; [exact Hx|].
  exact (recordHit_without_limit w "a" kept_hook [delivery 4; delivery 5] Hg Hx).
Defined.

(** *** A limit that is no whole number *)

Lemma hit_fractional {M} (q : Q) e (hook : Hook.t M) :
  (0 <= q)%Q ->
  Hook.hit (Fin q) e hook = Hook.hit (of_nat (Z.to_nat (Qfloor q))) e hook.
Proof.
  intros Hq. unfold Hook.hit. f_equal.
  set (l := e :: Hook.logs hook).
  assert (Hf : (0 <= Qfloor q)%Z).
  { apply Qfloor_resp_le in Hq. by change (Qfloor 0) with 0%Z in Hq. }
  rewrite length_gt_of_nat, slice0_of_nat.
  assert (Hs : slice0 l (Fin q) = take (Z.to_nat (Qfloor q)) l).
  { unfold slice0, truncate.
    assert (H0 : Qle_bool 0 q = true) by by apply Qle_bool_iff.
    rewrite H0. destruct (Z.ltb_spec (Qfloor q) 0); [lia|done]. }
  rewrite Hs. unfold length_gt.
  destruct (Qle_bool (inject_Z (Z.of_nat (length l))) q) eqn:E; cbn [negb].
  - apply Qle_bool_iff, Qfloor_resp_le in E. rewrite Qfloor_Z in E.
    destruct (Nat.leb_spec (length l) (Z.to_nat (Qfloor q))); [done|lia].
  - apply Qle_bool_false in E.
    destruct (Nat.leb_spec (length l) (Z.to_nat (Qfloor q))) as [H|H]; [|done].
    exfalso. apply (Qlt_not_le _ _ E).
    eapply Qle_trans; [|apply Qfloor_le].
    rewrite <- Zle_Qle. lia.
Qed.

Lemma hit_negative {M} (q : Q) e (hook : Hook.t M) :
  (q < 0)%Q ->
  exists n, n <= length (Hook.logs hook) /\
            Hook.logs (Hook.hit (Fin q) e hook) = take n (e :: Hook.logs hook).
Proof.
  intros Hq. unfold Hook.hit. cbn [Hook.logs].
  set (l := e :: Hook.logs hook).
  assert (Hg : length_gt (length l) (Fin q) = true).
  { unfold length_gt. apply negb_true_iff.
    destruct (Qle_bool (inject_Z (Z.of_nat (length l))) q) eqn:E; [|done].
    apply Qle_bool_iff in E. exfalso. apply (Qlt_not_le _ _ Hq).
    eapply Qle_trans; [|exact E]. change 0%Q with (inject_Z 0).
    rewrite <- Zle_Qle. lia. }
  rewrite Hg. unfold slice0, truncate.
  assert (H0 : Qle_bool 0 q = false).
  { destruct (Qle_bool 0 q) eqn:E; [|done].
    apply Qle_bool_iff in E. by apply Qlt_not_le in Hq. }
  rewrite H0.
  assert (Hc : (Qceiling q <= 0)%Z).
  { unfold Qceiling. apply Qlt_le_weak, Qopp_le_compat in Hq.
    apply Qfloor_resp_le in Hq. change (Qfloor (- 0)) with 0%Z in Hq. lia. }
  destruct (Z.ltb_spec (Qceiling q) 0).
  - eexists. split; [|reflexivity]. subst l. cbn [length]. lia.
  - exists 0. split; [lia|]. by replace (Qceiling q) with 0%Z by lia.
Qed.

(** X27.  What [recordHit] makes of a [logLimit] that is no length.  A
    limit with a fraction acts as the whole number below it: for a
    limit of at least zero the record after a delivery is the one a
    limit rounded down gives.  Under a limit below zero the log never
    grows: what is kept is a front part of the new entry followed by the
    old ones, no longer than the log was before. *)
Theorem recordHit_with_odd_limit (slug : string) (e : Entry.t)
    (hook : Hook.t value) (q : Q) (w : world) :
  get (hooks w) slug = Own hook ->
  logLimit w = Fin q ->
  exists w1 hook',
    recordHit slug e w = Return e w1 /\
    get (hooks w1) slug = Own hook' /\
    Hook.hits hook' = (Hook.hits hook + 1)%Z /\
    ((0 <= q)%Q ->
     hook' = Hook.hit (of_nat (Z.to_nat (Qfloor q))) e hook /\
     Hook.logs hook' = take (Z.to_nat (Qfloor q)) (e :: Hook.logs hook)) /\
    ((q < 0)%Q ->
     length (Hook.logs hook') <= length (Hook.logs hook) /\
     exists n, Hook.logs hook' = take n (e :: Hook.logs hook)).
Proof.
  intros Hget HL.
  rewrite (recordHit_registered _ _ _ _ Hget). do 2 eexists.
  split; [reflexivity|].
  rewrite hooks_schedulePersist. cbn [hooks with_hooks].
  split; [by eapply get_replace_eq|].
  split; [apply hit_hits|]. rewrite HL. split.
  - intros Hq. rewrite hit_fractional by done. split; [done|apply hit_logs].
  - intros Hq. destruct (hit_negative q e hook Hq) as (n & Hn & ->).
    split; [|by exists n]. rewrite length_take. lia.
Qed.

Lemma recordHit_with_odd_limit_witness :
  let w := open_store (Some (Fin (5 # 2))) [("a", kept_hook)] zeros in
  get (hooks w) "a" = Own kept_hook /\
  logLimit w = Fin (5 # 2) /\
  exists w1 hook',
    recordHit "a" (delivery 4) w = Return (delivery 4) w1 /\
    get (hooks w1) "a" = Own hook' /\
    Hook.hits hook' = (Hook.hits kept_hook + 1)%Z /\
    ((0 <= 5 # 2)%Q ->
     hook' = Hook.hit (of_nat (Z.to_nat (Qfloor (5 # 2)))) (delivery 4) kept_hook /\
     Hook.logs hook'
     = take (Z.to_nat (Qfloor (5 # 2))) (delivery 4 :: Hook.logs kept_hook)) /\
    ((5 # 2 < 0)%Q ->
     length (Hook.logs hook') <= length (Hook.logs kept_hook) /\
     exists n, Hook.logs hook' = take n (delivery 4 :: Hook.logs kept_hook)).
Proof.
  intros w. split; [reflexivity|]. split; [reflexivity|].
  exact (recordHit_with_odd_limit "a" (delivery 4) kept_hook (5 # 2) w
           eq_refl eq_refl).
Defined.

(** *** The newest delivery in the feed *)

Lemma In_entries_replace (r : registry) k old new x :
  own r k = Some old ->
  (In x (entries (replace r k new)) ->
   In x (entries r) \/
   In x (map (Recent.of_log (Hook.slug new)) (Hook.logs new))) /\
  (In x (map (Recent.of_log (Hook.slug new)) (Hook.logs new)) ->
   In x (entries (replace r k new))).
Proof.
  unfold entries, Object_values.
  induction r as [|[k' h] r IH]; cbn; [done|].
  destruct (String.eqb k' k) eqn:E; cbn.
  - intros _. rewrite !in_app_iff.
    split; [intros [?|?]|intros ?]; auto.
  - intros Hown. destruct (IH Hown) as [IH1 IH2].
    rewrite !in_app_iff.
    split.
    + intros [?|H]; [auto|]. destruct (IH1 H); auto.
    + auto.
Qed.

Lemma In_entries_own (r : registry) k hook log :
  own r k = Some hook -> In log (Hook.logs hook) ->
  In (Recent.of_log (Hook.slug hook) log) (entries r).
Proof.
  intros Hown Hlog. apply own_In in Hown.
  unfold entries, Object_values. apply in_flat_map.
  exists hook. split.
  - apply in_map_iff. by exists (k, hook).
  - by apply in_map.
Qed.

(** X25.  The newest delivery leads the feed.  When [logLimit] is a
    length of at least one and a delivery to a registered slug is
    stamped later than every retained log entry, [recordHit] returns and
    the first item of the feed [listRecentEntries] then returns,
    whatever the limit, is that delivery under the hook's slug. *)
Theorem recordHit_heads_feed (slug : string) (e : Entry.t)
    (hook : Hook.t value) (L : nat) (limit : argument) (w : world) :
  get (hooks w) slug = Own hook ->
  logLimit w = of_nat L ->
  1 <= L ->
  Forall (fun x => (Recent.timestamp x < Entry.timestamp e)%Z)
    (entries (hooks w)) ->
  exists w1,
    recordHit slug e w = Return e w1 /\
    head (listRecentEntries limit w1)
    = Some (Recent.of_log (Hook.slug hook) e).
Proof.
  intros Hget HL HL1 Hold.
  rewrite (recordHit_registered _ _ _ _ Hget). eexists. split; [done|].
  rewrite head_listRecentEntries, hooks_schedulePersist.
  cbn [hooks with_hooks].
  apply get_own in Hget.
  set (new := Hook.hit (logLimit w) e hook).
  set (e' := Recent.of_log (Hook.slug hook) e).
  set (l := entries (replace (hooks w) slug new)).
  assert (Hlogs : Hook.logs new = e :: take (L - 1) (Hook.logs hook)).
  { subst new. rewrite HL, hit_logs. destruct L; [lia|].
    cbn. by rewrite Nat.sub_0_r. }
  assert (Hin : In e' l).
  { apply (In_entries_replace _ _ _ new e' Hget).
    rewrite Hlogs. by left. }
  assert (Hall : forall x, In x l -> x = e' \/
                   (Recent.timestamp x < Recent.timestamp e')%Z).
  { intros x Hx.
    rewrite List.Forall_forall in Hold.
    apply (In_entries_replace _ _ _ new x Hget) in Hx as [Hx|Hx].
    - right. by apply Hold.
    - rewrite Hlogs in Hx.
      destruct Hx as [<-|Hx]; [by left|]. right.
      apply in_map_iff in Hx as (log & <- & Hlog).
      apply (Hold (Recent.of_log (Hook.slug hook) log)).
      eapply In_entries_own; [done|].
      assert (Ht : Forall (fun y => In y (Hook.logs hook))
                     (take (L - 1) (Hook.logs hook))).
      { apply Forall_take, List.Forall_forall. auto. }
      rewrite List.Forall_forall in Ht. by apply Ht. }
  pose proof (sort_perm l) as Hp.
  pose proof (sorted_head_max _ (sort_sorted l)) as Hs.
  destruct (sort l) as [|x t] eqn:E.
  - apply Permutation_nil in Hp. by rewrite Hp in Hin.
  - cbn. f_equal.
    assert (Hx : In x l) by (apply list_elem_of_In; rewrite <- Hp; left).
    assert (He : In e' (x :: t))
      by (apply list_elem_of_In; rewrite Hp; by apply list_elem_of_In).
    rewrite List.Forall_forall in Hs. specialize (Hs _ He).
    destruct (Hall x Hx) as [->|Hlt]; [done|lia].
Qed.

Lemma recordHit_heads_feed_witness :
  let w := open_store (Some (of_nat 2)) [("a", kept_hook)] zeros in
  get (hooks w) "a" = Own kept_hook /\
  logLimit w = of_nat 2 /\
  1 <= 2 /\
  Forall (fun x => (Recent.timestamp x < Entry.timestamp (delivery 4))%Z)
    (entries (hooks w)) /\
  exists w1,
    recordHit "a" (delivery 4) w = Return (delivery 4) w1 /\
    head (listRecentEntries Omitted w1)
    = Some (Recent.of_log (Hook.slug kept_hook) (delivery 4)).
Proof.
  intros w.
  assert (H : Forall (fun x => (Recent.timestamp x < Entry.timestamp (delivery 4))%Z)
                (entries (hooks w))) by (cbn; repeat constructor).
  split; [reflexivity|]. split; [reflexivity|]. split; [lia|].
  split; [exact H|].
  exact (recordHit_heads_feed "a" (delivery 4) kept_hook 2 Omitted w
           eq_refl eq_refl (le_S 1 1 (le_n 1)) H).
Defined.

(** *** The cost of a burst *)

Lemma settle_writes n w :
  coalesced w -> remaining w <= n ->
  exists w',
    run (settle n w) w = Some w' /\ idle w' /\ hooks w' = hooks w /\
    writes (settle n w) = writes_due w.
Proof.
  revert w; induction n as [|n IH]; intros w Hco Hrem.
  - destruct Hco as [Hidle|(f & Hf & Hp)].
    + exists w. destruct Hidle as (H1 & H2 & H3).
      unfold writes_due. rewrite H2, H3. by split_and!.
    + unfold remaining in Hrem. rewrite Hf in Hrem.
      destruct f, (pendingFlush w); cbn in Hrem; lia.
  - destruct Hco as [Hidle|(f & Hf & Hp)].
    + exists w. destruct Hidle as (H1 & H2 & H3).
      unfold writes_due. cbn. unfold next. rewrite H2, H3. by split_and!.
    + unfold remaining in Hrem. rewrite Hf in Hrem.
      cbn [settle]. unfold next, writes_due. rewrite Hf.
      destruct f as [|text|]; cbn [step]; rewrite Hf; cbn [lookup list_lookup].
      * set (w1 := with_flush _ _ _ w).
        assert (Hco1 : coalesced w1) by (right; by exists (AwaitWrite (hooks w))).
        assert (Hrem1 : remaining w1 <= n) by (subst w1; unfold remaining; cbn; lia).
        destruct (IH w1 Hco1 Hrem1) as (w' & Hrun & Hidle & Hh & Hw).
        exists w'. cbn [run step]. rewrite Hf. cbn [lookup list_lookup].
        fold w1. rewrite Hrun. split_and!; try done.
        all: unfold writes in *; cbn [List.filter]; rewrite Hw;
          unfold writes_due; subst w1; cbn; done.
      * set (w1 := with_disk _ _).
        assert (Hco1 : coalesced w1) by (right; by exists Settled).
        assert (Hrem1 : remaining w1 <= n) by (subst w1; unfold remaining; cbn; lia).
        destruct (IH w1 Hco1 Hrem1) as (w' & Hrun & Hidle & Hh & Hw).
        exists w'. cbn [run step]. rewrite Hf. cbn [lookup list_lookup].
        fold w1. rewrite Hrun. split_and!; try done.
        all: unfold writes in *; cbn [List.filter length]; rewrite Hw;
          unfold writes_due; subst w1; cbn; lia.
      * cbn [pendingFlush with_flush].
        destruct (pendingFlush w) eqn:P.
        -- set (w1 := schedulePersist _).
           assert (Hco1 : coalesced w1) by (right; by exists AwaitMkdir).
           assert (Hrem1 : remaining w1 <= n) by (subst w1; unfold remaining; cbn; lia).
           destruct (IH w1 Hco1 Hrem1) as (w' & Hrun & Hidle & Hh & Hw).
           exists w'. cbn [run step]. rewrite Hf. cbn [lookup list_lookup].
           cbn [pendingFlush with_flush]. rewrite P. fold w1. rewrite Hrun.
           split_and!; try done.
        -- set (w1 := with_flush _ _ _ w).
           assert (Hco1 : coalesced w1) by (left; by split_and!).
           assert (Hrem1 : remaining w1 <= n) by (subst w1; unfold remaining; cbn; lia).
           destruct (IH w1 Hco1 Hrem1) as (w' & Hrun & Hidle & Hh & Hw).
           exists w'. cbn [run step]. rewrite Hf. cbn [lookup list_lookup].
           cbn [pendingFlush with_flush]. rewrite P. fold w1. rewrite Hrun.
           split_and!; try done.
Qed.

(** X10.  However many calls have arrived, what is left to write once
    they stop is bounded.  From any state the store gets into, when no
    disk operation fails and no further call arrives, the store comes to
    rest within six completions, with the registry unchanged, after at
    most two calls of [fs.writeFile]: one by the flush under way, if it
    has not written yet, and one by the flush that [pendingFlush] asks
    for. *)
Theorem burst_needs_two_writes (w0 : world) (es : list event) (w : world) :
  idle w0 ->
  run es w0 = Some w ->
  exists w',
    run (settle 6 w) w = Some w' /\
    idle w' /\
    hooks w' = hooks w /\
    writes (settle 6 w) = writes_due w /\
    writes (settle 6 w) <= 2.
Proof.
  intros Hidle Hrun.
  assert (Hco : coalesced w) by (eapply run_coalesced; [by left|done]).
  destruct (settle_writes 6 w Hco (remaining_le_6 w)) as (w' & H1 & H2 & H3 & H4).
  exists w'. split_and!; try done.
  rewrite H4. unfold writes_due.
  destruct (pendingFlush w), (flushes w) as [|[| |] ?]; cbn; lia.
Qed.

Lemma burst_needs_two_writes_witness :
  idle blank /\
  run [Call (CreateHook "email1" "" (Obj []) 7%Z);
       Call (RecordHit "email1" (delivery 8));
       Call (RecordHit "email1" (delivery 9))] blank
  = Some (default blank
            (run [Call (CreateHook "email1" "" (Obj []) 7%Z);
                  Call (RecordHit "email1" (delivery 8));
                  Call (RecordHit "email1" (delivery 9))] blank)) /\
  exists w w',
    run (settle 6 w) w = Some w' /\
    idle w' /\
    hooks w' = hooks w /\
    writes (settle 6 w) = writes_due w /\
    writes (settle 6 w) <= 2.
Proof.
  assert (Hi : idle blank) by (by split_and!).
  assert (Hr : run [Call (CreateHook "email1" "" (Obj []) 7%Z);
       Call (RecordHit "email1" (delivery 8));
       Call (RecordHit "email1" (delivery 9))] blank
  = Some (default blank
            (run [Call (CreateHook "email1" "" (Obj []) 7%Z);
                  Call (RecordHit "email1" (delivery 8));
                  Call (RecordHit "email1" (delivery 9))] blank)))
    by (vm_compute; reflexivity).
  split; [exact Hi|]. split; [exact Hr|]. eexists.
  exact (burst_needs_two_writes blank _ _ Hi Hr).
Defined.

(** *** What a flush writes and what start-up reads *)

Lemma own_map_snd {A B} (f : A -> B) (o : object A) k :
  own (map (fun kv => (fst kv, f (snd kv))) o) k = f <$> own o k.
Proof.
  induction o as [|[k' v] o IH]; cbn; [done|].
  by destruct (String.eqb k' k).
Qed.

Lemma stringify_object v :
  truthy v = true -> is_object v = true ->
  truthy (stringify v) = true /\ is_object (stringify v) = true.
Proof. by destruct v. Qed.

Lemma stringify_shaped fields :
  shaped (Obj fields) -> shaped (stringify (Obj fields)).
Proof.
  intros (_ & _ & h & Hh & Hth & Hoh).
  unfold shaped. split_and!; try done.
  exists (stringify h). cbn in *. rewrite own_map_snd, Hh.
  by destruct (stringify_object h Hth Hoh).
Qed.

Lemma normalizeState_Obj fields : exists fields', normalizeState (Obj fields) = Obj fields'.
Proof.
  rewrite normalizeState_cases. cbn.
  destruct (lacks_hooks (Obj fields)); by eexists.
Qed.

(** X11.  What a flush writes, start-up reads back unchanged.  For a
    state that is a plain object, [persist] with a working disk writes
    one text; [init] over a file that holds this text keeps the value
    the text denotes as it is, and a further [persist] writes the same
    text again.  When the state already has a [hooks] object and holds
    nothing that JSON cannot express, the text denotes the state
    itself. *)
Theorem persist_then_init (fs : fsys) (fields : list (string * value))
    (state0 : value) :
  mkdir fs = None ->
  writeFile fs = None ->
  exists text,
    text = stringify (normalizeState (Obj fields)) /\
    persist fs (Obj fields)
    = (None, normalizeState (Obj fields), [Mkdir true; WriteFile text]) /\
    init {| readFile := Content (Text text); mkdir := mkdir fs;
            writeFile := writeFile fs |} state0
    = (None, text, []) /\
    persist fs text = (None, text, [Mkdir true; WriteFile text]) /\
    (shaped (Obj fields) -> plain (Obj fields) = true -> text = Obj fields).
Proof.
  intros Hm Hw. eexists. split; [reflexivity|].
  destruct (normalizeState_Obj fields) as (fields' & Hn).
  assert (Hs : shaped (stringify (normalizeState (Obj fields)))).
  { pose proof (normalizeState_shaped (Obj fields)) as H.
    rewrite Hn in *. by apply stringify_shaped. }
  split_and!.
  - unfold persist. by rewrite Hm, Hw.
  - cbn. by rewrite normalizeState_id.
  - unfold persist. rewrite Hm, Hw, normalizeState_id by done.
    by rewrite (stringify_plain (stringify _)) by apply plain_stringify.
  - intros Hsh Hpl. rewrite normalizeState_id by done.
    by apply stringify_plain.
Qed.

Lemma persist_then_init_witness :
  let fs := {| readFile := Fails "ENOENT"; mkdir := None; writeFile := None |} in
  mkdir fs = None /\
  writeFile fs = None /\
  exists text,
    text = stringify (normalizeState (Obj [])) /\
    persist fs (Obj [])
    = (None, normalizeState (Obj []), [Mkdir true; WriteFile text]) /\
    init {| readFile := Content (Text text); mkdir := mkdir fs;
            writeFile := writeFile fs |} Null
    = (None, text, []) /\
    persist fs text = (None, text, [Mkdir true; WriteFile text]) /\
    (shaped (Obj []) -> plain (Obj []) = true -> text = Obj []).
Proof.
  intros fs. split; [reflexivity|]. split; [reflexivity|].
  exact (persist_then_init fs [] Null eq_refl eq_refl).
Defined.

(** X12.  A state that is an array never reaches the disk with its
    hooks.  [init] accepts a file that holds a JSON array and keeps the
    registry in a named property of that array, which [JSON.stringify]
    does not write: whatever the registry holds, [persist] writes an
    array without it, and the next [init] over that file starts from an
    empty registry. *)
Theorem array_state_is_not_persisted (fs : fsys) (items : list value)
    (props : list (string * value)) (state0 : value) :
  mkdir fs = None ->
  writeFile fs = None ->
  exists text state,
    persist fs (Arr items props)
    = (None, normalizeState (Arr items props), [Mkdir true; WriteFile text]) /\
    text = Arr (map stringify items) [] /\
    hooks_of text = None /\
    init {| readFile := Content (Text text); mkdir := mkdir fs;
            writeFile := writeFile fs |} state0
    = (None, state, []) /\
    hooks_of state = Some (Obj []).
Proof.
  intros Hm Hw.
  assert (Hn : exists props', normalizeState (Arr items props) = Arr items props').
  { rewrite normalizeState_cases. cbn.
    destruct (lacks_hooks (Arr items props)); by eexists. }
  destruct Hn as (props' & Hn).
  exists (Arr (map stringify items) []),
         (Arr (map stringify items) [("hooks", Obj [])]).
  split_and!.
  - unfold persist. rewrite Hm, Hw, Hn. reflexivity.
  - reflexivity.
  - reflexivity.
  - reflexivity.
  - reflexivity.
Qed.

Lemma array_state_is_not_persisted_witness :
  let fs := {| readFile := Fails "ENOENT"; mkdir := None; writeFile := None |} in
  let registry := Obj [("email1", Obj [("slug", Str "email1")])] in
  mkdir fs = None /\
  writeFile fs = None /\
  exists text state,
    persist fs (Arr [] [("hooks", registry)])
    = (None, normalizeState (Arr [] [("hooks", registry)]),
       [Mkdir true; WriteFile text]) /\
    text = Arr (map stringify []) [] /\
    hooks_of text = None /\
    init {| readFile := Content (Text text); mkdir := mkdir fs;
            writeFile := writeFile fs |} Null
    = (None, state, []) /\
    hooks_of state = Some (Obj []).
Proof.
  intros fs registry. split; [reflexivity|]. split; [reflexivity|].
  exact (array_state_is_not_persisted fs [] [("hooks", registry)] Null
           eq_refl eq_refl).
Defined.

(** * Properties of the front end *)

Module ServerFacts.
Import Server.

Local Ltac by_cases c :=
  destruct c as [[] [] [] [] [] [] [] []]; vm_compute; congruence.

Lemma lower_not_capital c : between 65 90 (lower c) = false.
Proof. by_cases c. Qed.

Lemma slug_char_lower c : slug_char c = true -> lower c = c.
Proof. by_cases c. Qed.

Lemma slug_char_not_space c : slug_char c = true -> is_space c = false.
Proof. by_cases c. Qed.

Lemma slug_char_keeps c : slug_char c = true -> slug_char_i c = true.
Proof. unfold slug_char_i. by intros ->. Qed.

Lemma slug_char_i_small c :
  slug_char_i c = true -> between 65 90 c = false -> slug_char c = true.
Proof. unfold slug_char_i. intros H E. by rewrite E, orb_false_r in H. Qed.

Lemma slug_char_dash : slug_char "-" = true.
Proof. reflexivity. Qed.

Lemma is_dash_eq c : is_dash c = true -> c = "-"%char.
Proof. unfold is_dash. apply Ascii.eqb_eq. Qed.

Lemma toLowerCase_small s :
  forallb (fun c => negb (between 65 90 c)) (chars (toLowerCase s)) = true.
Proof.
  induction s as [|c s IH]; cbn; [done|].
  by rewrite lower_not_capital, IH.
Qed.

Lemma dash_others_chars run s :
  forallb (fun c => negb (between 65 90 c)) (chars s) = true ->
  forallb slug_char (chars (dash_others run s)) = true.
Proof.
  revert run; induction s as [|c s IH]; intros run; cbn; [done|].
  intros [Hc Hs]%andb_prop. apply negb_true_iff in Hc.
  destruct (slug_char_i c) eqn:E; cbn.
  - rewrite (slug_char_i_small c E Hc). by apply IH.
  - destruct run; cbn; by apply IH.
Qed.

Lemma squeeze_chars (p : ascii -> bool) run s :
  forallb p (chars s) = true -> forallb p (chars (squeeze run s)) = true.
Proof.
  revert run; induction s as [|c s IH]; intros run; cbn; [done|].
  intros [Hc Hs]%andb_prop.
  destruct (is_dash c), run; cbn; rewrite ?Hc; cbn; by apply IH.
Qed.

Lemma squeeze_no_dash_run run s :
  no_dash_run (squeeze run s) = true /\
  (run = true -> starts_with_dash (squeeze run s) = false).
Proof.
  revert run; induction s as [|c s IH]; intros run; cbn; [done|].
  destruct (is_dash c) eqn:E.
  - destruct run; [apply IH|].
    destruct (IH true) as [H1 H2]. split; [|done].
    cbn. destruct (squeeze true s) as [|b t] eqn:S; [done|].
    specialize (H2 eq_refl). cbn in H2. rewrite H2, andb_false_r. cbn.
    exact H1.
  - destruct (IH false) as [H1 _]. split.
    + cbn. destruct (squeeze false s) as [|b t] eqn:S; [done|].
      rewrite E. cbn. exact H1.
    + intros _. cbn. exact E.
Qed.

Lemma no_dash_run_tail c s : no_dash_run (String c s) = true -> no_dash_run s = true.
Proof. cbn. destruct s; [done|]. by intros [_ H]%andb_prop. Qed.

Lemma drop_first_dash_chars (p : ascii -> bool) s :
  forallb p (chars s) = true -> forallb p (chars (drop_first_dash s)) = true.
Proof.
  destruct s as [|c s]; cbn; [done|].
  intros [Hc Hs]%andb_prop. destruct (is_dash c); cbn; [done|].
  by rewrite Hc.
Qed.

Lemma drop_first_dash_tidy s :
  no_dash_run s = true ->
  no_dash_run (drop_first_dash s) = true /\
  starts_with_dash (drop_first_dash s) = false.
Proof.
  destruct s as [|c s]; [done|]. intros H.
  unfold drop_first_dash. destruct (is_dash c) eqn:E.
  - split; [by eapply no_dash_run_tail|].
    destruct s as [|b t]; [done|]. cbn in H |- *.
    apply andb_prop in H as [H _]. rewrite E in H. cbn in H.
    by apply negb_true_iff in H.
  - by split.
Qed.

Lemma drop_last_dash_chars (p : ascii -> bool) s :
  forallb p (chars s) = true -> forallb p (chars (drop_last_dash s)) = true.
Proof.
  induction s as [|c s IH]; [done|].
  cbn [chars forallb]. intros [Hc Hs]%andb_prop.
  cbn [drop_last_dash]. destruct s as [|b t].
  - destruct (is_dash c); cbn; [done|]. by rewrite Hc.
  - cbn [chars forallb]. rewrite Hc. cbn. by apply IH.
Qed.

Lemma drop_last_dash_head s :
  starts_with_dash s = false -> starts_with_dash (drop_last_dash s) = false.
Proof.
  destruct s as [|c s]; [done|]. cbn. intros E.
  destruct s; [by rewrite E|done].
Qed.

Lemma drop_last_dash_tidy s :
  no_dash_run s = true ->
  no_dash_run (drop_last_dash s) = true /\
  ends_with_dash (drop_last_dash s) = false.
Proof.
  induction s as [|c s IH]; [done|]. intros H.
  pose proof (no_dash_run_tail _ _ H) as Ht.
  destruct s as [|b t].
  - cbn. by destruct (is_dash c) eqn:E; cbn; rewrite ?E.
  - destruct (IH Ht) as [H1 H2].
    change (drop_last_dash (String c (String b t)))
      with (String c (drop_last_dash (String b t))).
    destruct (drop_last_dash (String b t)) as [|b' t'] eqn:D.
    + (* the rest was a single dash *)
      assert (Hb : is_dash b = true /\ t = EmptyString).
      { revert D. cbn. destruct t; [|done]. by destruct (is_dash b). }
      destruct Hb as [Hb ->]. cbn in H. rewrite Hb in H.
      destruct (is_dash c) eqn:E; [done|]. cbn. by rewrite E.
    + assert (Hb : b' = b).
      { revert D. cbn. destruct t; [|by intros [= -> _]].
        destruct (is_dash b); [done|by intros [= -> _]]. }
      subst b'. split.
      * cbn in H |- *. apply andb_prop in H as [H _]. rewrite H. exact H1.
      * exact H2.
Qed.

Lemma normaliseSlug_is_tidy value : tidy (normaliseSlug value).
Proof.
  unfold normaliseSlug. destruct (String.eqb value ""); [done|].
  set (s := squeeze false _).
  assert (Hc : forallb slug_char (chars s) = true).
  { apply squeeze_chars, dash_others_chars, toLowerCase_small. }
  destruct (squeeze_no_dash_run false (dash_others false (toLowerCase (trim value))))
    as [Hn _]. fold s in Hn.
  destruct (drop_first_dash_tidy s Hn) as [H1 H2].
  destruct (drop_last_dash_tidy _ H1) as [H3 H4].
  split_and!; try done.
  - by apply drop_last_dash_chars, drop_first_dash_chars.
  - by apply drop_last_dash_head.
Qed.

Lemma trimEnd_fixed s :
  forallb (fun c => negb (is_space c)) (chars s) = true -> trimEnd s = s.
Proof.
  induction s as [|c s IH]; [done|]. cbn.
  intros [Hc Hs]%andb_prop. apply negb_true_iff in Hc.
  rewrite (IH Hs), Hc. by destruct s.
Qed.

Lemma trim_fixed s : forallb slug_char (chars s) = true -> trim s = s.
Proof.
  intros H. unfold trim.
  assert (Hs : forallb (fun c => negb (is_space c)) (chars s) = true).
  { apply forallb_forall. intros c Hin. apply negb_true_iff.
    apply slug_char_not_space. rewrite forallb_forall in H. by apply H. }
  assert (Ht : trimStart s = s).
  { destruct s as [|c s]; [done|]. cbn in Hs |- *.
    apply andb_prop in Hs as [Hc _]. apply negb_true_iff in Hc. by rewrite Hc. }
  rewrite Ht. by apply trimEnd_fixed.
Qed.

Lemma toLowerCase_fixed s :
  forallb slug_char (chars s) = true -> toLowerCase s = s.
Proof.
  induction s as [|c s IH]; [done|]. cbn.
  intros [Hc Hs]%andb_prop. by rewrite slug_char_lower, IH.
Qed.

Lemma dash_others_fixed run s :
  forallb slug_char (chars s) = true -> dash_others run s = s.
Proof.
  revert run; induction s as [|c s IH]; intros run; [done|]. cbn.
  intros [Hc Hs]%andb_prop. by rewrite slug_char_keeps, IH.
Qed.

Lemma squeeze_fixed run s :
  no_dash_run s = true -> (run = true -> starts_with_dash s = false) ->
  squeeze run s = s.
Proof.
  revert run; induction s as [|c s IH]; intros run; [done|].
  intros Hn Hr. pose proof (no_dash_run_tail _ _ Hn) as Ht. cbn.
  destruct (is_dash c) eqn:E.
  - destruct run; [by specialize (Hr eq_refl); cbn in Hr; congruence|].
    rewrite IH; [done|done|]. intros _.
    destruct s as [|b t]; [done|]. cbn in Hn |- *.
    apply andb_prop in Hn as [Hn _]. rewrite E in Hn. cbn in Hn.
    by apply negb_true_iff in Hn.
  - rewrite IH; done.
Qed.

Lemma drop_last_dash_fixed s : ends_with_dash s = false -> drop_last_dash s = s.
Proof.
  induction s as [|c s IH]; [done|]. cbn.
  destruct s as [|b t]; [by intros ->|].
  intros H. by rewrite IH.
Qed.

Lemma tidy_fixed s : tidy s -> normaliseSlug s = s.
Proof.
  intros (Hc & Hn & Hs & He). unfold normaliseSlug.
  destruct (String.eqb s "") eqn:E; [by apply String.eqb_eq in E|].
  rewrite trim_fixed, toLowerCase_fixed, dash_others_fixed by done.
  rewrite squeeze_fixed by done.
  assert (Hd : drop_first_dash s = s).
  { destruct s as [|c s]; [done|]. cbn in Hs |- *. by rewrite Hs. }
  rewrite Hd. by apply drop_last_dash_fixed.
Qed.

(** X13.  [normaliseSlug] is idempotent: its result is made of the
    characters of a slug only, has no dash at either end and no two
    dashes in a row, and every such text is left as it is. *)
Theorem normaliseSlug_idempotent (value : string) :
  tidy (normaliseSlug value) /\
  normaliseSlug (normaliseSlug value) = normaliseSlug value /\
  (forall s, tidy s -> normaliseSlug s = s).
Proof.
  pose proof (normaliseSlug_is_tidy value) as Ht.
  split; [exact Ht|]. split.
  - by apply tidy_fixed.
  - intros s Hs. by apply tidy_fixed.
Qed.

(** X14.  On a slug that went through [normaliseSlug], the test of
    [validateSlug] on the characters never fails: [validateSlug] accepts
    the slug exactly when its length is between 2 and 64, and otherwise
    throws the error about a missing slug or the one about the
    length. *)
Theorem validateSlug_after_normaliseSlug (value : string) :
  let slug := normaliseSlug value in
  (slug <> "" -> valid slug = true) /\
  validateSlug slug
  = (if String.eqb slug "" then Some (StatusError 400 "A slug is required.")
     else if (String.length slug <? 2)%nat || (64 <? String.length slug)%nat
     then Some (StatusError 400 "Slug must be between 2 and 64 characters.")
     else None) /\
  (validateSlug slug = None <-> 2 <= String.length slug <= 64).
Proof.
  intros slug.
  destruct (normaliseSlug_is_tidy value) as (Hc & _). fold slug in Hc.
  assert (Hv : slug <> "" -> valid slug = true).
  { intros Hne. unfold valid. rewrite Hc, andb_true_r.
    apply negb_true_iff. by apply String.eqb_neq. }
  assert (Heq : validateSlug slug
    = (if String.eqb slug "" then Some (StatusError 400 "A slug is required.")
       else if (String.length slug <? 2)%nat || (64 <? String.length slug)%nat
       then Some (StatusError 400 "Slug must be between 2 and 64 characters.")
       else None)).
  { unfold validateSlug, MIN_SLUG_LENGTH, MAX_SLUG_LENGTH.
    destruct (String.eqb slug "") eqn:E; [done|].
    apply String.eqb_neq in E. by rewrite (Hv E). }
  split; [exact Hv|]. split; [exact Heq|].
  rewrite Heq. destruct (String.eqb slug "") eqn:E.
  - apply String.eqb_eq in E. rewrite E. cbn. split; [done|lia].
  - destruct (Nat.ltb_spec (String.length slug) 2),
      (Nat.ltb_spec 64 (String.length slug)); cbn; split; try done; lia.
Qed.

Lemma Json_inj {A} status status' (body body' : A) (w w' : world) :
  Json status body w = Json status' body' w' ->
  status = status' /\ body = body' /\ w = w'.
Proof. by intros [= -> -> ->]. Qed.

Lemma getHook_cases slug w :
  match get (hooks w) slug with
  | Own hook => getHook slug w = Return (Some (JSON_copy hook)) w
  | Inherited => getHook slug w = Builtin
  | Undefined => getHook slug w = Return None w
  end.
Proof. unfold getHook. by destruct (get (hooks w) slug). Qed.

(** *** Handlers that are suspended *)

Lemma await_Await {A B K} (o : outcome A) (k : A -> K) x w :
  await (B:=B) o k = Await x w -> exists a, o = Return a w /\ x = k a.
Proof. destruct o; cbn; intros H; simplify_eq. by eexists. Qed.

Lemma await_Fail {A B K} (o : outcome A) (k : A -> K) e w :
  await (B:=B) o k = Over (Fail e w) -> o = Throw e w.
Proof. destruct o; cbn; intros H; by simplify_eq. Qed.

Lemma await_Lost {A B K} (o : outcome A) (k : A -> K) :
  await (B:=B) o k = Over Lost -> o = Builtin \/ o = Hang.
Proof. destruct o; cbn; intros H; simplify_eq; auto. Qed.

Lemma createHook_cases slug description metadata now w :
  (exists hook w1,
     createHook slug description metadata now w = Return hook w1 /\
     get (hooks w) slug = Undefined /\
     hook = Hook.fresh (Hook.id hook) slug description metadata now /\
     hooks w1 = add_key (hooks w) slug hook) \/
  (createHook slug description metadata now w = Throw (conflict slug) w /\
   get (hooks w) slug <> Undefined).
Proof.
  destruct (get (hooks w) slug) eqn:G.
  1,2: right; split; [|done]; apply createHook_taken; by rewrite G.
  left. rewrite createHook_unregistered by done. eexists _, _.
  split; [done|]. split; [done|]. split; [done|].
  rewrite hooks_schedulePersist. cbn [hooks with_hooks]. unfold assign.
  apply get_undefined in G as [-> _]. done.
Qed.

Lemma validation_status s e metadata :
  validateSlug s = Some e \/ ensureMetadata metadata = Some e \/
  guardReservedSlug s = Some e ->
  status_of e = 400%Z.
Proof.
  intros [H|[H|H]].
  - unfold validateSlug in H.
    repeat match type of H with
    | (if ?b then _ else _) = _ => destruct b
    end; by simplify_eq.
  - destruct metadata; cbn in H; by simplify_eq.
  - unfold guardReservedSlug in H. destruct (reserved s); by simplify_eq.
Qed.

Lemma normaliseSlug_of_tidy toString v s :
  normaliseSlug_of toString v = inr s -> tidy s.
Proof.
  unfold normaliseSlug_of. destruct v as [v|].
  - destruct (truthy v).
    + destruct (text_of toString v); intros H; simplify_eq.
      apply normaliseSlug_is_tidy.
    + intros [= <-]. apply (normaliseSlug_is_tidy "").
  - intros [= <-]. apply (normaliseSlug_is_tidy "").
Qed.

Lemma validateSlug_nonempty slug : validateSlug slug = None -> slug <> "".
Proof.
  unfold validateSlug. destruct (String.eqb slug "") eqn:E; [done|].
  intros _. by apply String.eqb_neq.
Qed.

(** What [POST /webhooks] is suspended with. *)
Lemma postWebhook_Await toString p w s existing w1 :
  postWebhook toString p w = Await (s, existing) w1 ->
  w1 = w /\
  normaliseSlug_of toString (slug p) = inr s /\
  validateSlug s = None /\
  ensureMetadata (default (Obj []) (metadata p)) = None /\
  reserved s = false /\
  existing = JSON_copy <$> own (hooks w) s.
Proof.
  unfold postWebhook.
  destruct (normaliseSlug_of toString (slug p)) as [e|s0]; [done|].
  destruct (validateSlug s0) eqn:Hv; [done|].
  destruct (ensureMetadata (default (Obj []) (metadata p))) eqn:Hm; [done|].
  unfold guardReservedSlug. destruct (reserved s0) eqn:Hr; [done|].
  pose proof (getHook_cases s0 w) as Hg.
  destruct (get (hooks w) s0) as [h| |] eqn:G; rewrite Hg; cbn [await];
    intros H; simplify_eq.
  - apply get_own in G. rewrite G. by split_and!.
  - apply get_undefined in G as [G _]. rewrite G. by split_and!.
Qed.

Lemma postWebhook_registered toString p w s current :
  normaliseSlug_of toString (slug p) = inr s ->
  validateSlug s = None ->
  ensureMetadata (default (Obj []) (metadata p)) = None ->
  reserved s = false ->
  own (hooks w) s = Some current ->
  postWebhook toString p w = Await (s, Some (JSON_copy current)) w.
Proof.
  intros Hs Hv Hm Hr Hown. unfold postWebhook, guardReservedSlug.
  rewrite Hs, Hv, Hm, Hr. apply get_own in Hown.
  pose proof (getHook_cases s w) as Hg. rewrite Hown in Hg. by rewrite Hg.
Qed.

(** X15.  [POST /webhooks] is safe to repeat.  When the handler gets
    as far as the result of [getHook], the store is untouched, the slug
    passed [validateSlug] and is not reserved, and the result is the
    JSON copy of the record registered under the slug, if there is one.
    With such a record the handler answers 200 with that copy and
    [alreadyExisted] true, whatever the store is by then, and leaves it
    as it is.  Without one, if it gets as far as waiting for
    [createHook], the slug was still unregistered and is registered at
    once, before the flush, with the trimmed description, the metadata,
    no hit and no log, and no other slug is touched.  The request made
    again for the same slug, with any description and any metadata that
    is an object, whenever the slug is registered, answers 200 with the
    copy of the record as it then is, [alreadyExisted] true, and the
    store untouched. *)
Theorem postWebhook_again (toString : value -> option string) (p : post)
    (w w1 : world) (s : string) (existing : option (Hook.t value)) :
  postWebhook toString p w = Await (s, existing) w1 ->
  w1 = w /\
  normaliseSlug_of toString (slug p) = inr s /\
  validateSlug s = None /\
  reserved s = false /\
  existing = JSON_copy <$> own (hooks w) s /\
  (forall copy w2,
     postWebhook_existing p s (Some copy) w2
     = Over (Json 200 {| hook := copy; alreadyExisted := true |} w2)) /\
  (forall w2 w3,
     postWebhook_existing p s None w2 = Await tt w3 ->
     own (hooks w2) s = None /\
     (forall other, other <> s ->
        own (hooks w3) other = own (hooks w2) other) /\
     exists registered,
       own (hooks w3) s = Some registered /\
       Hook.slug registered = s /\
       trimmed (description p) = inr (Hook.description registered) /\
       Hook.metadata registered = default (Obj []) (metadata p) /\
       Hook.createdAt registered = created_on p /\
       Hook.hits registered = 0%Z /\
       Hook.lastHit registered = None /\
       Hook.logs registered = []) /\
  (forall p' w4 current,
     normaliseSlug_of toString (slug p') = inr s ->
     ensureMetadata (default (Obj []) (metadata p')) = None ->
     own (hooks w4) s = Some current ->
     postWebhook toString p' w4 = Await (s, Some (JSON_copy current)) w4 /\
     forall w5,
       postWebhook_existing p' s (Some (JSON_copy current)) w5
       = Over
           (Json 200 {| hook := JSON_copy current; alreadyExisted := true |}
              w5)).
Proof.
  intros H.
  destruct (postWebhook_Await _ _ _ _ _ _ H) as (-> & Hs & Hv & Hm & Hr & He).
  split_and!; try done.
  - intros w2 w3 Hc. cbn [postWebhook_existing] in Hc.
    destruct (trimmed (description p)) as [e|d] eqn:Hd; [done|].
    apply await_Await in Hc as (h & Hc & _).
    destruct (createHook_cases s d (default (Obj []) (metadata p))
                (created_on p) w2) as [(h' & w' & Hc' & G & Hh & Hw')|[Hc' _]];
      [|congruence].
    rewrite Hc in Hc'. apply Return_inj in Hc' as [<- <-].
    apply get_undefined in G as [G _].
    split; [done|]. split.
    { intros other Hne. rewrite Hw'. by apply own_add_key_ne. }
    exists h. rewrite Hw'. split; [by apply own_add_key_eq|].
    rewrite Hh. by split_and!.
  - intros p' w4 current Hs' Hm' Hown.
    split; [by apply postWebhook_registered|done].
Qed.

Lemma postWebhook_again_witness :
  let p := {| slug := Some (Str " Email 1 ");
              description := Some (Str " first ");
              metadata := None; created_on := 7%Z |} in
  postWebhook (fun _ => None) p blank = Await ("email-1", None) blank /\
  blank = blank /\
  normaliseSlug_of (fun _ => None) (slug p) = inr "email-1" /\
  validateSlug "email-1" = None /\
  reserved "email-1" = false /\
  None = JSON_copy <$> own (hooks blank) "email-1" /\
  (forall copy w2,
     postWebhook_existing p "email-1" (Some copy) w2
     = Over (Json 200 {| hook := copy; alreadyExisted := true |} w2)) /\
  (forall w2 w3,
     postWebhook_existing p "email-1" None w2 = Await tt w3 ->
     own (hooks w2) "email-1" = None /\
     (forall other, other <> "email-1" ->
        own (hooks w3) other = own (hooks w2) other) /\
     exists registered,
       own (hooks w3) "email-1" = Some registered /\
       Hook.slug registered = "email-1" /\
       trimmed (description p) = inr (Hook.description registered) /\
       Hook.metadata registered = default (Obj []) (metadata p) /\
       Hook.createdAt registered = created_on p /\
       Hook.hits registered = 0%Z /\
       Hook.lastHit registered = None /\
       Hook.logs registered = []) /\
  (forall p' w4 current,
     normaliseSlug_of (fun _ => None) (slug p') = inr "email-1" ->
     ensureMetadata (default (Obj []) (metadata p')) = None ->
     own (hooks w4) "email-1" = Some current ->
     postWebhook (fun _ => None) p' w4
     = Await ("email-1", Some (JSON_copy current)) w4 /\
     forall w5,
       postWebhook_existing p' "email-1" (Some (JSON_copy current)) w5
       = Over
           (Json 200 {| hook := JSON_copy current; alreadyExisted := true |}
              w5)).
Proof.
  intros p.
  assert (H : postWebhook (fun _ => None) p blank
              = Await ("email-1", None) blank) by (vm_compute; reflexivity).
  split; [exact H|].
  exact (postWebhook_again (fun _ => None) p blank blank "email-1" None H).
Defined.

(** The whole of such a request on a store that is new: the slug is
    registered with the trimmed description, and the request made again
    is answered with the copy of the record. *)
Example postWebhook_twice :
  let p := {| slug := Some (Str " Email 1 ");
              description := Some (Str " first ");
              metadata := None; created_on := 7%Z |} in
  exists w1 registered,
    postWebhook (fun _ => None) p blank = Await ("email-1", None) blank /\
    postWebhook_existing p "email-1" None blank = Await tt w1 /\
    own (hooks w1) "email-1" = Some registered /\
    Hook.description registered = "first" /\
    postWebhook (fun _ => None) p w1
    = Await ("email-1", Some (JSON_copy registered)) w1 /\
    postWebhook_existing p "email-1" (Some (JSON_copy registered)) w1
    = Over
        (Json 200 {| hook := JSON_copy registered; alreadyExisted := true |}
           w1).
Proof. intros p. eexists _, _. split_and!; vm_compute; reflexivity. Qed.

(** X16.  The errors [POST /webhooks] passes on, each with the store
    untouched.  Before the lookup: an error of one of its own checks,
    with status 400, or the [TypeError] of a [slug] that cannot be made
    a text, with status 500.  After the lookup, and only when [getHook]
    gave [null]: the [TypeError] of a [description] that is neither
    [null] nor a text, with status 500, or the conflict error of
    [createHook], with status 409, when the slug has been registered
    since the lookup.  The part after the lookup always ends in an
    answer, an error or the wait for [createHook]; the lookup does too
    unless the slug is the name of a member of [Object.prototype]. *)
Theorem postWebhook_errors (toString : value -> option string) (p : post)
    (w : world) (e : exn) (w1 : world) :
  (postWebhook toString p w = Over (Fail e w1) ->
   w1 = w /\
   ((status_of e = 400%Z /\
     exists s,
       normaliseSlug_of toString (slug p) = inr s /\
       (validateSlug s = Some e \/
        ensureMetadata (default (Obj []) (metadata p)) = Some e \/
        guardReservedSlug s = Some e)) \/
    (status_of e = 500%Z /\ e = TypeError /\
     normaliseSlug_of toString (slug p) = inl e))) /\
  (forall s existing,
     postWebhook_existing p s existing w = Over (Fail e w1) ->
     w1 = w /\ existing = None /\
     ((status_of e = 500%Z /\ e = TypeError /\
       trimmed (description p) = inl e) \/
      (status_of e = 409%Z /\ e = conflict s /\
       get (hooks w) s <> Undefined))) /\
  (postWebhook toString p w = Over Lost ->
   exists s,
     normaliseSlug_of toString (slug p) = inr s /\
     own (hooks w) s = None /\ inherited s = true) /\
  (forall s existing, postWebhook_existing p s existing w <> Over Lost).
Proof.
  split_and!.
  - unfold postWebhook.
    destruct (normaliseSlug_of toString (slug p)) as [e0|s] eqn:Hs.
    { intros [= <- <-]. split; [done|]. right.
      assert (e0 = TypeError) as ->.
      { revert Hs. unfold normaliseSlug_of. destruct (slug p) as [v|]; [|done].
        destruct (truthy v); [|done].
        by destruct (text_of toString v); intros [= <-]. }
      done. }
    assert (Hgoal : forall e',
      validateSlug s = Some e' \/
      ensureMetadata (default (Obj []) (metadata p)) = Some e' \/
      guardReservedSlug s = Some e' ->
      w = w /\
      ((status_of e' = 400%Z /\
        exists s0, inr (A:=exn) s = inr s0 /\
          (validateSlug s0 = Some e' \/
           ensureMetadata (default (Obj []) (metadata p)) = Some e' \/
           guardReservedSlug s0 = Some e')) \/
       (status_of e' = 500%Z /\ e' = TypeError /\ inr s = inl e'))).
    { intros e' H. split; [done|]. left.
      split; [by eapply validation_status|]. by exists s. }
    destruct (validateSlug s) eqn:Hv.
    { intros [= <- <-]. apply Hgoal. by left. }
    destruct (ensureMetadata (default (Obj []) (metadata p))) eqn:Hm.
    { intros [= <- <-]. apply Hgoal. right. by left. }
    destruct (guardReservedSlug s) eqn:Hr.
    { intros [= <- <-]. apply Hgoal. right. by right. }
    intros H. apply await_Fail in H.
    pose proof (getHook_cases s w) as Hg.
    destruct (get (hooks w) s); congruence.
  - intros s existing. unfold postWebhook_existing.
    destruct existing as [h|]; [done|].
    destruct (trimmed (description p)) as [e0|d] eqn:Hd.
    { intros [= <- <-]. split; [done|]. split; [done|]. left.
      assert (e0 = TypeError) as ->.
      { revert Hd. unfold trimmed.
        destruct (description p) as [[]|]; intros H; by simplify_eq. }
      done. }
    intros H. apply await_Fail in H.
    destruct (createHook_cases s d (default (Obj []) (metadata p))
                (created_on p) w) as [(h' & w' & Hc' & _)|[Hc' G]];
      [congruence|].
    rewrite H in Hc'. injection Hc' as -> ->.
    split; [done|]. split; [done|]. right. done.
  - unfold postWebhook.
    destruct (normaliseSlug_of toString (slug p)) as [e0|s] eqn:Hs; [done|].
    destruct (validateSlug s); [done|].
    destruct (ensureMetadata (default (Obj []) (metadata p))); [done|].
    destruct (guardReservedSlug s); [done|].
    intros H. exists s. split; [done|]. apply get_inherited.
    pose proof (getHook_cases s w) as Hg.
    destruct (get (hooks w) s); [|done|]; by rewrite Hg in H.
  - intros s existing. unfold postWebhook_existing.
    destruct existing as [h|]; [done|].
    destruct (trimmed (description p)) as [e0|d]; [done|].
    intros H. apply await_Lost in H.
    destruct (createHook_cases s d (default (Obj []) (metadata p))
                (created_on p) w) as [(h' & w' & Hc' & _)|[Hc' G]];
      destruct H; congruence.
Qed.

Lemma postWebhook_errors_witness :
  let p := {| slug := Some (Str "Recent"); description := Some (Num (of_nat 5));
              metadata := None; created_on := 7%Z |} in
  exists e e',
    postWebhook (fun _ => None) p blank = Over (Fail e blank) /\
    status_of e = 400%Z /\
    guardReservedSlug "recent" = Some e /\
    postWebhook_existing p "orders" None blank = Over (Fail e' blank) /\
    (blank = blank /\ None = None (A:=Hook.t value) /\
     ((status_of e' = 500%Z /\ e' = TypeError /\
       trimmed (description p) = inl e') \/
      (status_of e' = 409%Z /\ e' = conflict "orders" /\
       get (hooks blank) "orders" <> Undefined))).
Proof.
  intros p. eexists _, _.
  assert (H : postWebhook (fun _ => None) p blank = Over (Fail _ blank))
    by (vm_compute; reflexivity).
  assert (H' : postWebhook_existing p "orders" None blank
               = Over (Fail _ blank)) by (vm_compute; reflexivity).
  split; [exact H|]. split; [reflexivity|]. split; [reflexivity|].
  split; [exact H'|].
  exact (proj1 (proj2 (postWebhook_errors (fun _ => None) p blank _ blank))
           "orders" None H').
Defined.

(** What the delivery handler is suspended with. *)
Lemma hookHandler_Await req w :
  normaliseSlug (param req) <> "" ->
  reserved (normaliseSlug (param req)) = false ->
  toUpperCase (method req) = "POST" ->
  get (hooks w) (normaliseSlug (param req)) <> Inherited ->
  hookHandler req w
  = Await (JSON_copy <$> own (hooks w) (normaliseSlug (param req))) w.
Proof.
  set (s := normaliseSlug (param req)). intros Hne Hr Hpost Hi.
  unfold hookHandler. fold s.
  apply String.eqb_neq in Hne. rewrite Hne, Hr, Hpost, String.eqb_refl.
  cbn [orb negb].
  pose proof (getHook_cases s w) as Hg.
  destruct (get (hooks w) s) as [h| |] eqn:G; [|done|]; rewrite Hg; cbn.
  - apply get_own in G. by rewrite G.
  - apply get_undefined in G as [G _]. by rewrite G.
Qed.

(** X17.  A delivery registers its slug.  Take a [POST] with a
    readable body to a slug that is not empty, not reserved and not the
    name of a member of [Object.prototype], and let no other call
    about that slug be made while the handler is suspended.  Then the
    handler is suspended at [getHook] with the copy of the record, if
    there is one; it goes on to read the body, registering the slug
    first if there was none, whether or not [validateSlug] would accept
    it; and it answers 200 with the entry's reference, time and size.
    Afterwards the slug is registered, its [hits] one more than before
    (one, for a slug registered by this delivery) and its [lastHit] the
    time of the delivery. *)
Theorem hookHandler_registers (rt : builtins) (req : request) (w : world)
    (rawBody : string) (es1 es2 : list event) :
  normaliseSlug (param req) <> "" ->
  reserved (normaliseSlug (param req)) = false ->
  inherited (normaliseSlug (param req)) = false ->
  toUpperCase (method req) = "POST" ->
  incoming req = Readable rawBody ->
  forallb (quiet (normaliseSlug (param req))) es1 = true ->
  forallb (quiet (normaliseSlug (param req))) es2 = true ->
  exists targetHook,
    hookHandler req w = Await targetHook w /\
    targetHook = JSON_copy <$> own (hooks w) (normaliseSlug (param req)) /\
    forall w1, run es1 w = Some w1 ->
    exists w2,
      hookHandler_target req targetHook w1 = Await tt w2 /\
      forall w3, run es2 w2 = Some w3 ->
      exists w4 registered,
        hookHandler_body rt req w3
        = Json 200
            (Stored (normaliseSlug (param req)) (toString36 rt (id_at req))
               (received_at req) (byteLength rt rawBody)
               (isJson (summarisePayload rt rawBody)))
            w4 /\
        own (hooks w4) (normaliseSlug (param req)) = Some registered /\
        Hook.hits registered
        = (match own (hooks w) (normaliseSlug (param req)) with
           | Some h => Hook.hits h
           | None => 0
           end + 1)%Z /\
        Hook.lastHit registered = Some (received_at req) /\
        (own (hooks w) (normaliseSlug (param req)) = None ->
         Hook.createdAt registered = created_at req /\
         Hook.description registered = "" /\
         Hook.metadata registered = Obj []).
Proof.
  set (s := normaliseSlug (param req)).
  intros Hne Hr Hi Hpost Hinc Hq1 Hq2.
  assert (Hbody : forall w3 h,
    own (hooks w3) s = Some h ->
    exists w4 registered,
      hookHandler_body rt req w3
      = Json 200
          (Stored s (toString36 rt (id_at req)) (received_at req)
             (byteLength rt rawBody) (isJson (summarisePayload rt rawBody)))
          w4 /\
      own (hooks w4) s = Some registered /\
      registered = Hook.hit (logLimit w3) (entry_of rt req rawBody) h).
  { intros w3 h Hown. apply get_own in Hown as G.
    unfold hookHandler_body. fold s. rewrite Hinc.
    rewrite (recordHit_registered _ _ _ _ G). cbn [and_then].
    eexists _, _. split; [reflexivity|].
    rewrite hooks_schedulePersist. cbn [hooks with_hooks].
    split; [|reflexivity]. by rewrite own_replace_eq, Hown. }
  exists (JSON_copy <$> own (hooks w) s). split.
  { apply hookHandler_Await; try done. fold s. intros G.
    apply get_inherited in G as [_ G]. congruence. }
  split; [done|].
  intros w1 Hrun1. pose proof (run_quiet s es1 w w1 Hq1 Hrun1) as H1.
  destruct (own (hooks w) s) as [h|] eqn:Hown; cbn [fmap option_fmap option_map].
  - exists w1. split; [done|].
    intros w3 Hrun2. pose proof (run_quiet s es2 w1 w3 Hq2 Hrun2) as H3.
    rewrite H1 in H3.
    destruct (Hbody w3 h H3) as (w4 & registered & Hb & Hr4 & ->).
    exists w4, (Hook.hit (logLimit w3) (entry_of rt req rawBody) h).
    by split_and!.
  - assert (G1 : get (hooks w1) s = Undefined) by by apply get_undefined.
    cbn [hookHandler_target]. fold s.
    rewrite createHook_unregistered by done. cbn [await].
    set (h := Hook.fresh _ s "" (Obj []) (created_at req)).
    set (w2 := schedulePersist _). exists w2. split; [done|].
    assert (H2 : own (hooks w2) s = Some h).
    { subst w2. rewrite hooks_schedulePersist. cbn [hooks with_hooks].
      apply own_assign_eq. }
    intros w3 Hrun2. pose proof (run_quiet s es2 w2 w3 Hq2 Hrun2) as H3.
    rewrite H2 in H3.
    destruct (Hbody w3 h H3) as (w4 & registered & Hb & Hr4 & ->).
    exists w4, (Hook.hit (logLimit w3) (entry_of rt req rawBody) h).
    by split_and!.
Qed.

(** The built-in functions of the examples: no body is taken for JSON. *)
Lemma hookHandler_registers_witness :
  let rt := {| JSON_parse := fun _ => None; JSON_stringify := fun _ => "null";
               byteLength := String.length; toString36 := fun _ => "lq3k2a" |} in
  let req := {| param := "x"; method := "POST"; incoming := Readable "hello";
                created_at := 7%Z; id_at := 8%Z; received_at := 9%Z |} in
  let es1 := [Call (CreateHook "orders" "" (Obj []) 6%Z)] in
  let es2 := [MkdirDone 0 true; Call (RecordHit "orders" (delivery 4))] in
  validateSlug (normaliseSlug (param req)) <> None /\
  normaliseSlug (param req) <> "" /\
  reserved (normaliseSlug (param req)) = false /\
  inherited (normaliseSlug (param req)) = false /\
  toUpperCase (method req) = "POST" /\
  incoming req = Readable "hello" /\
  forallb (quiet (normaliseSlug (param req))) es1 = true /\
  forallb (quiet (normaliseSlug (param req))) es2 = true /\
  exists targetHook,
    hookHandler req blank = Await targetHook blank /\
    targetHook = JSON_copy <$> own (hooks blank) (normaliseSlug (param req)) /\
    forall w1, run es1 blank = Some w1 ->
    exists w2,
      hookHandler_target req targetHook w1 = Await tt w2 /\
      forall w3, run es2 w2 = Some w3 ->
      exists w4 registered,
        hookHandler_body rt req w3
        = Json 200
            (Stored (normaliseSlug (param req)) (toString36 rt (id_at req))
               (received_at req) (byteLength rt "hello")
               (isJson (summarisePayload rt "hello")))
            w4 /\
        own (hooks w4) (normaliseSlug (param req)) = Some registered /\
        Hook.hits registered
        = (match own (hooks blank) (normaliseSlug (param req)) with
           | Some h => Hook.hits h
           | None => 0
           end + 1)%Z /\
        Hook.lastHit registered = Some (received_at req) /\
        (own (hooks blank) (normaliseSlug (param req)) = None ->
         Hook.createdAt registered = created_at req /\
         Hook.description registered = "" /\
         Hook.metadata registered = Obj []).
Proof.
  intros rt req es1 es2.
  assert (H1 : normaliseSlug (param req) <> "") by (vm_compute; congruence).
  split; [vm_compute; congruence|]. split; [exact H1|].
  split; [reflexivity|]. split; [reflexivity|]. split; [reflexivity|].
  split; [reflexivity|]. split; [reflexivity|]. split; [reflexivity|].
  exact (hookHandler_registers rt req blank "hello" es1 es2 H1 eq_refl eq_refl
           eq_refl eq_refl eq_refl eq_refl).
Defined.

(** X18.  The errors the delivery handler passes on, each with the
    store untouched.  None before the lookup.  After it, and only when
    [getHook] gave [null]: the conflict error of [createHook], with
    status 409, when the slug has been registered since the lookup.
    After the body is read: the error of reading it, or the error of an
    unknown slug, with status 404, when the slug is no longer
    registered.  A slug that the handler registers has no hit and no
    log then, so that a delivery whose body cannot be read, being too
    large for one, leaves such a hook behind.  Every stretch ends in an
    answer, an error or a wait unless the slug is the name of a member
    of [Object.prototype]. *)
Theorem hookHandler_errors (rt : builtins) (req : request) (w : world)
    (e : exn) (w1 : world) :
  hookHandler req w <> Over (Fail e w1) /\
  (forall targetHook,
     hookHandler_target req targetHook w = Over (Fail e w1) ->
     w1 = w /\ targetHook = None /\
     e = conflict (normaliseSlug (param req)) /\
     status_of e = 409%Z /\
     get (hooks w) (normaliseSlug (param req)) <> Undefined) /\
  (hookHandler_body rt req w = Fail e w1 ->
   w1 = w /\
   (incoming req = Unreadable e \/
    (e = unknown (normaliseSlug (param req)) /\
     status_of e = 404%Z /\
     get (hooks w) (normaliseSlug (param req)) = Undefined))) /\
  (forall targetHook,
     hookHandler_target req targetHook w = Await tt w1 ->
     targetHook = None ->
     exists registered,
       own (hooks w1) (normaliseSlug (param req)) = Some registered /\
       Hook.createdAt registered = created_at req /\
       Hook.hits registered = 0%Z /\ Hook.logs registered = [] /\
       length (hooks w1) = S (length (hooks w))) /\
  (hookHandler req w = Over Lost \/ hookHandler_body rt req w = Lost ->
   get (hooks w) (normaliseSlug (param req)) = Inherited) /\
  (forall targetHook, hookHandler_target req targetHook w <> Over Lost).
Proof.
  set (s := normaliseSlug (param req)).
  pose proof (getHook_cases s w) as Hg.
  split_and!.
  - unfold hookHandler. fold s.
    destruct (String.eqb s "" || reserved s); [done|].
    destruct (negb (String.eqb (toUpperCase (method req)) "POST")); [done|].
    intros H. apply await_Fail in H.
    destruct (get (hooks w) s); congruence.
  - intros [h|]; cbn [hookHandler_target]; [done|]. fold s.
    intros H. apply await_Fail in H.
    destruct (createHook_cases s "" (Obj []) (created_at req) w)
      as [(h' & w' & Hc' & _)|[Hc' G]]; [congruence|].
    rewrite H in Hc'. injection Hc' as -> ->. by split_and!.
  - unfold hookHandler_body. fold s.
    destruct (incoming req) as [rawBody|e'].
    + unfold recordHit. destruct (get (hooks w) s) eqn:G; cbn; [done|done|].
      intros [= <- <-]. split; [done|]. by right.
    + intros [= <- <-]. split; [done|]. by left.
  - intros targetHook H ->. cbn [hookHandler_target] in H. fold s in H.
    apply await_Await in H as (h & Hc & _).
    destruct (createHook_cases s "" (Obj []) (created_at req) w)
      as [(h' & w' & Hc' & G & Hh & Hw')|[Hc' _]]; [|congruence].
    rewrite Hc in Hc'. apply Return_inj in Hc' as [<- <-].
    apply get_undefined in G as [G _].
    exists h. rewrite Hw'. split; [by apply own_add_key_eq|].
    rewrite Hh. split_and!; try done. apply length_add_key.
  - intros [H|H].
    + revert H. unfold hookHandler. fold s.
      destruct (String.eqb s "" || reserved s); [done|].
      destruct (negb (String.eqb (toUpperCase (method req)) "POST")); [done|].
      intros H. destruct (get (hooks w) s); [|done|]; by rewrite Hg in H.
    + revert H. unfold hookHandler_body. fold s.
      destruct (incoming req) as [rawBody|e']; [|done].
      unfold recordHit. by destruct (get (hooks w) s).
  - intros [h|]; cbn [hookHandler_target]; [done|]. fold s.
    intros H. apply await_Lost in H.
    destruct (createHook_cases s "" (Obj []) (created_at req) w)
      as [(h' & w' & Hc' & _)|[Hc' G]]; destruct H; congruence.
Qed.

Lemma hookHandler_errors_witness :
  let rt := {| JSON_parse := fun _ => None; JSON_stringify := fun _ => "null";
               byteLength := String.length; toString36 := fun _ => "lq3k2a" |} in
  let req := {| param := "big";
                method := "POST";
                incoming := Unreadable (StatusError 413 "request entity too large");
                created_at := 7%Z; id_at := 8%Z; received_at := 9%Z |} in
  let late := {| param := "big"; method := "POST"; incoming := Readable "hello";
                 created_at := 7%Z; id_at := 8%Z; received_at := 9%Z |} in
  exists w1 w2 e e',
    hookHandler req blank = Await None blank /\
    hookHandler_target req None blank = Await tt w1 /\
    (exists registered,
       own (hooks w1) (normaliseSlug (param req)) = Some registered /\
       Hook.createdAt registered = created_at req /\
       Hook.hits registered = 0%Z /\ Hook.logs registered = [] /\
       length (hooks w1) = S (length (hooks blank))) /\
    hookHandler_body rt req w1 = Fail e w1 /\
    (w1 = w1 /\
     (incoming req = Unreadable e \/
      (e = unknown (normaliseSlug (param req)) /\
       status_of e = 404%Z /\
       get (hooks w1) (normaliseSlug (param req)) = Undefined))) /\
    run [Call (DeleteHook "big")] w1 = Some w2 /\
    hookHandler_body rt late w2 = Fail e' w2 /\
    (w2 = w2 /\
     (incoming late = Unreadable e' \/
      (e' = unknown (normaliseSlug (param late)) /\
       status_of e' = 404%Z /\
       get (hooks w2) (normaliseSlug (param late)) = Undefined))).
Proof.
  intros rt req late.
  set (w1 := match hookHandler_target req None blank with
             | Await _ w => w
             | _ => blank
             end).
  set (w2 := match run [Call (DeleteHook "big")] w1 with
             | Some w => w
             | None => blank
             end).
  exists w1, w2, (StatusError 413 "request entity too large"), (unknown "big").
  assert (H0 : hookHandler_target req None blank = Await tt w1)
    by (vm_compute; reflexivity).
  assert (H1 : hookHandler_body rt req w1
               = Fail (StatusError 413 "request entity too large") w1)
    by reflexivity.
  assert (H2 : hookHandler_body rt late w2 = Fail (unknown "big") w2)
    by (vm_compute; reflexivity).
  split; [reflexivity|]. split; [exact H0|].
  split.
  { exact (proj1 (proj2 (proj2 (proj2
             (hookHandler_errors rt req blank TypeError w1)))) None H0 eq_refl). }
  split; [exact H1|].
  split; [exact (proj1 (proj2 (proj2 (hookHandler_errors rt req _ _ _))) H1)|].
  split; [vm_compute; reflexivity|].
  split; [exact H2|].
  exact (proj1 (proj2 (proj2 (hookHandler_errors rt late _ _ _))) H2).
Defined.

(** The slug [constructor] passes every check of the front end, and the
    lookup of both handlers takes the inherited function [Object] for its
    record.  [JSON.stringify] gives [undefined] for a function and
    [JSON.parse] throws on it, so that the request is answered with
    status 500; the store above does not tell this from the other uses
    of an inherited member, and the handlers end in [Lost]. *)
Example constructor_is_looked_up :
  let p := {| slug := Some (Str "constructor"); description := None;
              metadata := None; created_on := 7%Z |} in
  let req := {| param := "constructor"; method := "POST";
                incoming := Readable "hello";
                created_at := 7%Z; id_at := 8%Z; received_at := 9%Z |} in
  validateSlug "constructor" = None /\
  guardReservedSlug "constructor" = None /\
  getHook "constructor" blank = Builtin /\
  postWebhook (fun _ => None) p blank = Over Lost /\
  hookHandler req blank = Over Lost.
Proof. intros p req. split_and!; reflexivity. Qed.

Lemma safeLimit_fixed limit : safeLimit (Passed (safeLimit limit)) = safeLimit limit.
Proof.
  destruct limit as [|[| | |q]]; try reflexivity.
  unfold safeLimit, of_nat. cbn [or_else].
  destruct (Qeq_bool q 0) eqn:E0; [reflexivity|].
  cbn [Math_min].
  destruct (Qle_bool q (inject_Z (Z.of_nat 100))) eqn:E1; [|reflexivity].
  cbn [Math_max].
  destruct (Qle_bool (inject_Z (Z.of_nat 1)) q) eqn:E2; [|reflexivity].
  cbn [or_else]. rewrite E0. cbn [Math_min]. rewrite E1. cbn [Math_max].
  by rewrite E2.
Qed.

(** X19.  The limit that [GET /webhooks/recent] prepares is the one
    [listRecentEntries] would make of the query itself: bringing a limit
    into range twice is bringing it into range once, so the route
    answers what the store answers for the number its [limit] query
    stands for, and what it answers by default when the query has no
    number. *)
Theorem getRecent_is_listRecentEntries (limit : number) (w : world) :
  getRecent limit w = listRecentEntries (Passed limit) w /\
  getRecent NaN w = listRecentEntries Omitted w /\
  safeLimit (Passed (safeLimit (Passed limit))) = safeLimit (Passed limit).
Proof.
  pose proof (safeLimit_fixed (Passed limit)) as H.
  unfold getRecent, listRecentEntries.
  change (Math_max (of_nat 1) (Math_min (or_else limit (of_nat 20)) (of_nat 100)))
    with (safeLimit (Passed limit)).
  rewrite H. split; [done|]. split; [|done].
  reflexivity.
Qed.

(** X20.  What [summarisePayload] makes of a body: the body itself, a
    preview of at most 600 characters, and [isJson] exactly when there
    is a formatted text.  An empty body is never parsed.  The preview is
    cut from the formatted text when there is one, and from the body
    otherwise. *)
Theorem summarisePayload_preview (rt : builtins) (rawBody : string) :
  let p := summarisePayload rt rawBody in
  body p = rawBody /\
  byteSize p = byteLength rt rawBody /\
  (isJson p = true <-> formatted p <> None) /\
  (formatted p <> None <-> rawBody <> "" /\ JSON_parse rt rawBody <> None) /\
  String.length (bodyPreview p) <= 600 /\
  (rawBody = "" ->
   isJson p = false /\ formatted p = None /\ bodyPreview p = "") /\
  (formatted p = None -> bodyPreview p = substring 0 600 rawBody) /\
  (forall f, formatted p = Some f -> f <> "" ->
             bodyPreview p = substring 0 600 f).
Proof.
  intros p. subst p. unfold summarisePayload. cbn.
  split; [done|]. split; [done|].
  assert (Hlen : forall s, String.length (substring 0 600 s) <= 600).
  { intros s. change (substring 0 600 s) with (str_slice0 s 600).
    rewrite str_slice0_length. lia. }
  destruct (String.eqb rawBody "") eqn:E.
  - apply String.eqb_eq in E. subst rawBody. cbn.
    split_and!; try done; try (split; [done|by intros [? ?]]).
    lia.
  - apply String.eqb_neq in E.
    destruct (JSON_parse rt rawBody) as [parsed|]; cbn.
    + split_and!; try done;
        try (destruct (String.eqb (JSON_stringify rt parsed) ""); apply Hlen).
      intros f [= <-] Hf. apply String.eqb_neq in Hf. by rewrite Hf.
    + split_and!; try done; try (split; [done|by intros [? ?]]).
Qed.

End ServerFacts.

(** * Properties of the factory *)

Module FactoryFacts.
Import Factory.

(** X21.  [createWebhookStore] fails in one case only, with one
    message: when neither a connection string nor a file path is given.
    A connection string, when given, decides for the MongoDB store, whose
    constructor then never throws its own error for a missing one; and
    every store made has the [logLimit] of the options, or 50 when they
    leave it out. *)
Theorem createWebhookStore_cases (o : options) :
  (forall message, createWebhookStore o = inl message ->
     given (mongoUri o) = false /\ given (filePath o) = false /\
     message = "A filePath must be provided when mongoUri is not set.") /\
  (given (mongoUri o) = false -> given (filePath o) = false ->
   exists message, createWebhookStore o = inl message) /\
  (forall uri db coll limit,
     createWebhookStore o = inr (Mongo uri db coll limit) <->
     given (mongoUri o) = true /\ mongoUri o = Some uri /\
     db = or_text (mongoDbName o) "webhook-relay" /\
     coll = or_text (mongoCollection o) "hooks" /\
     limit = default (of_nat 50) (logLimit o)) /\
  (forall path limit,
     createWebhookStore o = inr (File path limit) <->
     given (mongoUri o) = false /\ given (filePath o) = true /\
     filePath o = Some path /\ limit = default (of_nat 50) (logLimit o)).
Proof.
  unfold createWebhookStore, MongoWebhookStore, FileWebhookStore.
  destruct (mongoUri o) as [uri|] eqn:Hu; cbn [given];
    [destruct (String.eqb uri "") eqn:Eu; cbn [negb]|];
    (destruct (filePath o) as [path|] eqn:Hp; cbn [given];
     [destruct (String.eqb path "") eqn:Ep; cbn [negb]|]);
    cbn [default from_option id negb];
    split_and!;
    try (intros; simplify_eq; done);
    try (intros; by eexists);
    try (intros; split; [intros ?; simplify_eq; by split_and! |
                         intros (? & ? & ? & ?); simplify_eq; done]);
    try (intros; split; [intros ?; simplify_eq; by split_and! |
                         intros (? & ? & ? & ? & ?); simplify_eq; done]).
Qed.

End FactoryFacts.

(** * Properties of the MongoDB-backed store *)

Module MongoProperties.

Lemma findOne_app slug c c' :
  Mongo.findOne slug (c ++ c')
  = match Mongo.findOne slug c with
    | Some d => Some d
    | None => Mongo.findOne slug c'
    end.
Proof.
  unfold Mongo.findOne. induction c as [|d c IH]; cbn; [done|].
  by destruct (Mongo.has_slug slug d).
Qed.

Lemma mongo_createHook_cases slug description metadata now m :
  let id := str_slice0 (base64url (fst (randomBytes 20 (Mongo.random m)))) 10 in
  let src := snd (randomBytes 20 (Mongo.random m)) in
  let hook := Hook.fresh id slug description metadata now in
  let m0 := Mongo.with_random src m in
  let d := {| Mongo.oid := N.of_nat (length (Mongo.collection m));
              Mongo.fields := hook |} in
  Mongo.createHook slug description metadata now m
  = match Mongo.findOne slug (Mongo.collection m) with
    | Some _ => Mongo.Throw (conflict slug) m0
    | None =>
        Mongo.Return (Mongo.sanitized d)
          (Mongo.with_collection (Mongo.collection m ++ [d]) m0)
    end.
Proof.
  intros id src hook m0 d. unfold Mongo.createHook, attempts.
  rewrite generateId_first_attempt. reflexivity.
Qed.

Lemma hit_all_metadata {M} (x : number) es (hook : Hook.t M) :
  Hook.metadata (hit_all x es hook) = Hook.metadata hook.
Proof.
  unfold hit_all. revert hook. induction es as [|e es IH]; intros hook; [done|].
  cbn [foldl]. by rewrite IH.
Qed.

(** X22.  With a limit that is a length, the two stores keep the same
    record and return it alike but for [metadata].  After the same
    deliveries for a slug that both have registered with the same
    record, [getHook] returns from each store the record with these
    deliveries, with the same identity, counters and log entries; the
    file-backed store returns the metadata as [JSON.stringify] writes
    it, the MongoDB-backed one returns [metadata || {}].  The two
    records are the same, and are the record kept, when the metadata is
    truthy and [JSON.stringify] writes it in full. *)
Theorem stores_agree_on_deliveries (L : nat) (slug : string)
    (es : list Entry.t) (w : world) (m : Mongo.world) (hook : Hook.t value)
    (d : Mongo.doc) :
  get (hooks w) slug = Own hook ->
  logLimit w = of_nat L ->
  Mongo.findOne slug (Mongo.collection m) = Some d ->
  Mongo.fields d = hook ->
  Mongo.logLimit m = Z.of_nat L ->
  exists w' m' kept from_file from_mongo,
    run (map (fun e => Call (RecordHit slug e)) es) w = Some w' /\
    Mongo.recordHits slug es m = Some m' /\
    kept = hit_all (of_nat L) es hook /\
    own (hooks w') slug = Some kept /\
    getHook slug w' = Return (Some from_file) w' /\
    Mongo.getHook slug m' = Mongo.Return (Some from_mongo) m' /\
    from_file
    = Hook.mk (Hook.id kept) (Hook.slug kept) (Hook.description kept)
        (stringify (Hook.metadata hook)) (Hook.createdAt kept)
        (Hook.lastHit kept) (Hook.hits kept) (Hook.logs kept) /\
    from_mongo
    = Hook.mk (Hook.id kept) (Hook.slug kept) (Hook.description kept)
        (Mongo.or_object (Hook.metadata hook)) (Hook.createdAt kept)
        (Hook.lastHit kept) (Hook.hits kept) (Hook.logs kept) /\
    (plain (Hook.metadata hook) = true ->
     truthy (Hook.metadata hook) = true ->
     from_file = kept /\ from_mongo = kept).
Proof.
  intros Hget HL Hf Hd HLm.
  destruct (run_recordHits slug es w hook Hget) as (w' & Hrun & Hget' & _).
  destruct (MongoFacts.mongo_recordHits slug es m d L HLm Hf)
    as (m' & d' & Hr & Hf' & Hd').
  rewrite HL in Hget'. rewrite Hd in Hd'.
  set (kept := hit_all (of_nat L) es hook) in *.
  assert (Hmeta : Hook.metadata kept = Hook.metadata hook)
    by apply hit_all_metadata.
  exists w', m', kept. eexists _, _.
  split; [done|]. split; [done|]. split; [done|].
  split; [by apply get_own|].
  split; [by apply getHook_registered|].
  split; [unfold Mongo.getHook; rewrite Hf'; reflexivity|].
  unfold JSON_copy, Mongo.sanitized. rewrite Hd', Hmeta.
  split; [done|]. split; [done|].
  intros Hp Ht. rewrite stringify_plain by done.
  unfold Mongo.or_object. rewrite Ht, <- Hmeta. by destruct kept.
Qed.

Lemma stores_agree_on_deliveries_witness :
  let m := {| Mongo.collection := [{| Mongo.oid := 0; Mongo.fields := kept_hook |}];
              Mongo.logLimit := 1; Mongo.random := zeros;
              Mongo.wraps := true |} in
  get (hooks reopened) "a" = Own kept_hook /\
  logLimit reopened = of_nat 1 /\
  Mongo.findOne "a" (Mongo.collection m)
  = Some {| Mongo.oid := 0; Mongo.fields := kept_hook |} /\
  Mongo.logLimit m = Z.of_nat 1 /\
  plain (Hook.metadata kept_hook) = true /\
  truthy (Hook.metadata kept_hook) = true /\
  exists w' m' kept from_file from_mongo,
    run (map (fun e => Call (RecordHit "a" e)) [delivery 4; delivery 5]) reopened
    = Some w' /\
    Mongo.recordHits "a" [delivery 4; delivery 5] m = Some m' /\
    kept = hit_all (of_nat 1) [delivery 4; delivery 5] kept_hook /\
    own (hooks w') "a" = Some kept /\
    getHook "a" w' = Return (Some from_file) w' /\
    Mongo.getHook "a" m' = Mongo.Return (Some from_mongo) m' /\
    from_file
    = Hook.mk (Hook.id kept) (Hook.slug kept) (Hook.description kept)
        (stringify (Hook.metadata kept_hook)) (Hook.createdAt kept)
        (Hook.lastHit kept) (Hook.hits kept) (Hook.logs kept) /\
    from_mongo
    = Hook.mk (Hook.id kept) (Hook.slug kept) (Hook.description kept)
        (Mongo.or_object (Hook.metadata kept_hook)) (Hook.createdAt kept)
        (Hook.lastHit kept) (Hook.hits kept) (Hook.logs kept) /\
    (plain (Hook.metadata kept_hook) = true ->
     truthy (Hook.metadata kept_hook) = true ->
     from_file = kept /\ from_mongo = kept).
Proof.
  intros m. split; [reflexivity|]. split; [reflexivity|].
  split; [reflexivity|]. split; [reflexivity|].
  split; [reflexivity|]. split; [reflexivity|].
  exact (stores_agree_on_deliveries 1 "a" [delivery 4; delivery 5] reopened m
           kept_hook {| Mongo.oid := 0; Mongo.fields := kept_hook |}
           eq_refl eq_refl eq_refl eq_refl eq_refl).
Defined.

(** Where the two stores differ: a record whose metadata is [null], as
    [POST /webhooks] registers for a body with [metadata: null], is
    returned with [null] by the file-backed store and with an empty
    object by the MongoDB-backed one. *)
Example stores_differ_on_null_metadata :
  let hook := Hook.mk "Zm9vYmFyMT" "a" "" Null 0%Z None 0%Z [] in
  let w := open_store None [("a", hook)] zeros in
  let m := {| Mongo.collection := [{| Mongo.oid := 0; Mongo.fields := hook |}];
              Mongo.logLimit := 50; Mongo.random := zeros;
              Mongo.wraps := true |} in
  exists from_file from_mongo,
    getHook "a" w = Return (Some from_file) w /\
    Mongo.getHook "a" m = Mongo.Return (Some from_mongo) m /\
    Hook.metadata from_file = Null /\
    Hook.metadata from_mongo = Obj [].
Proof. eexists _, _. split_and!; reflexivity. Qed.

(** X23.  The MongoDB-backed store answers for a slug it does not hold
    as for an unknown one, whatever the slug is called and whichever
    shape the driver gives its results: [getHook] returns [null],
    [deleteHook] returns [false] and [recordHit] and [clearLogs] throw
    the error with status 404, and the collection is left as it is. *)
Theorem mongo_rejects_unregistered (slug : string) (e : Entry.t)
    (m : Mongo.world) :
  Mongo.findOne slug (Mongo.collection m) = None ->
  Mongo.getHook slug m = Mongo.Return None m /\
  Mongo.deleteHook slug m = Mongo.Return false m /\
  Mongo.recordHit slug e m = Mongo.Throw (unknown slug) m /\
  Mongo.clearLogs slug m = Mongo.Throw (unknown slug) m /\
  Server.status_of (unknown slug) = 404%Z.
Proof.
  intros Hf.
  destruct (MongoFacts.mongo_unknown_slug slug e m Hf) as (H1 & H2 & H3).
  split; [unfold Mongo.getHook; by rewrite Hf|].
  by split_and!.
Qed.

Lemma mongo_rejects_unregistered_witness :
  let m := {| Mongo.collection := []; Mongo.logLimit := 50;
              Mongo.random := zeros; Mongo.wraps := false |} in
  Mongo.findOne "constructor" (Mongo.collection m) = None /\
  Mongo.getHook "constructor" m = Mongo.Return None m /\
  Mongo.deleteHook "constructor" m = Mongo.Return false m /\
  Mongo.recordHit "constructor" (delivery 4) m
  = Mongo.Throw (unknown "constructor") m /\
  Mongo.clearLogs "constructor" m = Mongo.Throw (unknown "constructor") m /\
  Server.status_of (unknown "constructor") = 404%Z.
Proof.
  intros m. split; [reflexivity|].
  exact (mongo_rejects_unregistered "constructor" (delivery 4) m eq_refl).
Defined.

(** X24.  In the MongoDB-backed store, [createHook] succeeds exactly on
    a slug the collection does not hold.  The hook it returns is then
    what [getHook] returns for the slug, with no hit and no log; every
    other slug is found as before; and a second [createHook] for the
    slug throws the conflict error with status 409 and leaves the
    collection as it is. *)
Theorem mongo_createHook_then_getHook (slug description : string)
    (metadata : value) (now : timestamp) (m m1 : Mongo.world)
    (hook : Hook.t value) :
  Mongo.createHook slug description metadata now m = Mongo.Return hook m1 ->
  Mongo.findOne slug (Mongo.collection m) = None /\
  Mongo.getHook slug m1 = Mongo.Return (Some hook) m1 /\
  Hook.slug hook = slug /\
  Hook.hits hook = 0%Z /\ Hook.lastHit hook = None /\ Hook.logs hook = [] /\
  (forall other, other <> slug ->
     Mongo.findOne other (Mongo.collection m1)
     = Mongo.findOne other (Mongo.collection m)) /\
  (forall description' metadata' now',
   exists m2,
     Mongo.createHook slug description' metadata' now' m1
     = Mongo.Throw (conflict slug) m2 /\
     Mongo.collection m2 = Mongo.collection m1 /\
     Server.status_of (conflict slug) = 409%Z).
Proof.
  rewrite mongo_createHook_cases.
  destruct (Mongo.findOne slug (Mongo.collection m)) as [d|] eqn:Hf; [done|].
  intros [= <- <-]. split; [done|].
  set (hook := Hook.fresh _ slug description metadata now).
  set (m1 := Mongo.with_collection _ _).
  assert (H1 : Mongo.findOne slug (Mongo.collection m1)
               = Some {| Mongo.oid := N.of_nat (length (Mongo.collection m));
                         Mongo.fields := hook |}).
  { subst m1. cbn [Mongo.collection Mongo.with_collection Mongo.with_random].
    rewrite findOne_app, Hf. unfold Mongo.findOne. cbn.
    unfold Mongo.has_slug. cbn. by rewrite String.eqb_refl. }
  split; [unfold Mongo.getHook; by rewrite H1|].
  split_and!; try done.
  - intros other Hne. subst m1.
    cbn [Mongo.collection Mongo.with_collection Mongo.with_random].
    rewrite findOne_app.
    destruct (Mongo.findOne other (Mongo.collection m)); [done|].
    unfold Mongo.findOne. cbn. unfold Mongo.has_slug. cbn.
    apply String.eqb_neq in Hne. rewrite String.eqb_sym in Hne. by rewrite Hne.
  - intros d' m' n'. rewrite mongo_createHook_cases, H1. by eexists.
Qed.

Lemma mongo_createHook_then_getHook_witness :
  let m := {| Mongo.collection := []; Mongo.logLimit := 50;
              Mongo.random := zeros; Mongo.wraps := false |} in
  exists m1,
    Mongo.createHook "email1" "" (Obj []) 7%Z m = Mongo.Return fresh_hook m1 /\
    Mongo.findOne "email1" (Mongo.collection m) = None /\
    Mongo.getHook "email1" m1 = Mongo.Return (Some fresh_hook) m1 /\
    Hook.slug fresh_hook = "email1" /\
    Hook.hits fresh_hook = 0%Z /\ Hook.lastHit fresh_hook = None /\
    Hook.logs fresh_hook = [] /\
    (forall other, other <> "email1" ->
       Mongo.findOne other (Mongo.collection m1)
       = Mongo.findOne other (Mongo.collection m)) /\
    (forall description' metadata' now',
     exists m2,
       Mongo.createHook "email1" description' metadata' now' m1
       = Mongo.Throw (conflict "email1") m2 /\
       Mongo.collection m2 = Mongo.collection m1 /\
       Server.status_of (conflict "email1") = 409%Z).
Proof.
  intros m. eexists.
  assert (H : Mongo.createHook "email1" "" (Obj []) 7%Z m
              = Mongo.Return fresh_hook _) by (vm_compute; reflexivity).
  split; [exact H|].
  exact (mongo_createHook_then_getHook _ _ _ _ _ _ _ H).
Defined.

End MongoProperties.

(** * Properties of a run of requests *)

Module RouterFacts.
Import Server.

Lemma keys_assign {V} (o : object V) k k' v :
  own (assign o k v) k' <> None -> k' = k \/ own o k' <> None.
Proof.
  destruct (decide (k = k')) as [->|Hne]; [by left|].
  rewrite own_assign_ne by done. by right.
Qed.

Lemma keys_replace {V} (o : object V) k k' v :
  own (replace o k v) k' <> None -> own o k' <> None.
Proof.
  destruct (decide (k = k')) as [->|Hne].
  - rewrite own_replace_eq. by destruct (own o k').
  - by rewrite own_replace_ne.
Qed.

Lemma keys_remove {V} (o : object V) k k' :
  own (remove o k) k' <> None -> own o k' <> None.
Proof.
  destruct (decide (k = k')) as [->|Hne].
  - by rewrite own_remove_eq.
  - by rewrite own_remove_ne.
Qed.

(** A call registers no slug but the one [createHook] is given. *)
Lemma call_clean c w w1 :
  all_clean w ->
  (forall s d m n, c = CreateHook s d m n -> clean s) ->
  invoke c w = Some w1 -> all_clean w1.
Proof.
  intros Hw Hc Hi k Hk.
  destruct (invoke_registry _ _ _ Hi) as [E|H]; [apply Hw; by rewrite <- E|].
  destruct c as [s d m now|s|s e|s].
  - destruct H as (_ & id & E). rewrite E in Hk.
    destruct (decide (k = s)) as [->|Hne]; [by eapply Hc|].
    rewrite own_add_key_ne in Hk by done. by apply Hw.
  - rewrite H in Hk. apply keys_remove in Hk. by apply Hw.
  - destruct H as (hook & _ & E). rewrite E in Hk.
    apply keys_replace in Hk. by apply Hw.
  - destruct H as (hook & _ & E). rewrite E in Hk.
    apply keys_replace in Hk. by apply Hw.
Qed.

Lemma rest_and_then {A B} (o : outcome A) (k : A -> world -> answer B) w' :
  (forall a w, rest (k a w) = Some w) ->
  rest (and_then o k) = Some w' -> after o = Some w'.
Proof. intros Hk. destruct o; cbn; try done. by rewrite Hk. Qed.

Lemma proceed_await {A B K} others (wrap : K -> suspended) (o : outcome A)
    (k : A -> K) s' :
  proceed (A:=B) others wrap (await o k) = Some s' ->
  after o = Some (store s') /\
  (waiting s' = others \/ exists x, waiting s' = others ++ [wrap x]).
Proof.
  destruct o; cbn; intros H; simplify_eq; cbn; split; try done.
  - right. by eexists.
  - by left.
Qed.

Lemma after_getHook slug w w' : after (getHook slug w) = Some w' -> w' = w.
Proof.
  unfold getHook. destruct (get (hooks w) slug); cbn; intros H; by simplify_eq.
Qed.

Lemma rest_answer_map {A B} (f : A -> B) (a : answer A) :
  rest (answer_map f a) = rest a.
Proof. by destruct a. Qed.

Lemma rest_managementGet decodeURIComponent ADMIN_ACCESS r w w' :
  rest (managementGet decodeURIComponent ADMIN_ACCESS r w) = Some w' -> w' = w.
Proof.
  unfold managementGet.
  destruct (String.eqb (segment r) "").
  { rewrite rest_answer_map. unfold getWebhooks.
    destruct (enforceAdminAccess _ _ _); cbn; intros H; by simplify_eq. }
  destruct (String.eqb (toLowerCase (segment r)) "recent");
    [cbn; intros H; by simplify_eq|].
  destruct (String.eqb (toLowerCase (segment r)) "stats");
    [cbn; intros H; by simplify_eq|].
  destruct (decodeURIComponent (segment r)) as [param|];
    [|cbn; intros H; by simplify_eq].
  rewrite rest_answer_map. unfold getWebhook.
  destruct (_ && _); [cbn; intros H; by simplify_eq|].
  intros H. apply rest_and_then in H; [by apply after_getHook in H|].
  by intros [h|] w0.
Qed.

Lemma finish_Some {A} others (a : answer A) s' :
  finish others a = Some s' -> rest a = Some (store s') /\ waiting s' = others.
Proof.
  unfold finish. destruct (rest a); cbn; intros H; by simplify_eq.
Qed.

Lemma postWebhook_Over toString p w a w' :
  postWebhook toString p w = Over a -> rest a = Some w' -> w' = w.
Proof.
  unfold postWebhook.
  destruct (normaliseSlug_of toString (slug p));
    [intros [= <-]; cbn; intros Ha; by simplify_eq|].
  destruct (validateSlug _);
    [intros [= <-]; cbn; intros Ha; by simplify_eq|].
  destruct (ensureMetadata _);
    [intros [= <-]; cbn; intros Ha; by simplify_eq|].
  destruct (guardReservedSlug _);
    [intros [= <-]; cbn; intros Ha; by simplify_eq|].
  unfold getHook. destruct (get _ _); cbn; intros [= <-]; done.
Qed.

Lemma clean_normalised s :
  s <> "" -> reserved s = false -> tidy s -> clean s.
Proof. by intros; split_and!. Qed.

(** Every step of the event loop keeps the registry, and the slugs that
    the suspended handlers go on with, clean. *)
Lemma act_clean ADMIN_ACCESS a s s' :
  all_clean (store s) -> Forall clean_suspended (waiting s) ->
  act ADMIN_ACCESS a s = Some s' ->
  all_clean (store s') /\ Forall clean_suspended (waiting s').
Proof.
  intros Hw Hq. destruct a as [r|i|e]; cbn [act].
  - destruct r as [toString p|decode r|param|param|rt req]; cbn [arrive].
    + destruct (postWebhook toString p (store s)) as [a|[s0 existing] w1] eqn:E;
        cbn [proceed finish].
      * intros H. apply finish_Some in H as [Ha ->]. split; [|done].
        by rewrite (postWebhook_Over _ _ _ _ _ E Ha).
      * intros [= <-]. cbn.
        destruct (ServerFacts.postWebhook_Await _ _ _ _ _ _ E)
          as (-> & Hs & Hv & _ & Hr & _).
        split; [done|]. apply Forall_app. split; [done|].
        apply Forall_singleton. cbn. apply clean_normalised; [|done|].
        -- by apply ServerFacts.validateSlug_nonempty.
        -- by eapply ServerFacts.normaliseSlug_of_tidy.
    + intros H. apply finish_Some in H as [Ha ->].
      apply rest_managementGet in Ha as ->. done.
    + intros H. apply finish_Some in H as [Ha ->].
      split; [|done]. unfold deleteWebhook in Ha.
      apply rest_and_then in Ha; [|by intros [] w0].
      apply (call_clean (DeleteHook (normaliseSlug param)) (store s)); done.
    + unfold resetWebhook. intros H.
      apply proceed_await in H as [Ha Hwait]. split.
      * apply (call_clean (ClearLogs (normaliseSlug param)) (store s)); done.
      * destruct Hwait as [->|[x ->]]; [done|].
        apply Forall_app. split; [done|]. by apply Forall_singleton.
    + unfold hookHandler. set (sl := normaliseSlug (param req)).
      destruct (String.eqb sl "") eqn:Es; cbn [orb];
        [cbn; by intros [= <-]|].
      destruct (reserved sl) eqn:Hr; [cbn; by intros [= <-]|].
      destruct (negb _); [cbn; by intros [= <-]|].
      intros H. apply proceed_await in H as [Ha Hwait].
      apply after_getHook in Ha. rewrite Ha. split; [done|].
      destruct Hwait as [->|[x ->]]; [done|].
      apply Forall_app. split; [done|]. apply Forall_singleton. cbn.
      apply clean_normalised; [by apply String.eqb_neq|done|].
      apply ServerFacts.normaliseSlug_is_tidy.
  - destruct (waiting s !! i) as [k|] eqn:Hi; [|done].
    pose proof (Forall_lookup_1 _ _ _ _ Hq Hi) as Hk.
    pose proof (Forall_delete _ _ i Hq) as Hothers.
    destruct k as [p s0 existing| |rt req targetHook|rt req|]; cbn [resume].
    + unfold postWebhook_existing. destruct existing as [h|].
      { cbn. by intros [= <-]. }
      destruct (trimmed (description p)) as [e|d]; [cbn; by intros [= <-]|].
      intros H. apply proceed_await in H as [Ha Hwait]. split.
      * apply (call_clean
                 (CreateHook s0 d (default (Obj []) (metadata p)) (created_on p))
                 (store s)); [done| |done].
        by intros ? ? ? ? [= <- _ _ _].
      * destruct Hwait as [->|[x ->]]; [done|].
        apply Forall_app. split; [done|]. by apply Forall_singleton.
    + by intros [= <-].
    + unfold hookHandler_target. destruct targetHook as [h|].
      { cbn. intros [= <-]. cbn. split; [done|].
        apply Forall_app. split; [done|]. by apply Forall_singleton. }
      intros H. apply proceed_await in H as [Ha Hwait]. split.
      * apply (call_clean
                 (CreateHook (normaliseSlug (param req)) "" (Obj [])
                    (created_at req)) (store s)); [done| |done].
        by intros ? ? ? ? [= <- _ _ _].
      * destruct Hwait as [->|[x ->]]; [done|].
        apply Forall_app. split; [done|]. by apply Forall_singleton.
    + intros H. apply finish_Some in H as [Ha ->].
      split; [|done]. unfold hookHandler_body in Ha.
      destruct (incoming req) as [rawBody|e];
        [|cbn in Ha; injection Ha as <-; done].
      apply rest_and_then in Ha; [|done].
      apply (call_clean
               (RecordHit (normaliseSlug (param req)) (entry_of rt req rawBody))
               (store s)); done.
    + by intros [= <-].
  - assert (He : forall w', step e (store s) = Some w' ->
                   (forall c, e <> Call c) -> all_clean w').
    { intros w' Hstep Hnc.
      destruct (step_registry _ _ _ Hstep) as [E|(c & -> & _)];
        [|by destruct (Hnc c)].
      intros k Hk. apply Hw. by rewrite <- E. }
    destruct e as [c|j ok|j r|j]; [done|..];
      (destruct (step _ (store s)) as [w'|] eqn:Hstep; cbn; [|done];
       intros [= <-]; cbn; split; [by apply He|done]).
Qed.

Lemma serve_all_clean ADMIN_ACCESS actions s s' :
  all_clean (store s) -> Forall clean_suspended (waiting s) ->
  serve_all ADMIN_ACCESS actions s = Some s' ->
  all_clean (store s') /\ Forall clean_suspended (waiting s').
Proof.
  revert s; induction actions as [|a actions IH]; intros s Hw Hq; cbn.
  - by intros [= <-].
  - destruct (act ADMIN_ACCESS a s) as [s1|] eqn:E; [|done].
    destruct (act_clean _ _ _ _ Hw Hq E). by apply IH.
Qed.

(** X26.  Every slug the front end registers is one it can find
    again.  Take any run of the event loop from a registry of such
    slugs and with no handler suspended: requests reach the handlers of
    [POST /webhooks], of the [GET] routes, of [DELETE] and [reset] on
    [/webhooks/:slug] and of the delivery endpoint; suspended handlers
    go on in any order; flushes progress; and no call takes a built-in
    object for a record.  Afterwards each registered slug is not empty,
    not reserved, made of the characters of a slug with no dash at an
    end and none doubled, and left as it is by [normaliseSlug].  So the
    handler of [GET /webhooks/:slug], with that very slug for its
    parameter, answers with the copy of its hook, unless the slug is the
    admin slug, for which it answers with the list of all hooks; and
    the router hands [GET /webhooks/] followed by the slug to that
    handler, unless the slug is [stats], which the route [/stats] takes
    first. *)
Theorem front_end_keeps_slugs_clean
    (decodeURIComponent : string -> option string)
    (ADMIN_ACCESS : option string) (actions : list action)
    (w : world) (s' : server) :
  (forall k, own (hooks w) k <> None -> clean k) ->
  serve_all ADMIN_ACCESS actions {| store := w; waiting := [] |} = Some s' ->
  forall k current,
    own (hooks (store s')) k = Some current ->
    clean k /\
    normaliseSlug k = k /\
    (k <> ADMIN_ACCESS_SLUG ADMIN_ACCESS ->
     getWebhook (ADMIN_ACCESS_SLUG ADMIN_ACCESS) k (store s')
     = Json 200 (One (JSON_copy current)) (store s')) /\
    (k = ADMIN_ACCESS_SLUG ADMIN_ACCESS ->
     getWebhook (ADMIN_ACCESS_SLUG ADMIN_ACCESS) k (store s')
     = Json 200 (Admin (listHooks (store s'))) (store s')) /\
    (forall r,
       segment r = k ->
       decodeURIComponent k = Some k ->
       managementGet decodeURIComponent ADMIN_ACCESS r (store s')
       = if String.eqb k "stats"
         then Json 200 (StatsOf (getStats (asked_at r) (store s'))) (store s')
         else answer_map Shown
                (getWebhook (ADMIN_ACCESS_SLUG ADMIN_ACCESS) k (store s'))).
Proof.
  intros Hw Hrun k current Hown.
  destruct (serve_all_clean ADMIN_ACCESS actions
              {| store := w; waiting := [] |} s' Hw (Forall_nil_2 _) Hrun)
    as [Hw' _].
  assert (Hk : clean k) by (apply Hw'; by rewrite Hown).
  destruct Hk as (Hne & Hr & Ht).
  pose proof (ServerFacts.tidy_fixed k Ht) as Hfix.
  split; [done|]. split; [done|].
  apply String.eqb_neq in Hne as Hne'.
  split_and!.
  - intros Hadm. unfold getWebhook. rewrite Hfix, Hne'. cbn [negb andb].
    apply String.eqb_neq in Hadm. rewrite Hadm, andb_false_r.
    pose proof (ServerFacts.getHook_cases k (store s')) as Hg.
    apply get_own in Hown. rewrite Hown in Hg. by rewrite Hg.
  - intros Hadm. unfold getWebhook. rewrite Hfix, Hne', <- Hadm.
    rewrite String.eqb_refl. by destruct (String.eqb k "").
  - intros r Hseg Hdec. unfold managementGet. rewrite Hseg, Hne'.
    rewrite (ServerFacts.toLowerCase_fixed k) by apply Ht.
    assert (Hrec : String.eqb k "recent" = false).
    { apply String.eqb_neq. intros ->. by vm_compute in Hr. }
    rewrite Hrec, Hdec. done.
Qed.

Lemma front_end_keeps_slugs_clean_witness :
  let rt := {| JSON_parse := fun _ => None; JSON_stringify := fun _ => "null";
               byteLength := String.length; toString36 := fun _ => "lq3k2a" |} in
  let req := {| param := "Orders"; method := "POST"; incoming := Readable "hello";
                created_at := 7%Z; id_at := 8%Z; received_at := 9%Z |} in
  let p := {| slug := Some (Str " Email 1 "); description := None;
              metadata := None; created_on := 5%Z |} in
  let actions :=
    [Arrive (PostWebhook (fun _ => None) p); Arrive (Deliver rt req);
     Resume 0; Resume 0; Disk (MkdirDone 0 true); Resume 1;
     Arrive (DeleteWebhook "email-1"); Resume 0;
     Arrive (ResetWebhook "orders")] in
  (forall k, own (hooks blank) k <> None -> clean k) /\
  exists s',
    serve_all (Some "secret") actions {| store := blank; waiting := [] |}
    = Some s' /\
    map fst (hooks (store s')) = ["orders"] /\
    forall k current,
      own (hooks (store s')) k = Some current ->
      clean k /\
      normaliseSlug k = k /\
      (k <> ADMIN_ACCESS_SLUG (Some "secret") ->
       getWebhook (ADMIN_ACCESS_SLUG (Some "secret")) k (store s')
       = Json 200 (One (JSON_copy current)) (store s')) /\
      (k = ADMIN_ACCESS_SLUG (Some "secret") ->
       getWebhook (ADMIN_ACCESS_SLUG (Some "secret")) k (store s')
       = Json 200 (Admin (listHooks (store s'))) (store s')) /\
      (forall r,
         segment r = k ->
         Some k = Some k ->
         managementGet Some (Some "secret") r (store s')
         = if String.eqb k "stats"
           then Json 200 (StatsOf (getStats (asked_at r) (store s')))
                  (store s')
           else answer_map Shown
                  (getWebhook (ADMIN_ACCESS_SLUG (Some "secret")) k
                     (store s'))).
Proof.
  intros rt req p actions.
  assert (H0 : forall k, own (hooks blank) k <> None -> clean k)
    by (intros k Hk; exfalso; by apply Hk).
  split; [exact H0|]. eexists.
  assert (Hr : serve_all (Some "secret") actions
                 {| store := blank; waiting := [] |} = Some _)
    by (vm_compute; reflexivity).
  split; [exact Hr|]. split; [reflexivity|].
  exact (front_end_keeps_slugs_clean Some (Some "secret") actions blank _
           H0 Hr).
Defined.

(** The slug [stats] is one the front end registers, and the one whose
    hook the path [/webhooks/stats] does not show. *)
Example stats_is_shadowed :
  let p := {| slug := Some (Str "stats"); description := None;
              metadata := None; created_on := 5%Z |} in
  let r := {| segment := "stats"; header := None; query := None;
              limit := NaN; asked_at := 6%Z |} in
  exists s' registered,
    serve_all None [Arrive (PostWebhook (fun _ => None) p); Resume 0]
      {| store := blank; waiting := [] |} = Some s' /\
    own (hooks (store s')) "stats" = Some registered /\
    managementGet Some None r (store s')
    = Json 200 (StatsOf (getStats 6%Z (store s'))) (store s') /\
    getWebhook "" "stats" (store s')
    = Json 200 (One (JSON_copy registered)) (store s').
Proof. intros p r. eexists _, _. split_and!; vm_compute; reflexivity. Qed.



End RouterFacts.
